(** * node-banana: the workflow execution engine of [src/store/workflowStore.ts]

    A shallow embedding of the zustand store's execution engine
    ([getConnectedInputs], [executeWorkflow], [stopWorkflow],
    [addIncurredCost], ...) together with the properties of the engine that
    the specification states.

    Conventions of the embedding:
    - a JS [Set<string>] is a [gset string], a JS object used as a record
      with partial updates ([{...node.data, ...data}]) is a [gmap string Val];
    - JS [number]s are kept abstract (the type [number], with the
      operations of [JsRuntime]): the engine only adds costs and passes the
      other numbers through;
    - the external collaborators (generation services, grid splitter, image
      decoder, clock, and a user pressing "stop" while a request is in
      flight) are an explicit environment [Env], indexed by a tick counter;
    - the recursion of [visit] carries fuel; [topoFuel] is shown to suffice. *)

From stdpp Require Import base tactics strings gmap list sets relations pretty.
From Stdlib Require Import ZArith.

Set Default Proof Using "Type".

(** ** Outcomes of code that may throw *)

Inductive Outcome (A : Type) : Type :=
  | OutOfFuel
  | Thrown (nodeId : string)
  | Done (a : A).
Arguments OutOfFuel {A}.
Arguments Thrown {A} nodeId.
Arguments Done {A} a.

(** [Array.prototype.forEach] with a callback that may throw, threading the
    mutable state the callback closes over. *)
Fixpoint forEachM {A S : Type} (f : A → S → Outcome S) (l : list A) (s : S)
  : Outcome S :=
  match l with
  | [] => Done s
  | x :: l' =>
      match f x s with
      | Done s' => forEachM f l' s'
      | OutOfFuel => OutOfFuel
      | Thrown n => Thrown n
      end
  end.

(** ** Data model ([src/types]) *)

Inductive NodeType : Type :=
  | imageInput | annotation | prompt | nanoBanana
  | styleTransfer | llmGenerate | splitGrid | output.

Global Instance NodeType_eq_dec : EqDecision NodeType.
Proof. solve_decision. Defined.

(** JSON-like values held in [node.data]; [VUndef] is [undefined]. JS
    numbers are kept abstract: the engine adds costs and passes every other
    number through. *)
#[local] Unset Elimination Schemes.
Inductive Val (number : Type) : Type :=
  | VUndef
  | VNull
  | VBool (b : bool)
  | VNum (n : number)
  | VStr (s : string)
  | VArr (l : list (Val number))
  | VObj (fields : list (string * Val number)).
#[local] Set Elimination Schemes.
Arguments VUndef {number}.
Arguments VNull {number}.
Arguments VBool {number} b.
Arguments VNum {number} n.
Arguments VStr {number} s.
Arguments VArr {number} l.
Arguments VObj {number} fields.

(** What the engine needs from the JS runtime and from its injected
    collaborators: [+] on numbers, the literal [0], the template-string
    rendering of a number, the pricing table
    ([calculateGenerationCost(model, resolution)], imported from
    [utils/costCalculator]), the file name of a grid cell
    ([`split-${Math.floor(index / gridCols) + 1}-${(index % gridCols) + 1}.png`]),
    the number that [JSON.parse(JSON.stringify(n))] gives back ([None],
    that is [null], for [NaN] and the infinities), and the message of the
    [TypeError] that the engine raises when it reads [.length] of a value
    that is [undefined] or [null]. *)
Class JsRuntime (number : Type) : Type := {
  num_add : number → number → number;
  num_zero : number;
  num_to_string : number → string;
  calculateGenerationCost : Val number → Val number → number;
  splitFilename : nat → Val number → string;
  num_json : number → option number;
  lengthErrorMessage : Val number → string;
}.

Section model.

Context {number : Type} `{!JsRuntime number}.

#[local] Abbreviation JsVal := (Val number).

Record WorkflowNode : Type := mkNode {
  node_id : string;
  node_type : NodeType;
  node_data : gmap string JsVal;
  node_groupId : option string;
}.

(** [edge_hasPause] is the truthiness of [e.data?.hasPause]. *)
Record WorkflowEdge : Type := mkEdge {
  edge_id : string;
  edge_source : string;
  edge_target : string;
  edge_sourceHandle : option string;
  edge_targetHandle : option string;
  edge_hasPause : bool;
}.

#[global] Instance WorkflowEdge_eq_dec : EqDecision WorkflowEdge.
Proof. solve_decision. Defined.

(** Both fields are optional: [toggleGroupLock] can create an entry that
    has a [locked] field and nothing else. *)
Record NodeGroup : Type := mkGroup {
  group_name : option string;
  group_locked : option bool;
}.

(** ** Topological sort (the closure [visit] of [executeWorkflow]) *)

Record SortState : Type := mkSort {
  sorted : list WorkflowNode;
  visited : gset string;
  visiting : gset string;
}.

Definition incoming (edges : list WorkflowEdge) (nodeId : string)
  : list WorkflowEdge :=
  filter (λ e, edge_target e = nodeId) edges.

Definition findNode (nodes : list WorkflowNode) (nodeId : string)
  : option WorkflowNode :=
  snd <$> list_find (λ n, node_id n = nodeId) nodes.

Definition findIndex (l : list WorkflowNode) (nodeId : string) : option nat :=
  fst <$> list_find (λ n, node_id n = nodeId) l.

Fixpoint visit (fuel : nat) (nodes : list WorkflowNode)
    (edges : list WorkflowEdge) (nodeId : string) (st : SortState)
  : Outcome SortState :=
  match fuel with
  | O => OutOfFuel
  | S fuel' =>
      if decide (nodeId ∈ visited st) then Done st
      else if decide (nodeId ∈ visiting st) then Thrown nodeId
      else
        let st1 := mkSort (sorted st) (visited st) ({[nodeId]} ∪ visiting st) in
        match forEachM (λ e, visit fuel' nodes edges (edge_source e))
                (incoming edges nodeId) st1 with
        | Done st2 =>
            let visiting' := visiting st2 ∖ {[nodeId]} in
            let visited' := {[nodeId]} ∪ visited st2 in
            Done (mkSort
                    (match findNode nodes nodeId with
                     | Some node => sorted st2 ++ [node]
                     | None => sorted st2
                     end)
                    visited' visiting')
        | OutOfFuel => OutOfFuel
        | Thrown n => Thrown n
        end
  end.

(** Every id the sort can ever visit: node ids and edge sources. *)
Definition idUniverse (nodes : list WorkflowNode) (edges : list WorkflowEdge)
  : gset string :=
  list_to_set (map node_id nodes ++ map edge_source edges).

Definition topoFuel (nodes : list WorkflowNode) (edges : list WorkflowEdge)
  : nat :=
  S (size (idUniverse nodes edges)).

(** [nodes.forEach((node) => visit(node.id))] from the empty marker sets. *)
Definition topoSort (nodes : list WorkflowNode) (edges : list WorkflowEdge)
  : Outcome (list WorkflowNode) :=
  match forEachM (λ n, visit (topoFuel nodes edges) nodes edges (node_id n))
          nodes (mkSort [] ∅ ∅) with
  | Done st => Done (sorted st)
  | OutOfFuel => OutOfFuel
  | Thrown n => Thrown n
  end.

(** The dependency relation of the graph and its (a)cyclicity. *)
Definition edgeRel (edges : list WorkflowEdge) (s t : string) : Prop :=
  ∃ e, e ∈ edges ∧ edge_source e = s ∧ edge_target e = t.

Definition acyclic (edges : list WorkflowEdge) : Prop :=
  ∀ x, ¬ tc (edgeRel edges) x x.

Definition uniqueIds (nodes : list WorkflowNode) : Prop :=
  NoDup (map node_id nodes).

(** Edges connect nodes of the graph. *)
Definition edgesClosed (nodes : list WorkflowNode) (edges : list WorkflowEdge)
  : Prop :=
  ∀ e, e ∈ edges →
    edge_source e ∈ map node_id nodes ∧ edge_target e ∈ map node_id nodes.


(** *** Invariants of the sort, used to state and prove its correctness *)

(** The sort state is consistent: the two marker sets are disjoint,
    [visited] is closed under predecessors, [sorted] lists (once each, and
    in dependency order) exactly the visited ids that name a node. *)
Definition sortInv (nodes : list WorkflowNode) (edges : list WorkflowEdge)
    (st : SortState) : Prop :=
  visited st ## visiting st ∧
  (∀ e, e ∈ edges → edge_target e ∈ visited st → edge_source e ∈ visited st) ∧
  (∀ n, n ∈ sorted st →
     node_id n ∈ visited st ∧ findNode nodes (node_id n) = Some n) ∧
  NoDup (map node_id (sorted st)) ∧
  (∀ e i j ns nt, e ∈ edges →
     sorted st !! i = Some ns → sorted st !! j = Some nt →
     node_id ns = edge_source e → node_id nt = edge_target e → i < j) ∧
  (∀ n, n ∈ nodes → node_id n ∈ visited st →
     node_id n ∈ map node_id (sorted st)).

(** What a successful call of [visit] does to the marker sets. *)
Definition sortStep (st st' : SortState) : Prop :=
  visiting st' = visiting st ∧ visited st ⊆ visited st'.

(** The order respects the edges: sources come strictly before targets. *)
Definition respectsEdges (edges : list WorkflowEdge)
    (order : list WorkflowNode) : Prop :=
  ∀ e i j ns nt, e ∈ edges →
    order !! i = Some ns → order !! j = Some nt →
    node_id ns = edge_source e → node_id nt = edge_target e → i < j.

(** ** The store ([WorkflowStore]) *)

Record Store : Type := mkStore {
  nodes : list WorkflowNode;
  edges : list WorkflowEdge;
  groups : gmap string NodeGroup;
  isRunning : bool;
  currentNodeId : option string;
  pausedAtNodeId : option string;
  globalImageHistory : list JsVal;
  generationsPath : option string;
  workflowId : option string;
  hasUnsavedChanges : bool;
  incurredCost : number;
}.

Definition withNodes (f : list WorkflowNode → list WorkflowNode) (s : Store)
  : Store :=
  mkStore (f (nodes s)) (edges s) (groups s) (isRunning s) (currentNodeId s)
    (pausedAtNodeId s) (globalImageHistory s) (generationsPath s)
    (workflowId s) true (incurredCost s).

(** [set({ isRunning, currentNodeId, pausedAtNodeId })] *)
Definition withRun (running : bool) (current paused : option string)
    (s : Store) : Store :=
  mkStore (nodes s) (edges s) (groups s) running current paused
    (globalImageHistory s) (generationsPath s) (workflowId s)
    (hasUnsavedChanges s) (incurredCost s).

(** [updateNodeData]: merge [patch] over the data of every node named
    [nodeId] and mark the workflow dirty. *)
Definition mergeData (nodeId : string) (patch : gmap string JsVal)
    (node : WorkflowNode) : WorkflowNode :=
  if decide (node_id node = nodeId)
  then mkNode (node_id node) (node_type node) (patch ∪ node_data node)
         (node_groupId node)
  else node.

Definition updateNodeData (nodeId : string) (patch : gmap string JsVal)
    (s : Store) : Store :=
  withNodes (map (mergeData nodeId patch)) s.

Definition getNodeById (s : Store) (nodeId : string) : option WorkflowNode :=
  findNode (nodes s) nodeId.

(** [stopWorkflow]: [set({ isRunning: false, currentNodeId: null })] *)
Definition stopWorkflow (s : Store) : Store :=
  withRun false None (pausedAtNodeId s) s.

Definition addToGlobalHistory (item : JsVal) (s : Store) : Store :=
  mkStore (nodes s) (edges s) (groups s) (isRunning s) (currentNodeId s)
    (pausedAtNodeId s) (item :: globalImageHistory s) (generationsPath s)
    (workflowId s) (hasUnsavedChanges s) (incurredCost s).

(** The store part of [addIncurredCost]; its [saveIncurredCost] is
    [persistCost] below. *)
Definition addCost (cost : number) (s : Store) : Store :=
  mkStore (nodes s) (edges s) (groups s) (isRunning s) (currentNodeId s)
    (pausedAtNodeId s) (globalImageHistory s) (generationsPath s)
    (workflowId s) (hasUnsavedChanges s) (num_add (incurredCost s) cost).

(** *** Reading node data

    Fields are read at their TypeScript types: a field holding a value of
    another type is read as absent. *)

Definition strField (d : gmap string JsVal) (k : string) : option string :=
  match d !! k with
  | Some (VStr s) => Some s
  | _ => None
  end.

Definition field (d : gmap string JsVal) (k : string) : JsVal :=
  default VUndef (d !! k).

(** JS truthiness of a [string | null | undefined]. *)
Definition truthy (o : option string) : option string :=
  match o with
  | Some s => if decide (s = "") then None else Some s
  | None => None
  end.

Definition boolField (d : gmap string JsVal) (k : string) : bool :=
  match d !! k with
  | Some (VBool b) => b
  | _ => false
  end.

Definition arrField (d : gmap string JsVal) (k : string) : list JsVal :=
  match d !! k with
  | Some (VArr l) => l
  | _ => []
  end.

(** An array field that the code dereferences ([nodeData.k.length]): on
    [undefined] (an absent field) and on [null] the read throws a
    [TypeError], which is [None] here; a value of another type is read at
    the type of the field, as an array with no element. *)
Definition arrayField (d : gmap string JsVal) (k : string)
  : option (list JsVal) :=
  match field d k with
  | VArr l => Some l
  | VUndef | VNull => None
  | _ => Some []
  end.

Definition status_loading : JsVal := VStr "loading".
Definition status_complete : JsVal := VStr "complete".
Definition status_error : JsVal := VStr "error".

(** *** [getConnectedInputs] *)

(** [handleId === "image" || !handleId] *)
Definition isImageHandle (handleId : option string) : bool :=
  match handleId with
  | None => true
  | Some h => bool_decide (h = "image") || bool_decide (h = "")
  end.

Definition isTextHandle (handleId : option string) : bool :=
  bool_decide (handleId = Some "text").

(** The image an upstream node offers, if it holds one. *)
Definition sourceImageOf (sourceNode : WorkflowNode) : option string :=
  match node_type sourceNode with
  | imageInput => truthy (strField (node_data sourceNode) "image")
  | annotation | nanoBanana =>
      truthy (strField (node_data sourceNode) "outputImage")
  | _ => None
  end.

(** The assignment to [text] made for a text edge from [sourceNode]. *)
Definition sourceTextOf (sourceNode : WorkflowNode) (text : option string)
  : option string :=
  match node_type sourceNode with
  | prompt => strField (node_data sourceNode) "prompt"
  | llmGenerate => strField (node_data sourceNode) "outputText"
  | _ => text
  end.

Definition collectInput (allNodes : list WorkflowNode)
    (acc : list string * option string) (edge : WorkflowEdge)
  : list string * option string :=
  match findNode allNodes (edge_source edge) with
  | None => acc
  | Some sourceNode =>
      let images :=
        if isImageHandle (edge_targetHandle edge)
        then match sourceImageOf sourceNode with
             | Some img => fst acc ++ [img]
             | None => fst acc
             end
        else fst acc in
      let text :=
        if isTextHandle (edge_targetHandle edge)
        then sourceTextOf sourceNode (snd acc)
        else snd acc in
      (images, text)
  end.

Definition getConnectedInputs (s : Store) (nodeId : string)
  : list string * option string :=
  foldl (collectInput (nodes s)) ([], None) (incoming (edges s) nodeId).

(** ** The environment of a run *)

Inductive ThrownError : Type :=
  | AbortError (message : string)
  | TypeError (message : string)
  | OtherError (message : string)
  | NonError.

(** The body of a non-2xx response: it parses as JSON (with its truthy
    [error] field, if any) or it does not. *)
Inductive ErrorBody : Type :=
  | JsonBody (error : option string)
  | TextBody (text : string).

(** What [await fetch(...)] followed by [await response.json()] yields;
    [payload] is [result.image] or [result.text]. *)
Inductive ServiceReply : Type :=
  | ReplyThrows (err : ThrownError)
  | ReplyNotOk (status statusText : string) (body : ErrorBody)
  | ReplyJson (success : bool) (payload : option string) (error : option string).

Inductive SplitReply : Type :=
  | SplitThrows (err : ThrownError)
  | SplitImages (images : list string).

Record GenerateRequest : Type := mkGenerateRequest {
  gen_images : list string;
  gen_prompt : string;
  gen_aspectRatio : JsVal;
  gen_resolution : JsVal;
  gen_model : JsVal;
  gen_useGoogleSearch : JsVal;
}.

Record LlmRequest : Type := mkLlmRequest {
  llm_prompt : string;
  llm_images : option (list string);
  llm_provider : JsVal;
  llm_model : JsVal;
  llm_temperature : JsVal;
  llm_maxTokens : JsVal;
}.

(** The collaborators, indexed by the tick at which they are consulted.
    [env_stop t] tells whether the user invokes [stopWorkflow] while the
    request issued at tick [t] is in flight. *)
Record Env : Type := mkEnv {
  env_generate : nat → GenerateRequest → ServiceReply;
  env_llm : nat → LlmRequest → ServiceReply;
  env_split : nat → string → JsVal → JsVal → SplitReply;
  env_decode : string → option (number * number);
  env_now : nat → number;
  env_globalId : nat → string;
  env_stop : nat → bool;
}.

(** The [fetch] calls made by the engine. *)
Inductive Call : Type :=
  | CallGenerate (req : GenerateRequest)
  | CallLlm (req : LlmRequest)
  | CallSaveGeneration (directoryPath image prompt imageId : string)
  | CallLogs.

(** The calls of [regenerateNode] to [logger]. *)
Inductive RegenEvent : Type :=
  | RegenAlreadyRunning (nodeId : string)
  | RegenNotFound (nodeId : string)
  | RegenStarted (nodeId : string) (type : NodeType)
  | RegenMissingInputs (nodeId : string)
  | RegenApiCall (nodeId : string)
  | RegenApiError (nodeId : string) (errorMessage : string)
  | RegenReplyError (nodeId : string) (error : option string)
  | RegenSplitting (nodeId : string)
  | RegenSplitDone (nodeId : string) (splitCount : nat)
  | RegenSplitFailed (nodeId : string)
  | RegenCompleted (nodeId : string)
  | RegenFailed (nodeId : string).

(** The calls of the engine to [logger]. *)
Inductive LogEvent : Type :=
  | LogAlreadyRunning
  | LogStarted (nodeCount edgeCount : nat) (startFromNodeId : option string)
      (isResuming : bool)
  | LogCycle (nodeId : string)
  | LogPaused (nodeId : string)
  | LogSkipLocked (nodeId : string)
  | LogExecuting (nodeId : string) (type : NodeType)
  | LogNodeError (nodeId : string)
  | LogApiCall (nodeId : string)
  | LogApiError (nodeId : string) (errorMessage : string)
  | LogCompleted
  | LogWorkflowError
  | LogRegenerate (ev : RegenEvent).

(** The store with what surrounds it: the logger's console stream, the
    requests sent, the cost totals persisted in [localStorage] and the
    tick counter. [localCosts] is the object parsed from the storage key,
    own keys only, each with the [incurredCost] that JSON holds for it
    ([None] is [null]). *)
Record World : Type := mkWorld {
  store : Store;
  console : list LogEvent;
  calls : list Call;
  localCosts : gmap string (option number);
  tick : nat;
}.

Definition onStore (f : Store → Store) (w : World) : World :=
  mkWorld (f (store w)) (console w) (calls w) (localCosts w) (tick w).

Definition logEvent (ev : LogEvent) (w : World) : World :=
  mkWorld (store w) (console w ++ [ev]) (calls w) (localCosts w) (tick w).

Definition fetchCall (c : Call) (w : World) : World :=
  mkWorld (store w) (console w) (calls w ++ [c]) (localCosts w) (tick w).

Definition nextTick (w : World) : World :=
  mkWorld (store w) (console w) (calls w) (localCosts w) (S (tick w)).

(** [allCosts[workflowId] = data] on the parsed object: the assignment
    makes or updates an own key, but for the key ["__proto__"] when the
    object has no such own key, where it goes to the prototype setter and
    no key is made. *)
Definition assignsOwnKey (costs : gmap string (option number)) (wid : string)
  : bool :=
  negb (bool_decide (wid = "__proto__")) || bool_decide (is_Some (costs !! wid)).

(** [saveIncurredCost]: persist the total under the workflow id, if any;
    the total goes through [JSON.stringify]. *)
Definition persistCost (w : World) : World :=
  match truthy (workflowId (store w)) with
  | Some wid =>
      if assignsOwnKey (localCosts w) wid
      then mkWorld (store w) (console w) (calls w)
             (<[wid := num_json (incurredCost (store w))]> (localCosts w))
             (tick w)
      else w
  | None => w
  end.

Definition addIncurredCost (cost : number) (w : World) : World :=
  persistCost (onStore (addCost cost) w).

(** An [await] on an external request: time passes, and the user may have
    pressed stop meanwhile. *)
Definition awaitReply (env : Env) (w : World) : World :=
  nextTick (if env_stop env (tick w) then onStore stopWorkflow w else w).

(** The node ids named by the [Executing ... node] log lines. *)
Definition executedIds (evs : list LogEvent) : list string :=
  omap (λ ev, match ev with LogExecuting i _ => Some i | _ => None end) evs.

(** The events logged between two worlds. *)
Definition eventsSince (w w' : World) : list LogEvent :=
  drop (length (console w)) (console w').

Definition callsSince (w w' : World) : list Call :=
  drop (length (calls w)) (calls w').

(** ** Node executors (the [switch (node.type)] of [executeWorkflow]) *)

Inductive NodeResult : Type :=
  | NodeDone (w : World)
  | NodeFailed (w : World).

(** The common failure epilogue: write the error on the node, then
    [set({ isRunning: false, currentNodeId: null })]. *)
Definition failNode (nodeId errorMessage : string) (w : World) : World :=
  onStore (λ s, stopWorkflow
    (updateNodeData nodeId
       {[ "status" := status_error; "error" := VStr errorMessage ]} s)) w.

(** [error instanceof Error ? error.message : fallback] *)
Definition errorMessageOr (fallback : string) (err : ThrownError) : string :=
  match err with
  | AbortError m | TypeError m | OtherError m => m
  | NonError => fallback
  end.

Definition includes (needle hay : string) : bool :=
  match String.index 0 needle hay with
  | Some _ => true
  | None => false
  end.

(** The classification in the [catch] of the [nanoBanana] case. *)
Definition generateCatchMessage (err : ThrownError) : string :=
  match err with
  | AbortError _ =>
      "Request timed out. Try reducing image sizes or using a simpler prompt."
  | TypeError m =>
      if includes "NetworkError" m
      then "Network error. Check your connection and try again."
      else "Network error: " +:+ m
  | OtherError m => m
  | NonError => "Generation failed"
  end.

(** The message for a response that is not [ok], from the default
    [base] message and the response body. *)
Definition httpErrorMessage (base : string) (body : ErrorBody) : string :=
  match body with
  | JsonBody err => default base (truthy err)
  | TextBody t =>
      if decide (t = "") then base
      else base +:+ " - " +:+ String.substring 0 200 t
  end.

Definition executeAnnotation (node : WorkflowNode) (w : World) : NodeResult :=
  let images := fst (getConnectedInputs (store w) (node_id node)) in
  match truthy (head images) with
  | Some image =>
      let w1 :=
        onStore (updateNodeData (node_id node)
                   {[ "sourceImage" := VStr image ]}) w in
      match truthy (strField (node_data node) "outputImage") with
      | Some _ => NodeDone w1
      | None =>
          NodeDone (onStore (updateNodeData (node_id node)
                               {[ "outputImage" := VStr image ]}) w1)
      end
  | None => NodeDone w
  end.

Definition generateRequest (nodeData : gmap string JsVal)
    (images : list string) (text : string) : GenerateRequest :=
  mkGenerateRequest images text (field nodeData "aspectRatio")
    (field nodeData "resolution") (field nodeData "model")
    (field nodeData "useGoogleSearch").

Definition carouselItem (nodeData : gmap string JsVal) (timestamp : number)
    (text : string) : JsVal :=
  VObj [ ("id", VStr (num_to_string timestamp));
         ("timestamp", VNum timestamp);
         ("prompt", VStr text);
         ("aspectRatio", field nodeData "aspectRatio");
         ("model", field nodeData "model") ].

Definition globalItem (env : Env) (t : nat) (nodeData : gmap string JsVal)
    (image : string) (timestamp : number) (text : string) : JsVal :=
  VObj [ ("image", VStr image);
         ("timestamp", VNum timestamp);
         ("prompt", VStr text);
         ("aspectRatio", field nodeData "aspectRatio");
         ("model", field nodeData "model");
         ("id", VStr (env_globalId env t)) ].

(** The success branch of the [nanoBanana] case, after the response. *)
Definition generateSuccess (env : Env) (node : WorkflowNode)
    (text image : string) (w : World) : World :=
  let nodeData := node_data node in
  let timestamp := env_now env (tick w) in
  let imageId := num_to_string timestamp in
  let w1 :=
    onStore (addToGlobalHistory
               (globalItem env (tick w) nodeData image timestamp text)) w in
  let updatedHistory :=
    carouselItem nodeData timestamp text :: arrField nodeData "imageHistory" in
  let w2 :=
    onStore (updateNodeData (node_id node)
               {[ "outputImage" := VStr image;
                  "status" := status_complete;
                  "error" := VNull;
                  "imageHistory" := VArr updatedHistory;
                  "selectedHistoryIndex" := VNum num_zero ]}) w1 in
  let w3 :=
    addIncurredCost
      (calculateGenerationCost (field nodeData "model")
         (field nodeData "resolution")) w2 in
  match truthy (generationsPath (store w3)) with
  | Some genPath => fetchCall (CallSaveGeneration genPath image text imageId) w3
  | None => w3
  end.

Definition executeNanoBanana (env : Env) (node : WorkflowNode) (w : World)
  : NodeResult :=
  let '(images, text) := getConnectedInputs (store w) (node_id node) in
  match images, truthy text with
  | _ :: _, Some text =>
      let w1 :=
        onStore (updateNodeData (node_id node)
                   {[ "inputImages" := VArr (VStr <$> images);
                      "inputPrompt" := VStr text;
                      "status" := status_loading;
                      "error" := VNull ]}) w in
      let req := generateRequest (node_data node) images text in
      let w2 := fetchCall (CallGenerate req) (logEvent (LogApiCall (node_id node)) w1) in
      let reply := env_generate env (tick w2) req in
      let w3 := awaitReply env w2 in
      match reply with
      | ReplyThrows err =>
          NodeFailed (failNode (node_id node) (generateCatchMessage err)
                        (logEvent (LogNodeError (node_id node)) w3))
      | ReplyNotOk status statusText body =>
          let errorMessage :=
            httpErrorMessage ("HTTP " +:+ status +:+ ": " +:+ statusText) body in
          NodeFailed (failNode (node_id node) errorMessage
                        (logEvent (LogApiError (node_id node) errorMessage) w3))
      | ReplyJson success image error =>
          match (if success then truthy image else None) with
          | Some image => NodeDone (generateSuccess env node text image w3)
          | None =>
              let errorMessage := default "Generation failed" (truthy error) in
              NodeFailed (failNode (node_id node) errorMessage
                            (logEvent (LogApiError (node_id node) errorMessage) w3))
          end
      end
  | _, _ =>
      NodeFailed (failNode (node_id node) "Missing image or text input"
                    (logEvent (LogNodeError (node_id node)) w))
  end.

Definition llmRequest (nodeData : gmap string JsVal) (images : list string)
    (text : string) : LlmRequest :=
  mkLlmRequest text
    (match images with [] => None | _ :: _ => Some images end)
    (field nodeData "provider") (field nodeData "model")
    (field nodeData "temperature") (field nodeData "maxTokens").

Definition executeLlmGenerate (env : Env) (node : WorkflowNode) (w : World)
  : NodeResult :=
  let '(images, text) := getConnectedInputs (store w) (node_id node) in
  match truthy text with
  | None =>
      NodeFailed (failNode (node_id node) "Missing text input"
                    (logEvent (LogNodeError (node_id node)) w))
  | Some text =>
      let w1 :=
        onStore (updateNodeData (node_id node)
                   {[ "inputPrompt" := VStr text;
                      "inputImages" := VArr (VStr <$> images);
                      "status" := status_loading;
                      "error" := VNull ]}) w in
      let req := llmRequest (node_data node) images text in
      let w2 := fetchCall (CallLlm req) (logEvent (LogApiCall (node_id node)) w1) in
      let reply := env_llm env (tick w2) req in
      let w3 := awaitReply env w2 in
      match reply with
      | ReplyThrows err =>
          NodeFailed (failNode (node_id node)
                        (errorMessageOr "LLM generation failed" err)
                        (logEvent (LogNodeError (node_id node)) w3))
      | ReplyNotOk status _ body =>
          let errorMessage := httpErrorMessage ("HTTP " +:+ status) body in
          NodeFailed (failNode (node_id node) errorMessage
                        (logEvent (LogApiError (node_id node) errorMessage) w3))
      | ReplyJson success text' error =>
          match (if success then truthy text' else None) with
          | Some out =>
              NodeDone (onStore (updateNodeData (node_id node)
                                   {[ "outputText" := VStr out;
                                      "status" := status_complete;
                                      "error" := VNull ]}) w3)
          | None =>
              let errorMessage := default "LLM generation failed" (truthy error) in
              NodeFailed (failNode (node_id node) errorMessage
                            (logEvent (LogApiError (node_id node) errorMessage) w3))
          end
      end
  end.

Fixpoint objField (fields : list (string * JsVal)) (k : string)
  : option JsVal :=
  match fields with
  | [] => None
  | (k', v) :: rest => if decide (k' = k) then Some v else objField rest k
  end.

(** [childSet.imageInput] *)
Definition childImageInput (childSet : JsVal) : option string :=
  match childSet with
  | VObj fields =>
      match objField fields "imageInput" with
      | Some (VStr i) => Some i
      | _ => None
      end
  | _ => None
  end.

(** One round of the loop that populates the children of a grid split:
    when cell [index] exists and decodes, write it into the child. The
    elements of [childNodeIds] are read at their type, an object: on a
    [null] element the [onload] handler would throw and its promise never
    settle. *)
Definition populateChild (env : Env) (gridCols : JsVal)
    (splitImages : list string) (index : nat) (childSet : JsVal) (s : Store)
  : Store :=
  match truthy (splitImages !! index) with
  | Some cell =>
      match env_decode env cell with
      | Some (width, height) =>
          let patch : gmap string JsVal :=
            {[ "image" := VStr cell;
               "filename" := VStr (splitFilename index gridCols);
               "dimensions" :=
                 VObj [("width", VNum width); ("height", VNum height)] ]} in
          match childImageInput childSet with
          | Some child => updateNodeData child patch s
          | None => withNodes (λ l, l) s
          end
      | None => s
      end
  | None => s
  end.

Fixpoint populateChildren (env : Env) (gridCols : JsVal)
    (splitImages : list string) (index : nat) (children : list JsVal)
    (s : Store) : Store :=
  match children with
  | [] => s
  | childSet :: rest =>
      populateChildren env gridCols splitImages (S index) rest
        (populateChild env gridCols splitImages index childSet s)
  end.

Definition executeSplitGrid (env : Env) (node : WorkflowNode) (w : World)
  : NodeResult :=
  let images := fst (getConnectedInputs (store w) (node_id node)) in
  match truthy (head images) with
  | None => NodeFailed (failNode (node_id node) "No input image connected" w)
  | Some sourceImage =>
      let nodeData := node_data node in
      if negb (boolField nodeData "isConfigured")
      then NodeFailed (failNode (node_id node)
                         "Node not configured - open settings first" w)
      else
        let w1 :=
          onStore (updateNodeData (node_id node)
                     {[ "sourceImage" := VStr sourceImage;
                        "status" := status_loading;
                        "error" := VNull ]}) w in
        let reply :=
          env_split env (tick w1) sourceImage (field nodeData "gridRows")
            (field nodeData "gridCols") in
        let w2 := awaitReply env w1 in
        match reply with
        | SplitThrows err =>
            NodeFailed (failNode (node_id node)
                          (errorMessageOr "Failed to split image" err)
                          (logEvent (LogNodeError (node_id node)) w2))
        | SplitImages splitImages =>
            match arrayField nodeData "childNodeIds" with
            | Some children =>
                let w3 :=
                  onStore (populateChildren env (field nodeData "gridCols")
                             splitImages 0 children) w2 in
                NodeDone (onStore (updateNodeData (node_id node)
                                     {[ "status" := status_complete;
                                        "error" := VNull ]}) w3)
            | None =>
                (* [nodeData.childNodeIds.length] throws inside the [try] *)
                NodeFailed (failNode (node_id node)
                              (lengthErrorMessage (field nodeData "childNodeIds"))
                              (logEvent (LogNodeError (node_id node)) w2))
            end
        end
  end.

Definition executeOutput (node : WorkflowNode) (w : World) : NodeResult :=
  let images := fst (getConnectedInputs (store w) (node_id node)) in
  match truthy (head images) with
  | Some image =>
      NodeDone (onStore (updateNodeData (node_id node)
                           {[ "image" := VStr image ]}) w)
  | None => NodeDone w
  end.

(** No [case "styleTransfer"] exists: such a node falls through the switch. *)
Definition executeNode (env : Env) (node : WorkflowNode) (w : World)
  : NodeResult :=
  match node_type node with
  | imageInput | prompt | styleTransfer => NodeDone w
  | annotation => executeAnnotation node w
  | nanoBanana => executeNanoBanana env node w
  | llmGenerate => executeLlmGenerate env node w
  | splitGrid => executeSplitGrid env node w
  | output => executeOutput node w
  end.

(** ** The run loop of [executeWorkflow] *)

(** How a call of [executeWorkflow] returns. *)
Inductive ExitPath : Type :=
  | ExitIgnored
  | ExitCompleted
  | ExitPaused
  | ExitNodeError
  | ExitCaught.

Inductive LoopResult : Type :=
  | Finished (w : World)
  | Returned (path : ExitPath) (w : World).

(** [incomingEdges.find((e) => e.data?.hasPause)] is truthy *)
Definition hasPauseEdge (snapEdges : list WorkflowEdge) (nodeId : string)
  : bool :=
  existsb edge_hasPause (incoming snapEdges nodeId).

(** [nodeGroup?.locked] for [node.groupId ? groups[node.groupId] : null] *)
Definition inLockedGroup (snapGroups : gmap string NodeGroup)
    (node : WorkflowNode) : bool :=
  match truthy (node_groupId node) with
  | Some g =>
      match snapGroups !! g with
      | Some grp => bool_decide (group_locked grp = Some true)
      | None => false
      end
  | None => false
  end.

Definition isResumingThisNode (isResuming : bool)
    (startFromNodeId : option string) (node : WorkflowNode) : bool :=
  isResuming && bool_decide (Some (node_id node) = startFromNodeId).

(** The check made before a node is executed: some incoming edge is a
    pause edge, and the node is not the one the run resumes from. *)
Definition pausesAt (snapEdges : list WorkflowEdge) (isResuming : bool)
    (startFromNodeId : option string) (node : WorkflowNode) : bool :=
  negb (isResumingThisNode isResuming startFromNodeId node)
  && hasPauseEdge snapEdges (node_id node).

Definition pauseAt (nodeId : string) (w : World) : World :=
  fetchCall CallLogs
    (onStore (withRun false None (Some nodeId)) (logEvent (LogPaused nodeId) w)).

(** [set({ currentNodeId: node.id })] and the [Executing ... node] log line *)
Definition enterNode (node : WorkflowNode) (w : World) : World :=
  logEvent (LogExecuting (node_id node) (node_type node))
    (onStore (λ s, withRun (isRunning s) (Some (node_id node))
                     (pausedAtNodeId s) s) w).

(** The body of the [for] loop over the remaining part of the order. The
    edges and groups are the snapshot taken when the run started. *)
Fixpoint execLoop (env : Env) (snapEdges : list WorkflowEdge)
    (snapGroups : gmap string NodeGroup) (isResuming : bool)
    (startFromNodeId : option string) (rest : list WorkflowNode) (w : World)
  : LoopResult :=
  match rest with
  | [] => Finished w
  | node :: rest' =>
      if negb (isRunning (store w)) then Finished w
      else if pausesAt snapEdges isResuming startFromNodeId node
      then Returned ExitPaused (pauseAt (node_id node) w)
      else if inLockedGroup snapGroups node
      then execLoop env snapEdges snapGroups isResuming startFromNodeId rest'
             (logEvent (LogSkipLocked (node_id node)) w)
      else
        match executeNode env node (enterNode node w) with
        | NodeDone w2 =>
            execLoop env snapEdges snapGroups isResuming startFromNodeId rest' w2
        | NodeFailed w2 => Returned ExitNodeError w2
        end
  end.

(** [startFromNodeId === get().pausedAtNodeId]; [undefined === null] is false *)
Definition isResumingRun (startFromNodeId paused : option string) : bool :=
  match startFromNodeId, paused with
  | Some a, Some b => bool_decide (a = b)
  | _, _ => false
  end.

Definition startIndex (order : list WorkflowNode)
    (startFromNodeId : option string) : nat :=
  match truthy startFromNodeId with
  | Some i => default 0 (findIndex order i)
  | None => 0
  end.

Definition finishRun (ev : LogEvent) (w : World) : World :=
  fetchCall CallLogs (onStore stopWorkflow (logEvent ev w)).

(** [set({ isRunning: true, pausedAtNodeId: null })] and the start log line *)
Definition beginRun (startFromNodeId : option string) (w : World) : World :=
  let s := store w in
  logEvent (LogStarted (length (nodes s)) (length (edges s)) startFromNodeId
              (isResumingRun startFromNodeId (pausedAtNodeId s)))
    (onStore (withRun true (currentNodeId s) None) w).

Definition executeWorkflow (env : Env) (startFromNodeId : option string)
    (w : World) : ExitPath * World :=
  let s := store w in
  if isRunning s then (ExitIgnored, logEvent LogAlreadyRunning w)
  else
    let isResuming := isResumingRun startFromNodeId (pausedAtNodeId s) in
    let w1 := beginRun startFromNodeId w in
    match topoSort (nodes s) (edges s) with
    | Done order =>
        match execLoop env (edges s) (groups s) isResuming startFromNodeId
                (drop (startIndex order startFromNodeId) order) w1 with
        | Finished w2 => (ExitCompleted, finishRun LogCompleted w2)
        | Returned path w2 => (path, w2)
        end
    | Thrown nodeId =>
        (ExitCaught, finishRun LogWorkflowError (logEvent (LogCycle nodeId) w1))
    | OutOfFuel =>
        (* never taken: [topoFuel] suffices, see [topoSort_total] *)
        (ExitCaught, w1)
    end.

(** ** Vocabulary of the properties *)

Definition resultWorld (r : NodeResult) : World :=
  match r with
  | NodeDone w | NodeFailed w => w
  end.

Definition worldOf (r : LoopResult) : World :=
  match r with
  | Finished w | Returned _ w => w
  end.

(** The children a grid split writes its cells into. *)
Definition splitChildren (node : WorkflowNode) : list string :=
  omap childImageInput (arrField (node_data node) "childNodeIds").

(** The ids whose data the execution of [node] may write. *)
Definition touches (node : WorkflowNode) : list string :=
  node_id node ::
  match node_type node with
  | splitGrid => splitChildren node
  | _ => []
  end.

(** The nodes named [m] are the same, at the same positions, in [l'] as in
    [l], and no node changed its id. *)
Definition keepsNode (m : string) (l l' : list WorkflowNode) : Prop :=
  map node_id l' = map node_id l ∧
  ∀ i n, l !! i = Some n → node_id n = m → l' !! i = Some n.

(** The text output of a node, in the words of the specification: the
    prompt of a prompt node, the generated text of a text-generate node;
    the other kinds have none. *)
Definition textOutputOf (n : WorkflowNode) : option string :=
  match node_type n with
  | prompt => strField (node_data n) "prompt"
  | llmGenerate => strField (node_data n) "outputText"
  | _ => None
  end.

(** The image an edge contributes: that of its source, when the source
    exists and holds one. *)
Definition offeredImage (allNodes : list WorkflowNode) (e : WorkflowEdge)
  : option string :=
  findNode allNodes (edge_source e) ≫= sourceImageOf.

Definition imageEdges (allEdges : list WorkflowEdge) (nodeId : string)
  : list WorkflowEdge :=
  filter (λ e, isImageHandle (edge_targetHandle e) = true)
    (incoming allEdges nodeId).

(** The handles [isValidConnection] of [WorkflowCanvas.tsx] classes as
    image handles. *)
Definition imageHandles : list string := ["image"; "content"; "style"].

Definition imageClassEdges (allEdges : list WorkflowEdge) (nodeId : string)
  : list WorkflowEdge :=
  filter (λ e, default "" (edge_targetHandle e) ∈ imageHandles)
    (incoming allEdges nodeId).

Definition imageHistoryOf (node : WorkflowNode) : list JsVal :=
  arrField (node_data node) "imageHistory".

(** The pricing-table lookup for the (model, resolution) of a node. *)
Definition priceOf (node : WorkflowNode) : number :=
  calculateGenerationCost (field (node_data node) "model")
    (field (node_data node) "resolution").

End model.

#[global] Arguments awaitReply : simpl never.
#[global] Arguments updateNodeData : simpl never.
#[global] Arguments generateSuccess : simpl never.
#[global] Arguments populateChildren : simpl never.
#[global] Arguments getConnectedInputs : simpl never.
#[global] Arguments topoSort : simpl never.

(** * The rest of the store and its callers

    The editing actions of the store, [validateWorkflow], the persistence
    of the cost total, [regenerateNode], and the two places of the canvas
    that decide which edges exist and when a run starts. *)

Section more_model.

Context {number : Type} `{!JsRuntime number}.

#[local] Abbreviation JsVal := (Val number).
#[local] Abbreviation Node := (WorkflowNode (number:=number)).
#[local] Abbreviation Store := (Store (number:=number)).
#[local] Abbreviation World := (World (number:=number)).
#[local] Abbreviation Env := (Env (number:=number)).
#[local] Abbreviation NodeResult := (NodeResult (number:=number)).
#[local] Abbreviation Call := (Call (number:=number)).
#[local] Abbreviation GenerateRequest := (GenerateRequest (number:=number)).

(** ** Editing the graph *)

Definition removeNode (nodeId : string) (s : Store) : Store :=
  mkStore (filter (λ n : Node, node_id n ≠ nodeId) (nodes s))
    (filter (λ e, edge_source e ≠ nodeId ∧ edge_target e ≠ nodeId) (edges s))
    (groups s) (isRunning s) (currentNodeId s) (pausedAtNodeId s)
    (globalImageHistory s) (generationsPath s) (workflowId s) true
    (incurredCost s).

Definition withEdges (f : list WorkflowEdge → list WorkflowEdge) (s : Store)
  : Store :=
  mkStore (nodes s) (f (edges s)) (groups s) (isRunning s) (currentNodeId s)
    (pausedAtNodeId s) (globalImageHistory s) (generationsPath s)
    (workflowId s) true (incurredCost s).

Definition removeEdge (edgeId : string) (s : Store) : Store :=
  withEdges (filter (λ e, edge_id e ≠ edgeId)) s.

(** [{ ...edge, data: { ...edge.data, hasPause: !edge.data?.hasPause } }] *)
Definition togglePause (edgeId : string) (e : WorkflowEdge) : WorkflowEdge :=
  if decide (edge_id e = edgeId)
  then mkEdge (edge_id e) (edge_source e) (edge_target e)
         (edge_sourceHandle e) (edge_targetHandle e) (negb (edge_hasPause e))
  else e.

Definition toggleEdgePause (edgeId : string) (s : Store) : Store :=
  withEdges (map (togglePause edgeId)) s.

(** ** Groups *)

Definition withGroups (f : gmap string NodeGroup → gmap string NodeGroup)
    (s : Store) : Store :=
  mkStore (nodes s) (edges s) (f (groups s)) (isRunning s) (currentNodeId s)
    (pausedAtNodeId s) (globalImageHistory s) (generationsPath s)
    (workflowId s) true (incurredCost s).

Definition setGroupId (groupId : option string) (node : Node) : Node :=
  mkNode (node_id node) (node_type node) (node_data node) groupId.

(** The members every plain object inherits from [Object.prototype]. *)
Definition objectPrototypeKeys : list string :=
  [ "constructor"; "__defineGetter__"; "__defineSetter__"; "hasOwnProperty";
    "__lookupGetter__"; "__lookupSetter__"; "isPrototypeOf";
    "propertyIsEnumerable"; "toString"; "valueOf"; "__proto__";
    "toLocaleString" ].

(** [state.groups[groupId]] on the plain object [groups]: an own entry, or
    an inherited member, which has no enumerable field and no [locked];
    [None] is [undefined]. *)
Definition groupAt (gs : gmap string NodeGroup) (groupId : string)
  : option NodeGroup :=
  match gs !! groupId with
  | Some grp => Some grp
  | None =>
      if bool_decide (groupId ∈ objectPrototypeKeys)
      then Some (mkGroup None None)
      else None
  end.

(** [toggleGroupLock] reads [state.groups[groupId].locked]: where
    [state.groups[groupId]] is [undefined] this throws a [TypeError] and
    the store is not set. *)
Definition toggleGroupLock (groupId : string) (s : Store) : option Store :=
  match groupAt (groups s) groupId with
  | Some grp =>
      let locked := bool_decide (group_locked grp = Some true) in
      Some (withGroups
              (<[groupId := mkGroup (group_name grp) (Some (negb locked))]>) s)
  | None => None
  end.

Definition deleteGroup (groupId : string) (s : Store) : Store :=
  withGroups (delete groupId)
    (withNodes
       (map (λ node, if decide (node_groupId node = Some groupId)
                     then setGroupId None node else node)) s).

Definition addNodesToGroup (nodeIds : list string) (groupId : string)
    (s : Store) : Store :=
  withNodes
    (map (λ node, if decide (node_id node ∈ nodeIds)
                  then setGroupId (Some groupId) node else node)) s.

Definition removeNodesFromGroup (nodeIds : list string) (s : Store) : Store :=
  withNodes
    (map (λ node, if decide (node_id node ∈ nodeIds)
                  then setGroupId None node else node)) s.

Definition setNodeGroupId (nodeId : string) (groupId : option string)
    (s : Store) : Store :=
  withNodes
    (map (λ node, if decide (node_id node = nodeId)
                  then setGroupId groupId node else node)) s.

(** ** [validateWorkflow] *)

Definition dquote : string := String (Ascii.ascii_of_nat 34) EmptyString.

(** [`${kind} node "${id}" missing ${what} input`] *)
Definition missingInput (kind nodeId what : string) : string :=
  kind +:+ " node " +:+ dquote +:+ nodeId +:+ dquote +:+ " missing "
  +:+ what +:+ " input".

(** [edges.some((e) => e.target === node.id && e.targetHandle === handle)] *)
Definition handleConnected (allEdges : list WorkflowEdge)
    (nodeId handle : string) : bool :=
  existsb (λ e, bool_decide (edge_target e = nodeId)
                && bool_decide (edge_targetHandle e = Some handle)) allEdges.

(** [edges.some((e) => e.target === node.id)] *)
Definition anyConnected (allEdges : list WorkflowEdge) (nodeId : string)
  : bool :=
  existsb (λ e, bool_decide (edge_target e = nodeId)) allEdges.

Definition generateErrors (allEdges : list WorkflowEdge) (node : Node)
  : list string :=
  (if handleConnected allEdges (node_id node) "image" then []
   else [missingInput "Generate" (node_id node) "image"])
  ++ (if handleConnected allEdges (node_id node) "text" then []
      else [missingInput "Generate" (node_id node) "text"]).

(** [sourceImage !== null]: an absent field counts as a manual image. *)
Definition hasManualImage (node : Node) : bool :=
  match node_data node !! "sourceImage" with
  | Some VNull => false
  | _ => true
  end.

Definition annotationErrors (allEdges : list WorkflowEdge) (node : Node)
  : list string :=
  if negb (anyConnected allEdges (node_id node)) && negb (hasManualImage node)
  then [missingInput "Annotation" (node_id node) "image"]
  else [].

Definition outputErrors (allEdges : list WorkflowEdge) (node : Node)
  : list string :=
  if anyConnected allEdges (node_id node) then []
  else [missingInput "Output" (node_id node) "image"].

Definition ofType (t : NodeType) (l : list Node) : list Node :=
  filter (λ n, node_type n = t) l.

Definition validateWorkflow (s : Store) : bool * list string :=
  match nodes s with
  | [] => (false, ["Workflow is empty"])
  | _ :: _ =>
      let errors :=
        (ofType nanoBanana (nodes s) ≫= generateErrors (edges s))
        ++ (ofType annotation (nodes s) ≫= annotationErrors (edges s))
        ++ (ofType output (nodes s) ≫= outputErrors (edges s)) in
      (bool_decide (length errors = 0), errors)
  end.

(** ** The Run button of [FloatingActionBar] *)

(** [handleRunClick]: stop a running workflow, else start a full run. *)
Definition handleRunClick (env : Env) (w : World) : World :=
  if isRunning (store w) then onStore stopWorkflow w
  else snd (executeWorkflow env None w).

(** ** Connection rules of [WorkflowCanvas] *)

Definition textHandles : list string := ["text"].

Definition isValidConnection (sourceHandle targetHandle : option string)
  : bool :=
  if bool_decide (default "" (truthy sourceHandle) ∈ imageHandles)
     && negb (bool_decide (default "" (truthy targetHandle) ∈ imageHandles))
  then false
  else if bool_decide (default "" (truthy sourceHandle) ∈ textHandles)
          && negb (bool_decide (default "" (truthy targetHandle) ∈ textHandles))
  then false
  else true.

(** [getNodeHandles]: the (inputs, outputs) of a node kind. *)
Definition getNodeHandles (t : NodeType) : list string * list string :=
  match t with
  | imageInput => (["reference"], ["image"])
  | annotation => (["image"], ["image"])
  | prompt => ([], ["text"])
  | nanoBanana => (["image"; "text"], ["image"])
  | styleTransfer => (["content"; "style"; "text"], ["image"])
  | llmGenerate => (["text"; "image"], ["text"])
  | splitGrid => (["image"], ["reference"])
  | output => (["image"], [])
  end.

(** ** [regenerateNode] *)

Definition logRegen (ev : RegenEvent) (w : World) : World :=
  logEvent (LogRegenerate ev) w.

(** How the [if / else if] chain inside the [try] is left: it falls
    through to the completion epilogue, it returns early, or it throws
    into the outer [catch]. *)
Inductive RegenStep : Type :=
  | RegenFalls (w : World)
  | RegenReturns (w : World)
  | RegenThrows (err : ThrownError) (w : World).

Record RegenResult : Type := mkRegen {
  regen_path : ExitPath;
  regen_world : World;
}.

(** A stored [string[]] field. *)
Definition strsField (d : gmap string JsVal) (k : string) : list string :=
  omap (λ v, match v with VStr s => Some s | _ => None end) (arrField d k).

(** [inputs.images.length > 0 ? inputs.images : nodeData.inputImages] *)
Definition regenImages (connected : list string) (nodeData : gmap string JsVal)
  : list string :=
  match connected with
  | [] => strsField nodeData "inputImages"
  | _ :: _ => connected
  end.

(** The same where the code goes on to read [images.length]: [None] when
    nothing is connected and [inputImages] is absent or [null]. *)
Definition regenImageArray (connected : list string)
    (nodeData : gmap string JsVal) : option (list string) :=
  match connected with
  | [] =>
      match arrayField nodeData "inputImages" with
      | Some l =>
          Some (omap (λ v, match v with VStr s => Some s | _ => None end) l)
      | None => None
      end
  | _ :: _ => Some connected
  end.

(** [inputs.text ?? nodeData.inputPrompt] *)
Definition regenText (connected : option string) (nodeData : gmap string JsVal)
  : option string :=
  match connected with
  | Some t => Some t
  | None => strField nodeData "inputPrompt"
  end.

(** For this kind [!images || images.length === 0] is checked before any
    other read of [images], so a node with no [inputImages] is a node
    with no image. *)
Definition regenerateNanoBanana (env : Env) (node : Node) (w : World)
  : RegenStep :=
  let nodeData := node_data node in
  let inputs := getConnectedInputs (store w) (node_id node) in
  let images := regenImages (fst inputs) nodeData in
  match images, truthy (regenText (snd inputs) nodeData) with
  | _ :: _, Some text =>
      let w1 :=
        onStore (updateNodeData (node_id node)
                   {[ "status" := status_loading; "error" := VNull ]}) w in
      let req := generateRequest nodeData images text in
      let w2 :=
        fetchCall (CallGenerate req) (logRegen (RegenApiCall (node_id node)) w1) in
      let reply := env_generate env (tick w2) req in
      let w3 := awaitReply env w2 in
      match reply with
      | ReplyThrows err => RegenThrows err w3
      | ReplyNotOk status _ body =>
          let errorMessage := httpErrorMessage ("HTTP " +:+ status) body in
          RegenReturns
            (failNode (node_id node) errorMessage
               (logRegen (RegenApiError (node_id node) errorMessage) w3))
      | ReplyJson success image error =>
          match (if success then truthy image else None) with
          | Some image => RegenFalls (generateSuccess env node text image w3)
          | None =>
              RegenFalls
                (onStore (updateNodeData (node_id node)
                            {[ "status" := status_error;
                               "error" :=
                                 VStr (default "Generation failed"
                                         (truthy error)) ]}) w3)
          end
      end
  | _, _ =>
      RegenReturns
        (failNode (node_id node) "Missing image or text input"
           (logRegen (RegenMissingInputs (node_id node)) w))
  end.

(** Here [images] is written on the node and then dereferenced
    ([images.length], in the arguments of the logger call that precedes
    the request): when nothing is connected and [inputImages] is absent
    or [null], that value is written back and the read throws. *)
Definition regenerateLlmGenerate (env : Env) (node : Node) (w : World)
  : RegenStep :=
  let nodeData := node_data node in
  let inputs := getConnectedInputs (store w) (node_id node) in
  match truthy (regenText (snd inputs) nodeData) with
  | None =>
      RegenReturns
        (failNode (node_id node) "Missing text input"
           (logRegen (RegenMissingInputs (node_id node)) w))
  | Some text =>
      match regenImageArray (fst inputs) nodeData with
      | None =>
          RegenThrows
            (TypeError (lengthErrorMessage (field nodeData "inputImages")))
            (onStore (updateNodeData (node_id node)
                        {[ "inputImages" := field nodeData "inputImages";
                           "status" := status_loading;
                           "error" := VNull ]}) w)
      | Some images =>
          let w1 :=
            onStore (updateNodeData (node_id node)
                       {[ "inputImages" := VArr (VStr <$> images);
                          "status" := status_loading;
                          "error" := VNull ]}) w in
          let req := llmRequest nodeData images text in
          let w2 :=
            fetchCall (CallLlm req)
              (logRegen (RegenApiCall (node_id node)) w1) in
          let reply := env_llm env (tick w2) req in
          let w3 := awaitReply env w2 in
          match reply with
          | ReplyThrows err => RegenThrows err w3
          | ReplyNotOk status _ body =>
              let errorMessage := httpErrorMessage ("HTTP " +:+ status) body in
              RegenReturns
                (failNode (node_id node) errorMessage
                   (logRegen (RegenApiError (node_id node) errorMessage) w3))
          | ReplyJson success text' error =>
              match (if success then truthy text' else None) with
              | Some out =>
                  RegenFalls
                    (onStore (updateNodeData (node_id node)
                                {[ "outputText" := VStr out;
                                   "status" := status_complete;
                                   "error" := VNull ]}) w3)
              | None =>
                  RegenFalls
                    (onStore (updateNodeData (node_id node)
                                {[ "status" := status_error;
                                   "error" :=
                                     VStr (default "LLM generation failed"
                                             (truthy error)) ]})
                       (logRegen (RegenReplyError (node_id node) error) w3))
              end
          end
      end
  end.

(** [nodeData.childNodeIds.length] is read in the arguments of the logger
    call that precedes the inner [try]: when the field is absent or
    [null] the read throws into the outer [catch]. *)
Definition regenerateSplitGrid (env : Env) (node : Node) (w : World)
  : RegenStep :=
  let nodeData := node_data node in
  let images := fst (getConnectedInputs (store w) (node_id node)) in
  match truthy (head images) with
  | None =>
      RegenReturns
        (failNode (node_id node) "No input image connected"
           (logRegen (RegenMissingInputs (node_id node)) w))
  | Some sourceImage =>
      if negb (boolField nodeData "isConfigured")
      then RegenReturns
             (failNode (node_id node)
                "Node not configured - open settings first"
                (logRegen (RegenMissingInputs (node_id node)) w))
      else
        let w1 :=
          onStore (updateNodeData (node_id node)
                     {[ "sourceImage" := VStr sourceImage;
                        "status" := status_loading;
                        "error" := VNull ]}) w in
        match arrayField nodeData "childNodeIds" with
        | None =>
            RegenThrows
              (TypeError (lengthErrorMessage (field nodeData "childNodeIds")))
              w1
        | Some children =>
            let w1' := logRegen (RegenSplitting (node_id node)) w1 in
            let reply :=
              env_split env (tick w1') sourceImage (field nodeData "gridRows")
                (field nodeData "gridCols") in
            let w2 := awaitReply env w1' in
            match reply with
            | SplitThrows err =>
                RegenReturns
                  (failNode (node_id node)
                     (errorMessageOr "Failed to split image" err)
                     (logRegen (RegenSplitFailed (node_id node)) w2))
            | SplitImages splitImages =>
                let w3 :=
                  onStore (populateChildren env (field nodeData "gridCols")
                             splitImages 0 children) w2 in
                RegenFalls
                  (onStore (updateNodeData (node_id node)
                              {[ "status" := status_complete;
                                 "error" := VNull ]})
                     (logRegen (RegenSplitDone (node_id node)
                                  (length splitImages)) w3))
            end
        end
  end.

(** The [if / else if] chain: the other node kinds have no branch. *)
Definition regenerateBody (env : Env) (node : Node) (w : World) : RegenStep :=
  match node_type node with
  | nanoBanana => regenerateNanoBanana env node w
  | llmGenerate => regenerateLlmGenerate env node w
  | splitGrid => regenerateSplitGrid env node w
  | _ => RegenFalls w
  end.

(** The node found is the first one named [nodeId], so [node_id node] below
    is the [nodeId] of the source. The logger is the one of
    [executeWorkflow]: the lines go to the same console. *)
Definition regenerateNode (env : Env) (nodeId : string) (w : World)
  : RegenResult :=
  let s := store w in
  if isRunning s
  then mkRegen ExitIgnored (logRegen (RegenAlreadyRunning nodeId) w)
  else
    match findNode (nodes s) nodeId with
    | None => mkRegen ExitIgnored (logRegen (RegenNotFound nodeId) w)
    | Some node =>
        let w1 :=
          onStore (withRun true (Some nodeId) (pausedAtNodeId s))
            (logRegen (RegenStarted nodeId (node_type node)) w) in
        match regenerateBody env node w1 with
        | RegenFalls w2 =>
            mkRegen ExitCompleted
              (fetchCall CallLogs
                 (onStore stopWorkflow (logRegen (RegenCompleted nodeId) w2)))
        | RegenReturns w2 => mkRegen ExitNodeError w2
        | RegenThrows err w2 =>
            mkRegen ExitCaught
              (fetchCall CallLogs
                 (failNode nodeId (errorMessageOr "Regeneration failed" err)
                    (logRegen (RegenFailed nodeId) w2)))
        end
    end.

Definition stepWorld (r : RegenStep) : World :=
  match r with
  | RegenFalls w | RegenReturns w | RegenThrows _ w => w
  end.

(** ** Vocabulary of the further properties *)

(** Everything of the store a run has no business changing. *)
Definition sameGraph (s s' : Store) : Prop :=
  edges s' = edges s ∧ groups s' = groups s ∧
  map node_id (nodes s') = map node_id (nodes s) ∧
  map node_type (nodes s') = map node_type (nodes s) ∧
  map node_groupId (nodes s') = map node_groupId (nodes s) ∧
  workflowId s' = workflowId s ∧ generationsPath s' = generationsPath s.

(** The store but for the node list and the dirty flag. *)
Definition sameButNodes (s s' : Store) : Prop :=
  edges s' = edges s ∧ groups s' = groups s ∧
  isRunning s' = isRunning s ∧ currentNodeId s' = currentNodeId s ∧
  pausedAtNodeId s' = pausedAtNodeId s ∧
  globalImageHistory s' = globalImageHistory s ∧
  generationsPath s' = generationsPath s ∧ workflowId s' = workflowId s ∧
  incurredCost s' = incurredCost s.

(** The store but for the two run flags [stopWorkflow] clears. *)
Definition sameButFlags (s s' : Store) : Prop :=
  nodes s' = nodes s ∧ edges s' = edges s ∧ groups s' = groups s ∧
  pausedAtNodeId s' = pausedAtNodeId s ∧
  globalImageHistory s' = globalImageHistory s ∧
  generationsPath s' = generationsPath s ∧ workflowId s' = workflowId s ∧
  hasUnsavedChanges s' = hasUnsavedChanges s ∧
  incurredCost s' = incurredCost s.

Definition agreeButFlags (w w' : World) : Prop :=
  sameButFlags (store w) (store w') ∧ console w' = console w ∧
  calls w' = calls w ∧ localCosts w' = localCosts w ∧ tick w' = tick w.

(** Two environments that differ only in when the user presses stop. *)
Definition sameReplies (env env' : Env) : Prop :=
  env_generate env = env_generate env' ∧ env_llm env = env_llm env' ∧
  env_split env = env_split env' ∧ env_decode env = env_decode env' ∧
  env_now env = env_now env' ∧ env_globalId env = env_globalId env'.

Definition isDone (r : NodeResult) : bool :=
  match r with
  | NodeDone _ => true
  | NodeFailed _ => false
  end.

Definition nodeStatus (s : Store) (nodeId : string) : option JsVal :=
  n ← getNodeById s nodeId; node_data n !! "status".

Definition nodeError (s : Store) (nodeId : string) : option JsVal :=
  n ← getNodeById s nodeId; node_data n !! "error".

End more_model.

(** ** Persistence of the cost total

    [loadIncurredCost] applies [|| 0] to the stored number, so it needs the
    truthiness of JS numbers ([0] and [NaN] are falsy). *)

Section cost_model.

Context {number : Type} `{!JsRuntime number}.
Variable num_truthy : number → bool.

#[local] Abbreviation Store := (Store (number:=number)).
#[local] Abbreviation World := (World (number:=number)).

Definition setCost (cost : number) (s : Store) : Store :=
  mkStore (nodes s) (edges s) (groups s) (isRunning s) (currentNodeId s)
    (pausedAtNodeId s) (globalImageHistory s) (generationsPath s)
    (workflowId s) (hasUnsavedChanges s) cost.

Definition resetIncurredCost (w : World) : World :=
  persistCost (onStore (setCost num_zero) w).

(** [loadWorkflowCostData(workflowId)?.incurredCost || 0]: an inherited
    member of the parsed object has no [incurredCost], like a missing
    key. *)
Definition storedCost (costs : gmap string (option number)) (wid : string)
  : number :=
  match costs !! wid with
  | Some (Some c) => if num_truthy c then c else num_zero
  | _ => num_zero
  end.

Definition loadIncurredCost (wid : string) (w : World) : World :=
  onStore (setCost (storedCost (localCosts w) wid)) w.

End cost_model.

(** * Concrete workflows

    An instance of the runtime with integer numbers (costs in thousandths
    of a dollar) and a handful of small graphs, used to exercise the
    properties below on concrete inputs. *)

Module Examples.

#[local] Abbreviation ZNode := (WorkflowNode (number:=Z)).
#[local] Abbreviation ZStore := (Store (number:=Z)).
#[local] Abbreviation ZWorld := (World (number:=Z)).
#[local] Abbreviation ZEnv := (Env (number:=Z)).

Definition exPrice (model resolution : Val Z) : Z :=
  match model, resolution with
  | VStr "nano-banana-pro", VStr "4K" => 240
  | VStr "nano-banana-pro", _ => 134
  | _, _ => 39
  end.

(** [Math.floor(index / c) + 1] and [(index % c) + 1] for an integer [c]:
    a division by zero gives [NaN] at index 0 and [Infinity] and [NaN]
    after it; [%] takes the sign of the dividend. *)
Definition exCellName (index : nat) (c : Z) : string :=
  if decide (c = 0)%Z
  then (if decide (index = 0) then "split-NaN-NaN.png"
        else "split-Infinity-NaN.png")
  else "split-" +:+ pretty (Z.of_nat index / c + 1)%Z +:+ "-"
       +:+ pretty (Z.rem (Z.of_nat index) c + 1)%Z +:+ ".png".

(** [null] and the booleans are coerced to numbers; [undefined] gives
    [NaN]; the other values are no [gridCols] of the data model and are
    read as absent. *)
Definition exFilename (index : nat) (gridCols : Val Z) : string :=
  match gridCols with
  | VNum c => exCellName index c
  | VNull => exCellName index 0
  | VBool b => exCellName index (if b then 1 else 0)
  | _ => "split-NaN-NaN.png"
  end.

#[global] Instance exRuntime : JsRuntime Z := {|
  num_add := Z.add;
  num_zero := 0%Z;
  num_to_string := pretty;
  calculateGenerationCost := exPrice;
  splitFilename := exFilename;
  num_json := Some;
  lengthErrorMessage :=
    λ v, match v with
         | VNull => "Cannot read properties of null (reading 'length')"
         | _ => "Cannot read properties of undefined (reading 'length')"
         end;
|}.

Definition exImage : ZNode :=
  mkNode "imageInput-1" imageInput {[ "image" := VStr "data:cat" ]} None.

Definition exEmptyImage : ZNode :=
  mkNode "imageInput-1" imageInput {[ "image" := VNull ]} None.

Definition exPrompt : ZNode :=
  mkNode "prompt-2" prompt {[ "prompt" := VStr "draw a cat" ]} None.

Definition exPromptB : ZNode :=
  mkNode "prompt-5" prompt {[ "prompt" := VStr "draw a dog" ]} None.

Definition exGenData : gmap string (Val Z) :=
  {[ "model" := VStr "nano-banana-pro";
     "resolution" := VStr "1K";
     "aspectRatio" := VStr "1:1";
     "status" := VStr "idle";
     "imageHistory" := VArr [];
     "selectedHistoryIndex" := VNum 0%Z ]}.

Definition exGen : ZNode :=
  mkNode "nanoBanana-3" nanoBanana exGenData None.

Definition exLockedGen : ZNode :=
  mkNode "nanoBanana-3" nanoBanana exGenData (Some "group-1").

Definition exOutput : ZNode :=
  mkNode "output-4" output ∅ None.

Definition exEdge (source target handle : string) (hasPause : bool)
  : WorkflowEdge :=
  mkEdge ("edge-" +:+ source +:+ "-" +:+ target) source target
    (Some (if decide (handle = "text") then "text" else "image"))
    (Some handle) hasPause.

Definition exNodes : list ZNode :=
  [exOutput; exGen; exImage; exPrompt].

Definition exEdges : list WorkflowEdge :=
  [ exEdge "imageInput-1" "nanoBanana-3" "image" false;
    exEdge "prompt-2" "nanoBanana-3" "text" false;
    exEdge "nanoBanana-3" "output-4" "image" false ].

Definition exRank (nodeId : string) : nat :=
  if decide (nodeId = "output-4") then 2
  else if decide (nodeId = "nanoBanana-3") then 1
  else 0.

Definition exStore (ns : list ZNode)
    (es : list WorkflowEdge) (gs : gmap string NodeGroup)
    (paused : option string) : ZStore :=
  mkStore ns es gs false None paused [] None (Some "wf_1") false 0%Z.

Definition exWorld (s : ZStore) : ZWorld :=
  mkWorld s [] [] ∅ 0.

(** A service that always succeeds, a clock, and a user who never stops. *)
Definition exEnv : ZEnv :=
  mkEnv (λ _ _, ReplyJson true (Some "data:generated") None)
        (λ _ _, ReplyJson true (Some "a caption") None)
        (λ _ _ _ _, SplitImages ["data:cell-1"; "data:cell-2"])
        (λ _, Some (512, 512)%Z)
        (λ t, (1700000000000 + Z.of_nat t)%Z)
        (λ t, "id-" +:+ pretty t)
        (λ _, false).

(** The user presses stop while the first request is in flight. *)
Definition exEnvStop : ZEnv :=
  mkEnv (env_generate exEnv) (env_llm exEnv) (env_split exEnv)
        (env_decode exEnv) (env_now exEnv) (env_globalId exEnv)
        (λ t, bool_decide (t = 0)).

Definition exWorld0 : ZWorld := exWorld (exStore exNodes exEdges ∅ None).

(** The same world in the middle of a run. *)
Definition exRunningWorld : ZWorld :=
  mkWorld (mkStore exNodes exEdges ∅ true None None [] None (Some "wf_1")
             false 0%Z) [] [] ∅ 0.

(** A two-node cycle. *)
Definition exCycleNodes : list ZNode :=
  [ mkNode "annotation-1" annotation ∅ None;
    mkNode "annotation-2" annotation ∅ None ].

Definition exCycleEdges : list WorkflowEdge :=
  [ exEdge "annotation-1" "annotation-2" "image" false;
    exEdge "annotation-2" "annotation-1" "image" false ].

Definition exCycleWorld : ZWorld :=
  exWorld (exStore exCycleNodes exCycleEdges ∅ None).

(** The generate node fed by a prompt only. *)
Definition exNoImageEdges : list WorkflowEdge :=
  [ exEdge "prompt-2" "nanoBanana-3" "text" false;
    exEdge "nanoBanana-3" "output-4" "image" false ].

Definition exNoImageIdle : ZWorld :=
  exWorld (exStore exNodes exNoImageEdges ∅ None).

Definition exNoImageWorld : ZWorld :=
  mkWorld (mkStore exNodes exNoImageEdges ∅ true None None [] None
             (Some "wf_1") false 0%Z) [] [] ∅ 0.

(** An image input that holds no image, wired to the generate node. *)
Definition exEmptyStore : ZStore :=
  exStore [exOutput; exGen; exEmptyImage; exPrompt] exEdges ∅ None.

(** An image wired to the [content] handle of a style-transfer node. *)
Definition exStyle : ZNode :=
  mkNode "styleTransfer-10" styleTransfer
    {[ "prompt" := VStr ""; "status" := VStr "idle" ]} None.

Definition exContentStore : ZStore :=
  exStore [exImage; exStyle]
    [exEdge "imageInput-1" "styleTransfer-10" "content" false] ∅ None.

(** Two prompts into the same text handle. *)
Definition exTwoTextStore : ZStore :=
  exStore [exGen; exPrompt; exPromptB]
    [ exEdge "prompt-2" "nanoBanana-3" "text" false;
      exEdge "prompt-5" "nanoBanana-3" "text" false ] ∅ None.

(** The edge into the generate node carries a pause, and the run is
    paused there. *)
Definition exPauseEdges : list WorkflowEdge :=
  [ exEdge "imageInput-1" "nanoBanana-3" "image" true;
    exEdge "prompt-2" "nanoBanana-3" "text" false;
    exEdge "nanoBanana-3" "output-4" "image" false ].

Definition exLockedGroups : gmap string NodeGroup :=
  {[ "group-1" := mkGroup (Some "Group 1") (Some true) ]}.

Definition exPauseWorld : ZWorld :=
  exWorld (exStore exNodes exPauseEdges ∅ None).

Definition exPausedWorld : ZWorld :=
  exWorld (exStore exNodes exPauseEdges ∅ (Some "nanoBanana-3")).

(** The same, with the generate node in a locked group. *)
Definition exPausedLockedWorld : ZWorld :=
  exWorld (exStore [exOutput; exLockedGen; exImage; exPrompt] exPauseEdges
             exLockedGroups (Some "nanoBanana-3")).

Definition exLockedWorld : ZWorld :=
  exWorld (exStore [exOutput; exLockedGen; exImage; exPrompt] exEdges
             exLockedGroups None).

(** A configured grid split whose child image input sits in a locked
    group. *)
Definition exSplit : ZNode :=
  mkNode "splitGrid-6" splitGrid
    {[ "isConfigured" := VBool true;
       "gridRows" := VNum 1%Z;
       "gridCols" := VNum 2%Z;
       "childNodeIds" :=
         VArr [ VObj [ ("imageInput", VStr "imageInput-7");
                       ("prompt", VStr "prompt-8");
                       ("nanoBanana", VStr "nanoBanana-9") ] ] ]} None.

Definition exLockedChild : ZNode :=
  mkNode "imageInput-7" imageInput {[ "image" := VStr "data:old" ]}
    (Some "group-1").

Definition exSplitWorld : ZWorld :=
  exWorld (exStore [exImage; exSplit; exLockedChild]
             [exEdge "imageInput-1" "splitGrid-6" "image" false]
             exLockedGroups None).

(** A prompt, then the [reference] output of a grid split, into the same
    text handle: [isValidConnection] accepts both edges. *)
Definition exReferenceEdge : WorkflowEdge :=
  mkEdge "edge-splitGrid-6-nanoBanana-3" "splitGrid-6" "nanoBanana-3"
    (Some "reference") (Some "text") false.

Definition exReferenceTextStore : ZStore :=
  exStore [exGen; exPrompt; exSplit]
    [exEdge "prompt-2" "nanoBanana-3" "text" false; exReferenceEdge] ∅ None.

(** The ids of the carousel items of a node, in order. *)
Definition historyIds (node : ZNode) : list string :=
  omap (λ item, match item with
                | VObj fields =>
                    match objField fields "id" with
                    | Some (VStr i) => Some i
                    | _ => None
                    end
                | _ => None
                end) (imageHistoryOf node).

End Examples.

(** * Further concrete workflows *)

Module MoreExamples.

Import Examples.

#[local] Abbreviation ZNode := (WorkflowNode (number:=Z)).
#[local] Abbreviation ZStore := (Store (number:=Z)).
#[local] Abbreviation ZWorld := (World (number:=Z)).

(** The order the sort computes for [exNodes]. *)
Definition exOrder : list ZNode := [exImage; exPrompt; exGen; exOutput].

(** A store in the middle of a run. *)
Definition exRunning (ns : list ZNode) (es : list WorkflowEdge) : ZWorld :=
  mkWorld (mkStore ns es ∅ true None None [] None (Some "wf_1") false 0%Z)
    [] [] ∅ 0.

(** An LLM node fed by a prompt node; the prompt is blank in the second
    world. *)
Definition exLlm : ZNode :=
  mkNode "llmGenerate-11" llmGenerate
    {[ "provider" := VStr "google";
       "model" := VStr "gemini-2.5-flash";
       "status" := VStr "idle" ]} None.

Definition exBlankPrompt : ZNode :=
  mkNode "prompt-12" prompt {[ "prompt" := VStr "" ]} None.

Definition exLlmWorld : ZWorld :=
  exWorld (exStore [exLlm; exPrompt]
             [exEdge "prompt-2" "llmGenerate-11" "text" false] ∅ None).

Definition exBlankLlmWorld : ZWorld :=
  exRunning [exLlm; exBlankPrompt]
    [exEdge "prompt-12" "llmGenerate-11" "text" false].

(** A grid split with nothing connected. *)
Definition exSplitAloneWorld : ZWorld := exRunning [exSplit] [].

(** An annotation node that already holds a drawing. *)
Definition exAnnotation : ZNode :=
  mkNode "annotation-13" annotation
    {[ "sourceImage" := VNull; "outputImage" := VStr "data:drawing" ]} None.

Definition exAnnotationWorld : ZWorld :=
  exWorld (exStore [exImage; exAnnotation]
             [exEdge "imageInput-1" "annotation-13" "image" false] ∅ None).

Definition exOutputWorld : ZWorld :=
  exWorld (exStore [exImage; exOutput]
             [exEdge "imageInput-1" "output-4" "image" false] ∅ None).

(** Truthiness of the integers that stand for JS numbers. *)
Definition exTruthy (z : Z) : bool := negb (z =? 0)%Z.

(** A workflow that was never saved. *)
Definition exUnsavedWorld : ZWorld :=
  mkWorld (mkStore exNodes exEdges ∅ false None None [] None None false 0%Z)
    [] [] ∅ 0.

(** A generate node with nothing connected, holding the inputs of an
    earlier generation. *)
Definition exStoredGen : ZNode :=
  mkNode "nanoBanana-3" nanoBanana
    (<[ "inputImages" := VArr [VStr "data:kept"] ]>
       (<[ "inputPrompt" := VStr "kept prompt" ]> exGenData)) None.

Definition exStoredWorld : ZWorld := exWorld (exStore [exStoredGen] [] ∅ None).

(** A configured grid split that was never given its children: the
    [childNodeIds] field is absent. *)
Definition exBareSplit : ZNode :=
  mkNode "splitGrid-6" splitGrid
    {[ "isConfigured" := VBool true;
       "gridRows" := VNum 1%Z;
       "gridCols" := VNum 2%Z ]} None.

Definition exBareSplitWorld : ZWorld :=
  exWorld (exStore [exImage; exBareSplit]
             [exEdge "imageInput-1" "splitGrid-6" "image" false] ∅ None).

(** A workflow saved under the id [__proto__]. *)
Definition exProtoWorld : ZWorld :=
  mkWorld (mkStore exNodes exEdges ∅ false None None [] None
             (Some "__proto__") false 0%Z)
    [] [] ∅ 0.

End MoreExamples.
(** * Properties *)

Section properties.

Context {number : Type} `{!JsRuntime number}.

#[local] Abbreviation JsVal := (Val number).

#[local] Abbreviation Node := (WorkflowNode (number:=number)).
#[local] Abbreviation Edge := WorkflowEdge.
#[local] Abbreviation SState := (SortState (number:=number)).

Implicit Types (st : SState) (n : Node) (e : Edge) (nodeId : string).

(** ** The topological sort *)

Section sort.

Variable nodes : list Node.
Variable edges : list Edge.

Lemma findNode_Some nodeId n :
  findNode nodes nodeId = Some n → n ∈ nodes ∧ node_id n = nodeId.
Proof.
  unfold findNode. intros Hf.
  destruct (list_find _ nodes) as [[i x]|] eqn:E; simplify_eq/=.
  apply list_find_Some in E as (Hi & Hx & _).
  split; [by eapply list_elem_of_lookup_2 | done].
Qed.

Lemma findNode_None nodeId n :
  findNode nodes nodeId = None → n ∈ nodes → node_id n ≠ nodeId.
Proof.
  unfold findNode. intros Hf Hin.
  destruct (list_find _ nodes) as [[i x]|] eqn:E; simplify_eq/=.
  rewrite list_find_None in E. rewrite Forall_forall in E. by apply E.
Qed.

Lemma sortStep_refl st : sortStep st st.
Proof. by split. Qed.

Lemma sortStep_trans st1 st2 st3 :
  sortStep st1 st2 → sortStep st2 st3 → sortStep st1 st3.
Proof. intros [? ?] [? ?]. split; [congruence | by etrans]. Qed.

(** Visiting a list of ids one after the other, given the property of a
    single visit at this fuel. *)
Lemma visitAll_Done {A} (g : A → string) fuel :
  (∀ nodeId st st',
     visit fuel nodes edges nodeId st = Done st' → sortInv nodes edges st →
     sortInv nodes edges st' ∧ sortStep st st' ∧ nodeId ∈ visited st') →
  ∀ (l : list A) st st',
    forEachM (λ x, visit fuel nodes edges (g x)) l st = Done st' →
    sortInv nodes edges st →
    sortInv nodes edges st' ∧ sortStep st st' ∧ ∀ x, x ∈ l → g x ∈ visited st'.
Proof.
  intros IH l. induction l as [|x l IHl]; intros st st' Hrun Hinv; simpl in Hrun.
  - simplify_eq. split_and!; [done | apply sortStep_refl |].
    intros x Hx. by apply elem_of_nil in Hx.
  - destruct (visit fuel nodes edges (g x) st) as [| |st1] eqn:E; try done.
    destruct (IH _ _ _ E Hinv) as (Hinv1 & Hstep1 & Hx).
    destruct (IHl _ _ Hrun Hinv1) as (Hinv' & Hstep' & Hl).
    split_and!; [done | by eapply sortStep_trans |].
    intros y [->|Hy]%elem_of_cons; [|by apply Hl].
    destruct Hstep' as [_ Hsub]. clear -Hsub Hx. set_solver.
Qed.

Lemma visit_Done fuel : ∀ nodeId st st',
  visit fuel nodes edges nodeId st = Done st' → sortInv nodes edges st →
  sortInv nodes edges st' ∧ sortStep st st' ∧ nodeId ∈ visited st'.
Proof.
  induction fuel as [|fuel IH]; intros nodeId st st' Hrun Hinv; [done|].
  simpl in Hrun.
  destruct (decide (nodeId ∈ visited st)) as [Hv|Hv].
  { simplify_eq. split_and!; [done | apply sortStep_refl | done]. }
  destruct (decide (nodeId ∈ visiting st)) as [Hg|Hg]; [done|].
  destruct (forEachM _ _ _) as [| |st2] eqn:E; try done.
  simplify_eq.
  assert (sortInv nodes edges
            (mkSort (sorted st) (visited st) ({[nodeId]} ∪ visiting st)))
    as Hinv1.
  { destruct Hinv as (H1 & H2 & H3 & H4 & H5 & H6).
    unfold sortInv. split_and!; simpl; try done. clear -H1 Hv. set_solver. }
  destruct (visitAll_Done edge_source fuel IH _ _ _ E Hinv1)
    as (Hinv2 & [Hg2 Hsub2] & Hsrc).
  simpl in Hg2, Hsub2.
  destruct Hinv2 as (H1 & H2 & H3 & H4 & H5 & H6).
  assert (nodeId ∉ visited st2) as Hfresh.
  { clear -H1 Hg2. set_solver. }
  assert (∀ e, e ∈ edges → edge_target e = nodeId →
               edge_source e ∈ visited st2) as Hpred.
  { intros e He Ht. apply Hsrc. unfold incoming.
    by apply list_elem_of_filter. }
  assert (visiting st2 ∖ {[nodeId]} = visiting st) as Hrestore.
  { clear -Hg2 Hg. set_solver. }
  split; [unfold sortInv|split]; [split_and!; simpl| |].
  - rewrite Hrestore. clear -H1 Hg2 Hg. set_solver.
  - intros e He [Ht|Ht]%elem_of_union.
    + apply elem_of_singleton in Ht. apply elem_of_union. right. by apply Hpred.
    + apply elem_of_union. right. by apply H2.
  - intros n Hn. destruct (findNode nodes nodeId) as [node|] eqn:Ef.
    + apply elem_of_app in Hn as [Hn|Hn].
      * destruct (H3 _ Hn). split; [|done]. apply elem_of_union. by right.
      * apply list_elem_of_singleton in Hn as ->.
        destruct (findNode_Some _ _ Ef) as [_ Hid]. rewrite Hid.
        split; [|done]. apply elem_of_union. left. by apply elem_of_singleton.
    + destruct (H3 _ Hn). split; [|done]. apply elem_of_union. by right.
  - destruct (findNode nodes nodeId) as [node|] eqn:Ef; [|done].
    rewrite map_app. simpl. apply NoDup_app.
    split_and!; [done | | apply NoDup_singleton].
    intros x Hx Hx'. apply list_elem_of_singleton in Hx' as ->.
    apply list_elem_of_fmap in Hx as (n & Hn & Hin).
    destruct (findNode_Some _ _ Ef) as [_ Hid].
    destruct (H3 _ Hin) as [Hnv _]. congruence.
  - intros e i j ns nt He Hi Hj Hs Ht.
    destruct (findNode nodes nodeId) as [node|] eqn:Ef; [|by eapply H5].
    destruct (findNode_Some _ _ Ef) as [_ Hid].
    assert (∀ k n, (sorted st2 ++ [node]) !! k = Some n →
              (k < length (sorted st2) ∧ sorted st2 !! k = Some n) ∨
              (k = length (sorted st2) ∧ n = node)) as Hcases.
    { intros k n Hk. destruct (decide (k < length (sorted st2))) as [Hlt|Hge].
      - left. split; [done|]. by rewrite lookup_app_l in Hk.
      - right. rewrite lookup_app_r in Hk by lia.
        apply list_lookup_singleton_Some in Hk as [Hk ->]. split; [lia | done]. }
    destruct (Hcases _ _ Hi) as [[Hilt Hi']|[-> ->]],
             (Hcases _ _ Hj) as [[Hjlt Hj']|[-> ->]].
    + by eapply H5.
    + done.
    + exfalso. apply Hfresh.
      assert (edge_target e ∈ visited st2) as Htv.
      { rewrite <- Ht. apply H3. by eapply list_elem_of_lookup_2. }
      specialize (H2 _ He Htv). congruence.
    + exfalso. apply Hfresh.
      assert (edge_source e ∈ visited st2) as Hsv by (apply Hpred; congruence).
      congruence.
  - intros n Hn [Hv'|Hv']%elem_of_union.
    + apply elem_of_singleton in Hv'.
      destruct (findNode nodes nodeId) as [node|] eqn:Ef.
      * destruct (findNode_Some _ _ Ef) as [_ Hid].
        rewrite map_app. apply elem_of_app. right. simpl.
        apply list_elem_of_singleton. congruence.
      * exfalso. by eapply findNode_None.
    + specialize (H6 _ Hn Hv').
      destruct (findNode nodes nodeId); [|done].
      rewrite map_app. apply elem_of_app. by left.
  - split; simpl; [done|]. clear -Hsub2. set_solver.
  - simpl. apply elem_of_union. left. by apply elem_of_singleton.
Qed.

(** A failure outcome [bad] that no single visit produces under the
    precondition [pre] (a property of the id and of the [visiting] set) is
    not produced by a sequence of visits either. *)
Lemma visitAll_avoids {A} (g : A → string) fuel
    (bad : Outcome SState → Prop) (pre : string → gset string → Prop) :
  (∀ st, ¬ bad (Done st)) →
  (∀ nodeId st, sortInv nodes edges st → pre nodeId (visiting st) →
     ¬ bad (visit fuel nodes edges nodeId st)) →
  ∀ (l : list A) st, sortInv nodes edges st →
    (∀ x, x ∈ l → pre (g x) (visiting st)) →
    ¬ bad (forEachM (λ x, visit fuel nodes edges (g x)) l st).
Proof.
  intros Hdone Hone l. induction l as [|x l IHl]; intros st Hinv Hpre; simpl.
  - apply Hdone.
  - assert (pre (g x) (visiting st)) as Hx by (apply Hpre; left).
    specialize (Hone _ _ Hinv Hx).
    destruct (visit fuel nodes edges (g x) st) as [| |st1] eqn:E; try done.
    destruct (visit_Done _ _ _ _ E Hinv) as (Hinv1 & [Hg1 _] & _).
    apply IHl; [done|]. intros y Hy. rewrite Hg1. apply Hpre. by right.
Qed.

Lemma sortInv_init : sortInv nodes edges (mkSort [] ∅ ∅).
Proof.
  unfold sortInv. split_and!; simpl.
  - apply disjoint_empty_l.
  - intros e _ H. by apply not_elem_of_empty in H.
  - intros n H. by apply elem_of_nil in H.
  - apply NoDup_nil_2.
  - intros e i j ns nt _ H. by rewrite lookup_nil in H.
  - intros n _ H. by apply not_elem_of_empty in H.
Qed.

(** *** Termination: the fuel of [topoSort] is never exhausted *)

Lemma visit_fuel_suffices fuel : ∀ nodeId st,
  sortInv nodes edges st →
  nodeId ∈ idUniverse nodes edges ∧ visiting st ⊆ idUniverse nodes edges ∧
    size (idUniverse nodes edges) < fuel + size (visiting st) →
  visit fuel nodes edges nodeId st ≠ OutOfFuel.
Proof.
  induction fuel as [|fuel IH]; intros nodeId st Hinv (Hin & Hsub & Hsz).
  { apply subseteq_size in Hsub. lia. }
  simpl.
  destruct (decide (nodeId ∈ visited st)) as [Hv|Hv]; [done|].
  destruct (decide (nodeId ∈ visiting st)) as [Hg|Hg]; [done|].
  set (st1 := mkSort (sorted st) (visited st) ({[nodeId]} ∪ visiting st)).
  assert (sortInv nodes edges st1) as Hinv1.
  { destruct Hinv as (H1 & H2 & H3 & H4 & H5 & H6).
    unfold sortInv. split_and!; simpl; try done. clear -H1 Hv. set_solver. }
  pose proof (visitAll_avoids edge_source fuel (λ o, o = OutOfFuel)
    (λ i V, i ∈ idUniverse nodes edges ∧ V ⊆ idUniverse nodes edges ∧
            size (idUniverse nodes edges) < fuel + size V)) as Hall.
  cbv beta in Hall.
  specialize (Hall ltac:(done) IH (incoming edges nodeId) st1 Hinv1).
  destruct (forEachM _ (incoming edges nodeId) st1) as [| |st2] eqn:E; try done.
  exfalso. apply Hall; [|done].
  intros e He. subst st1. simpl. split_and!.
  - unfold idUniverse. apply elem_of_list_to_set, elem_of_app. right.
    apply list_elem_of_fmap. exists e. split; [done|].
    unfold incoming in He. by apply list_elem_of_filter in He as [_ ?].
  - clear -Hin Hsub. set_solver.
  - rewrite size_union by (clear -Hg; set_solver).
    rewrite size_singleton. lia.
Qed.

Lemma topoSort_total : topoSort nodes edges ≠ OutOfFuel.
Proof.
  unfold topoSort.
  pose proof (visitAll_avoids (node_id (number:=number)) (topoFuel nodes edges)
    (λ o, o = OutOfFuel)
    (λ i V, i ∈ idUniverse nodes edges ∧ V ⊆ idUniverse nodes edges ∧
            size (idUniverse nodes edges) < topoFuel nodes edges + size V))
    as Hall.
  cbv beta in Hall.
  specialize (Hall ltac:(done) (visit_fuel_suffices _) nodes _ sortInv_init).
  destruct (forEachM _ nodes _) as [| |st] eqn:E; try done.
  exfalso. apply Hall; [|done].
  intros n Hn. simpl. split_and!.
  - unfold idUniverse. apply elem_of_list_to_set, elem_of_app. left.
    apply list_elem_of_fmap. by exists n.
  - apply empty_subseteq.
  - unfold topoFuel. lia.
Qed.

(** *** On an acyclic graph the sort does not throw *)

Lemma visit_acyclic_no_throw fuel : acyclic edges → ∀ nodeId st,
  sortInv nodes edges st →
  (∀ v, v ∈ visiting st → tc (edgeRel edges) nodeId v) →
  ¬ (∃ c, visit fuel nodes edges nodeId st = Thrown c).
Proof.
  intros Hacyc. induction fuel as [|fuel IH]; intros nodeId st Hinv Hpath [c Hc];
    [done|].
  simpl in Hc.
  destruct (decide (nodeId ∈ visited st)) as [Hv|Hv]; [done|].
  destruct (decide (nodeId ∈ visiting st)) as [Hg|Hg].
  { by apply (Hacyc nodeId), Hpath. }
  set (st1 := mkSort (sorted st) (visited st) ({[nodeId]} ∪ visiting st)) in *.
  assert (sortInv nodes edges st1) as Hinv1.
  { destruct Hinv as (H1 & H2 & H3 & H4 & H5 & H6).
    unfold sortInv. split_and!; simpl; try done. clear -H1 Hv. set_solver. }
  pose proof (visitAll_avoids edge_source fuel (λ o, ∃ c, o = Thrown c)
    (λ i V, ∀ v, v ∈ V → tc (edgeRel edges) i v)) as Hall.
  cbv beta in Hall.
  specialize (Hall ltac:(by intros ? [? ?]) IH (incoming edges nodeId) st1 Hinv1).
  destruct (forEachM _ (incoming edges nodeId) st1) as [|c'|st2] eqn:E; try done.
  apply Hall; [|by eexists].
  intros e He v Hv'. subst st1. simpl in Hv'.
  unfold incoming in He. apply list_elem_of_filter in He as [Ht He].
  assert (edgeRel edges (edge_source e) nodeId) as Hedge by (by exists e).
  apply elem_of_union in Hv' as [Hv'|Hv'].
  - apply elem_of_singleton in Hv' as ->. by apply tc_once.
  - eapply tc_l; [done|]. by apply Hpath.
Qed.

Lemma topoSort_acyclic_no_throw :
  acyclic edges → ¬ (∃ c, topoSort nodes edges = Thrown c).
Proof.
  intros Hacyc [c Hc]. unfold topoSort in Hc.
  pose proof (visitAll_avoids (node_id (number:=number)) (topoFuel nodes edges)
    (λ o, ∃ c, o = Thrown c)
    (λ i V, ∀ v, v ∈ V → tc (edgeRel edges) i v)) as Hall.
  cbv beta in Hall.
  specialize (Hall ltac:(by intros ? [? ?])
    (visit_acyclic_no_throw _ Hacyc) nodes _ sortInv_init).
  destruct (forEachM _ nodes _) as [|c'|st] eqn:E; try done.
  apply Hall; [|by eexists].
  intros n _ v Hv. by apply not_elem_of_empty in Hv.
Qed.

(** *** What a successful sort returns *)

Lemma topoSort_Done order :
  topoSort nodes edges = Done order →
  respectsEdges edges order ∧
  NoDup (map node_id order) ∧
  (∀ n, n ∈ order → findNode nodes (node_id n) = Some n) ∧
  (∀ n, n ∈ nodes → node_id n ∈ map node_id order).
Proof.
  unfold topoSort. intros Hrun.
  destruct (forEachM _ nodes _) as [| |st] eqn:E; try done. simplify_eq.
  destruct (visitAll_Done (node_id (number:=number)) _ (visit_Done _) _ _ _ E sortInv_init)
    as ((H1 & H2 & H3 & H4 & H5 & H6) & _ & Hall).
  split_and!; [done | done | | ].
  - intros n Hn. by apply H3.
  - intros n Hn. apply H6; [done|]. by apply Hall.
Qed.

(** *** Indices in an order without repeated ids *)

Lemma unique_id_index (l : list Node) i j a b :
  NoDup (map node_id l) → l !! i = Some a → l !! j = Some b →
  node_id a = node_id b → i = j.
Proof.
  intros Hnd Hi Hj Hid.
  eapply (NoDup_lookup _ _ _ (node_id a) Hnd).
  - by rewrite list_lookup_fmap, Hi.
  - by rewrite list_lookup_fmap, Hj, Hid.
Qed.

Lemma unique_id_elem (l : list Node) a b :
  NoDup (map node_id l) → a ∈ l → b ∈ l → node_id a = node_id b → a = b.
Proof.
  intros Hnd [i Hi]%list_elem_of_lookup [j Hj]%list_elem_of_lookup Hid.
  assert (i = j) as -> by (by eapply unique_id_index). congruence.
Qed.

Lemma findIndex_unique (l : list Node) i a :
  NoDup (map node_id l) → l !! i = Some a → findIndex l (node_id a) = Some i.
Proof.
  intros Hnd Hi. unfold findIndex.
  assert (list_find (λ n, node_id n = node_id a) l = Some (i, a)) as ->; [|done].
  apply list_find_Some. split_and!; [done | done |].
  intros j y Hj Hlt Hy.
  assert (j = i) by (by eapply unique_id_index). lia.
Qed.

Lemma findIndex_Some (l : list Node) nodeId i :
  findIndex l nodeId = Some i → ∃ a, l !! i = Some a ∧ node_id a = nodeId.
Proof.
  unfold findIndex. intros Hf.
  destruct (list_find _ l) as [[k x]|] eqn:E; simplify_eq/=.
  apply list_find_Some in E as (Hi & Hx & _). eauto.
Qed.

Lemma elem_of_ids (l : list Node) nodeId :
  nodeId ∈ map node_id l → ∃ i a, l !! i = Some a ∧ node_id a = nodeId.
Proof.
  intros (a & -> & [i Hi]%list_elem_of_lookup)%list_elem_of_fmap. eauto.
Qed.

(** Along a path of edges between nodes, positions in a successful order
    strictly increase. *)
Lemma order_increases_along_paths order x y :
  topoSort nodes edges = Done order →
  edgesClosed nodes edges →
  tc (edgeRel edges) x y →
  ∃ i j a b, order !! i = Some a ∧ node_id a = x ∧
             order !! j = Some b ∧ node_id b = y ∧ i < j.
Proof.
  intros Hrun Hclosed Hpath.
  destruct (topoSort_Done _ Hrun) as (Hresp & Hnd & Hfound & Hcover).
  assert (∀ nodeId, nodeId ∈ map node_id nodes →
            ∃ i a, order !! i = Some a ∧ node_id a = nodeId) as Hpos.
  { intros nodeId (n & -> & Hn)%list_elem_of_fmap.
    apply elem_of_ids. by apply Hcover. }
  assert (∀ s t, edgeRel edges s t →
            ∃ i j a b, order !! i = Some a ∧ node_id a = s ∧
                       order !! j = Some b ∧ node_id b = t ∧ i < j) as Hedge.
  { intros s t (e & He & <- & <-).
    destruct (Hclosed _ He) as [Hs Ht].
    destruct (Hpos _ Hs) as (i & a & Hi & Ha), (Hpos _ Ht) as (j & b & Hj & Hb).
    exists i, j, a, b. split_and!; try done. by eapply Hresp. }
  induction Hpath as [s t Hst|s t u Hst Htu IH]; [by apply Hedge|].
  destruct (Hedge _ _ Hst) as (i & j & a & b & Hi & Ha & Hj & Hb & Hij).
  destruct IH as (j' & k & b' & c & Hj' & Hb' & Hk & Hc & Hjk).
  assert (j = j') as <- by (eapply unique_id_index; [done..|congruence]).
  exists i, k, a, c. split_and!; try done. lia.
Qed.

(** A cycle among the nodes of the graph makes the sort throw. *)
Lemma topoSort_cycle_throws :
  edgesClosed nodes edges → (∃ x, tc (edgeRel edges) x x) →
  ∃ c, topoSort nodes edges = Thrown c.
Proof.
  intros Hclosed [x Hx].
  destruct (topoSort nodes edges) as [|c|order] eqn:E.
  - by destruct topoSort_total.
  - by exists c.
  - exfalso.
    destruct (order_increases_along_paths _ _ _ E Hclosed Hx)
      as (i & j & a & b & Hi & Ha & Hj & Hb & Hij).
    destruct (topoSort_Done _ E) as (_ & Hnd & _).
    assert (i = j) by (eapply unique_id_index; [done..|congruence]). lia.
Qed.

(** C1. For every acyclic graph whose node ids are unique, the depth-first
    topological sort of [executeWorkflow] returns an order in which every
    node of the graph appears exactly once and in which, for every edge
    [s -> t] between nodes of the graph, [s] has a strictly smaller index
    than [t]. *)
Theorem topoSort_acyclic_order :
  acyclic edges → uniqueIds nodes →
  ∃ order, topoSort nodes edges = Done order ∧
    NoDup order ∧ order ≡ₚ nodes ∧
    ∀ e, e ∈ edges →
      edge_source e ∈ map node_id nodes → edge_target e ∈ map node_id nodes →
      ∃ i j, findIndex order (edge_source e) = Some i ∧
             findIndex order (edge_target e) = Some j ∧ i < j.
Proof.
  intros Hacyc Huniq.
  destruct (topoSort nodes edges) as [|c|order] eqn:E.
  { by destruct topoSort_total. }
  { destruct (topoSort_acyclic_no_throw Hacyc). by exists c. }
  exists order. split; [done|].
  destruct (topoSort_Done _ E) as (Hresp & Hnd & Hfound & Hcover).
  assert (NoDup order) as Hnd' by (by eapply NoDup_fmap_1).
  assert (∀ n, n ∈ order → n ∈ nodes) as Hsub.
  { intros n Hn. by destruct (findNode_Some _ _ (Hfound _ Hn)). }
  split_and!; [done | |].
  - apply NoDup_Permutation; [done | by eapply NoDup_fmap_1 |].
    intros n. split; [by apply Hsub|]. intros Hn.
    destruct (elem_of_ids _ _ (Hcover _ Hn)) as (i & a & Hi & Ha).
    assert (a ∈ order) as Ha' by (by eapply list_elem_of_lookup_2).
    by rewrite <- (unique_id_elem nodes a n Huniq (Hsub _ Ha') Hn Ha).
  - intros e He Hs Ht.
    apply list_elem_of_fmap in Hs as (ns & Hs & Hns).
    apply list_elem_of_fmap in Ht as (nt & Ht & Hnt).
    destruct (elem_of_ids _ _ (Hcover _ Hns)) as (i & a & Hi & Ha).
    destruct (elem_of_ids _ _ (Hcover _ Hnt)) as (j & b & Hj & Hb).
    exists i, j. split_and!.
    + rewrite Hs, <- Ha. by apply findIndex_unique.
    + rewrite Ht, <- Hb. by apply findIndex_unique.
    + eapply Hresp; [done..|congruence|congruence].
Qed.

(** *** Criteria to establish the hypotheses on a given graph *)

Lemma acyclic_by_rank (rank : string → nat) :
  Forall (λ e, rank (edge_source e) < rank (edge_target e)) edges →
  acyclic edges.
Proof.
  intros Hall x Hx. rewrite Forall_forall in Hall.
  assert (∀ a b, tc (edgeRel edges) a b → rank a < rank b) as Hmono.
  { induction 1 as [a b (e & He & <- & <-)|a b c (e & He & <- & <-) _ IH].
    - by apply Hall.
    - specialize (Hall _ He). lia. }
  specialize (Hmono _ _ Hx). lia.
Qed.

Lemma edgesClosed_Forall :
  Forall (λ e, edge_source e ∈ map node_id nodes ∧
               edge_target e ∈ map node_id nodes) edges →
  edgesClosed nodes edges.
Proof. intros Hall e He. rewrite Forall_forall in Hall. by apply Hall. Qed.

End sort.

(** ** How the primitive operations act on the parts of the world *)

Section frame.

Implicit Types (w : World (number:=number)) (s : Store (number:=number))
  (env : Env (number:=number)) (patch : gmap string JsVal).

Lemma executedIds_app evs1 evs2 :
  executedIds (evs1 ++ evs2) = executedIds evs1 ++ executedIds evs2.
Proof. apply omap_app. Qed.

Lemma console_awaitReply env w : console (awaitReply env w) = console w.
Proof. unfold awaitReply. by destruct (env_stop env (tick w)). Qed.

Lemma calls_awaitReply env w : calls (awaitReply env w) = calls w.
Proof. unfold awaitReply. by destruct (env_stop env (tick w)). Qed.

Lemma nodes_awaitReply env w :
  nodes (store (awaitReply env w)) = nodes (store w).
Proof. unfold awaitReply. by destruct (env_stop env (tick w)). Qed.

Lemma cost_awaitReply env w :
  incurredCost (store (awaitReply env w)) = incurredCost (store w).
Proof. unfold awaitReply. by destruct (env_stop env (tick w)). Qed.

Lemma console_persistCost w : console (persistCost w) = console w.
Proof. unfold persistCost. destruct (truthy _); [|done]. by destruct (assignsOwnKey _ _). Qed.


Lemma store_persistCost w : store (persistCost w) = store w.
Proof. unfold persistCost. destruct (truthy _); [|done]. by destruct (assignsOwnKey _ _). Qed.

Lemma console_generateSuccess env node text image w :
  console (generateSuccess env node text image w) = console w.
Proof.
  unfold generateSuccess, addIncurredCost. cbv zeta.
  destruct (truthy _); simpl; by rewrite console_persistCost.
Qed.

Lemma store_generateSuccess env node text image w :
  store (generateSuccess env node text image w) =
  addCost (calculateGenerationCost (field (node_data node) "model")
             (field (node_data node) "resolution"))
    (updateNodeData (node_id node)
       {[ "outputImage" := VStr image;
          "status" := status_complete;
          "error" := VNull;
          "imageHistory" :=
            VArr (carouselItem (node_data node) (env_now env (tick w)) text
                  :: arrField (node_data node) "imageHistory");
          "selectedHistoryIndex" := VNum num_zero ]}
       (addToGlobalHistory
          (globalItem env (tick w) (node_data node) image
             (env_now env (tick w)) text) (store w))).
Proof.
  unfold generateSuccess, addIncurredCost. cbv zeta.
  destruct (truthy _); simpl; by rewrite store_persistCost.
Qed.

(** *** Nodes that an update does not name are kept *)

Lemma keepsNode_refl m (l : list Node) : keepsNode m l l.
Proof. by split. Qed.

Lemma keepsNode_trans m (l1 l2 l3 : list Node) :
  keepsNode m l1 l2 → keepsNode m l2 l3 → keepsNode m l1 l3.
Proof.
  intros [Hid1 H1] [Hid2 H2]. split; [congruence|].
  intros i n Hi Hn. apply H2; [|done]. by apply H1.
Qed.

Lemma mergeData_id nodeId patch n : node_id (mergeData nodeId patch n) = node_id n.
Proof. unfold mergeData. by destruct (decide _). Qed.

Lemma keepsNode_merge m nodeId patch (l : list Node) :
  nodeId ≠ m → keepsNode m l (map (mergeData nodeId patch) l).
Proof.
  intros Hne. split.
  - rewrite map_map. apply map_ext. intros n. apply mergeData_id.
  - intros i n Hi Hn. rewrite (list_lookup_fmap (mergeData nodeId patch)), Hi. simpl.
    unfold mergeData. destruct (decide _); [congruence | done].
Qed.

Lemma keepsNode_map m nodeId patch (l l' : list Node) :
  nodeId ≠ m → keepsNode m l l' →
  keepsNode m l (map (mergeData nodeId patch) l').
Proof.
  intros Hne Hk. eapply keepsNode_trans; [done|].
  by apply keepsNode_merge.
Qed.

Lemma keepsNode_update m nodeId patch s (l : list Node) :
  nodeId ≠ m → keepsNode m l (nodes s) →
  keepsNode m l (nodes (updateNodeData nodeId patch s)).
Proof.
  intros Hne Hk. eapply keepsNode_trans; [done|].
  by apply keepsNode_merge.
Qed.

Lemma keepsNode_populateChild m env gridCols splitImages index childSet s :
  m ∉ omap childImageInput [childSet] →
  keepsNode m (nodes s)
    (nodes (populateChild env gridCols splitImages index childSet s)).
Proof.
  intros Hm. unfold populateChild.
  destruct (truthy _); [|apply keepsNode_refl].
  destruct (env_decode env _) as [[width height]|]; [|apply keepsNode_refl].
  destruct (childImageInput childSet) as [child|] eqn:E; simpl.
  - apply keepsNode_merge. intros ->. apply Hm. simpl. rewrite E. by left.
  - apply keepsNode_refl.
Qed.

Lemma keepsNode_populateChildren m env gridCols splitImages children :
  ∀ index s, m ∉ omap childImageInput children →
  keepsNode m (nodes s)
    (nodes (populateChildren env gridCols splitImages index children s)).
Proof.
  induction children as [|c children IH]; intros index s Hm; simpl.
  - apply keepsNode_refl.
  - eapply keepsNode_trans; [|apply IH].
    + apply keepsNode_populateChild. simpl.
      simpl in Hm. destruct (childImageInput c); [|by intros ?%elem_of_nil].
      intros ->%list_elem_of_singleton. apply Hm. by left.
    + simpl in Hm. destruct (childImageInput c); [|done].
      intros ?. apply Hm. by right.
Qed.

Lemma arrayField_arrField (d : gmap string JsVal) k l :
  arrayField d k = Some l → arrField d k = l.
Proof.
  unfold arrayField, arrField, field.
  destruct (d !! k) as [[]|]; simpl; intros; by simplify_eq.
Qed.

Lemma splitChildren_array node (l : list JsVal) :
  arrayField (node_data node) "childNodeIds" = Some l →
  splitChildren node = omap childImageInput l.
Proof. intros H. unfold splitChildren. by rewrite (arrayField_arrField _ _ _ H). Qed.

(** *** What the execution of one node can and cannot do *)

Ltac unfold_executors :=
  unfold executeNode, executeAnnotation, executeNanoBanana,
    executeLlmGenerate, executeSplitGrid, executeOutput in *.

Lemma executeNode_console env node w :
  ∃ evs, console (resultWorld (executeNode env node w)) = console w ++ evs ∧
         executedIds evs = [].
Proof.
  unfold_executors.
  repeat (case_match; simpl);
    rewrite ?console_generateSuccess, ?console_awaitReply; simpl;
    first [ by exists []; rewrite app_nil_r
          | by eexists [_]
          | rewrite <- ?app_assoc; by eexists ].
Qed.

Lemma executeNode_failed env node w w' :
  executeNode env node w = NodeFailed w' →
  isRunning (store w') = false ∧ currentNodeId (store w') = None.
Proof.
  unfold_executors. intros Hrun.
  repeat (case_match; simpl in * ); by simplify_eq.
Qed.

Lemma executeNode_keeps m env node w :
  m ∉ touches node →
  keepsNode m (nodes (store w))
    (nodes (store (resultWorld (executeNode env node w)))).
Proof.
  unfold touches. intros Hm.
  assert (node_id node ≠ m) as Hne by (intros <-; apply Hm; by left).
  unfold_executors.
  destruct (node_type node); try apply keepsNode_refl;
    repeat (case_match; simpl);
    rewrite ?store_generateSuccess; simpl; repeat (case_match; simpl);
    repeat (first [apply keepsNode_update | apply keepsNode_map]; [done|]);
    try (eapply keepsNode_trans;
         [|apply keepsNode_populateChildren; intros ?; apply Hm; right;
           by erewrite splitChildren_array by eassumption]);
    rewrite ?nodes_awaitReply; simpl; repeat (case_match; simpl);
    repeat (first [apply keepsNode_update | apply keepsNode_map]; [done|]);
    apply keepsNode_refl.
Qed.

End frame.

(** ** The run loop *)

Section loop.

Implicit Types (w : World (number:=number)) (env : Env (number:=number))
  (node : Node) (rest : list Node).

Variable env : Env (number:=number).
Variable snapEdges : list Edge.
Variable snapGroups : gmap string NodeGroup.
Variable isResuming : bool.
Variable startFromNodeId : option string.

#[local] Abbreviation loop :=
  (execLoop env snapEdges snapGroups isResuming startFromNodeId).

#[local] Abbreviation pauses node :=
  (pausesAt snapEdges isResuming startFromNodeId node).

Lemma execLoop_stopped rest w :
  isRunning (store w) = false → loop rest w = Finished w.
Proof. intros Hstop. destruct rest; simpl; [done|]. by rewrite Hstop. Qed.

Lemma execLoop_app pre post : ∀ w,
  loop (pre ++ post) w =
  match loop pre w with
  | Finished w' => loop post w'
  | Returned path w' => Returned path w'
  end.
Proof.
  induction pre as [|node pre IH]; intros w; [done|]. simpl.
  destruct (isRunning (store w)) eqn:Hrun; simpl.
  - destruct (pauses node); [done|].
    destruct (inLockedGroup snapGroups node); [apply IH|].
    destruct (executeNode env node _); [apply IH | done].
  - symmetry. by apply execLoop_stopped.
Qed.

Lemma execLoop_Returned rest : ∀ w path w',
  loop rest w = Returned path w' →
  isRunning (store w') = false ∧ currentNodeId (store w') = None ∧
  (path = ExitPaused ∨ path = ExitNodeError).
Proof.
  induction rest as [|node rest IH]; intros w path w' Hrun; [done|].
  simpl in Hrun.
  destruct (isRunning (store w)); simpl in Hrun; [|done].
  destruct (pauses node).
  { simplify_eq. split_and!; [done | done | by left]. }
  destruct (inLockedGroup snapGroups node); [by eapply IH|].
  destruct (executeNode env node _) as [w2|w2] eqn:E; [by eapply IH|].
  simplify_eq. destruct (executeNode_failed _ _ _ _ E).
  split_and!; [done | done | by right].
Qed.

(** The log lines of the loop: every node it reports as executed is one
    that neither paused the run nor sits in a locked group. *)
Lemma execLoop_console rest : ∀ w,
  ∃ evs, console (worldOf (loop rest w)) = console w ++ evs ∧
    ∀ i, i ∈ executedIds evs →
      ∃ node, node ∈ rest ∧ node_id node = i ∧
              pauses node = false ∧ inLockedGroup snapGroups node = false.
Proof.
  induction rest as [|node rest IH]; intros w; simpl.
  { exists []. rewrite app_nil_r. split; [done|]. by intros i ?%elem_of_nil. }
  destruct (isRunning (store w)); simpl.
  2:{ exists []. rewrite app_nil_r. split; [done|]. by intros i ?%elem_of_nil. }
  destruct (pauses node) eqn:Hp.
  { exists [LogPaused (node_id node)]. split; [done|].
    by intros i ?%elem_of_nil. }
  destruct (inLockedGroup snapGroups node) eqn:Hl.
  { destruct (IH (logEvent (LogSkipLocked (node_id node)) w))
      as (evs & Hevs & Hex).
    exists (LogSkipLocked (node_id node) :: evs). split.
    - rewrite Hevs. simpl. by rewrite <- app_assoc.
    - intros i Hi. destruct (Hex i Hi) as (n & Hn & ?).
      exists n. split; [by right | done]. }
  set (w1 := enterNode node w).
  destruct (executeNode_console env node w1) as (evs1 & Hevs1 & Hq1).
  assert (∃ evs, console (worldOf
            match executeNode env node w1 with
            | NodeDone w2 => loop rest w2
            | NodeFailed w2 => Returned ExitNodeError w2
            end) = console w1 ++ evs ∧
            ∀ i, i ∈ executedIds evs →
              ∃ n, n ∈ rest ∧ node_id n = i ∧ pauses n = false ∧
                   inLockedGroup snapGroups n = false) as (evs & Hevs & Hex).
  { destruct (executeNode env node w1) as [w2|w2]; simpl in *.
    - destruct (IH w2) as (evs2 & Hevs2 & Hex2).
      exists (evs1 ++ evs2). split.
      + by rewrite Hevs2, Hevs1, <- app_assoc.
      + intros i Hi. unfold executedIds in Hi. rewrite omap_app in Hi.
        fold (executedIds evs1) in Hi. rewrite Hq1 in Hi. by apply Hex2.
    - exists evs1. split; [done|]. rewrite Hq1. by intros i ?%elem_of_nil. }
  exists (LogExecuting (node_id node) (node_type node) :: evs). split.
  - rewrite Hevs. subst w1. unfold enterNode. simpl. by rewrite <- app_assoc.
  - intros i [->|Hi]%elem_of_cons.
    + exists node. split_and!; [by left | done..].
    + destruct (Hex i Hi) as (n & Hn & ?). exists n. split; [by right | done].
Qed.

(** A node that every unlocked node of the order leaves alone is kept by
    the loop. *)
Lemma execLoop_keeps m rest : ∀ w,
  (∀ node, node ∈ rest → inLockedGroup snapGroups node = false →
     m ∉ touches node) →
  keepsNode m (nodes (store w)) (nodes (store (worldOf (loop rest w)))).
Proof.
  induction rest as [|node rest IH]; intros w Hrest; simpl.
  { apply keepsNode_refl. }
  destruct (isRunning (store w)); simpl; [|apply keepsNode_refl].
  destruct (pauses node); [apply keepsNode_refl|].
  assert (∀ n, n ∈ rest → inLockedGroup snapGroups n = false → m ∉ touches n)
    as Hrest' by (intros n ?; apply Hrest; by right).
  destruct (inLockedGroup snapGroups node) eqn:Hl.
  { by apply (IH (logEvent _ w)). }
  set (w1 := enterNode node w).
  assert (keepsNode m (nodes (store w))
            (nodes (store (resultWorld (executeNode env node w1))))) as Hk.
  { apply (executeNode_keeps m env node w1). apply Hrest; [by left | done]. }
  destruct (executeNode env node w1) as [w2|w2]; simpl in *; [|done].
  eapply keepsNode_trans; [done|]. by apply IH.
Qed.

End loop.


(** ** The input resolver *)

Section inputs.

Implicit Types (s : Store (number:=number)) (acc : list string * option string).

Lemma collectInput_images (allNodes : list Node) acc e :
  fst (collectInput allNodes acc e) =
  fst acc ++
  (if isImageHandle (edge_targetHandle e)
   then option_list (offeredImage allNodes e) else []).
Proof.
  unfold collectInput, offeredImage.
  destruct (findNode allNodes (edge_source e)) as [src|]; simpl.
  - destruct (isImageHandle _); [|by rewrite app_nil_r].
    destruct (sourceImageOf src); simpl; [done | by rewrite app_nil_r].
  - destruct (isImageHandle _); by rewrite app_nil_r.
Qed.

Lemma foldl_collectInput_images (allNodes : list Node) (l : list Edge) : ∀ acc,
  fst (foldl (collectInput allNodes) acc l) =
  fst acc ++
  omap (offeredImage allNodes)
    (filter (λ e, isImageHandle (edge_targetHandle e) = true) l).
Proof.
  induction l as [|e l IH]; intros acc; simpl.
  { by rewrite app_nil_r. }
  rewrite IH, collectInput_images, <- app_assoc. f_equal.
  rewrite filter_cons.
  destruct (isImageHandle (edge_targetHandle e)) eqn:Eh.
  - rewrite decide_True by done. simpl.
    by destruct (offeredImage allNodes e).
  - by rewrite decide_False by done.
Qed.

(** A text-handle edge whose source is missing, or is of a kind with no
    text output, leaves the text as it is; so does an edge into another
    handle. *)
Lemma collectInput_skipped (allNodes : list Node) acc e :
  (edge_targetHandle e = Some "text" →
   ∀ src, findNode allNodes (edge_source e) = Some src →
          node_type src ≠ prompt ∧ node_type src ≠ llmGenerate) →
  snd (collectInput allNodes acc e) = snd acc.
Proof.
  intros Hskip. unfold collectInput.
  destruct (findNode allNodes (edge_source e)) as [src|]; simpl; [|done].
  unfold isTextHandle. destruct (bool_decide _) eqn:Hh; [|done].
  apply bool_decide_eq_true in Hh.
  destruct (Hskip Hh src eq_refl) as [Hp Hl].
  unfold sourceTextOf. by destruct (node_type src).
Qed.

Lemma foldl_collectInput_skipped (allNodes : list Node) (l : list Edge) : ∀ acc,
  Forall (λ e, edge_targetHandle e = Some "text" →
               ∀ src, findNode allNodes (edge_source e) = Some src →
                      node_type src ≠ prompt ∧ node_type src ≠ llmGenerate) l →
  snd (foldl (collectInput allNodes) acc l) = snd acc.
Proof.
  induction l as [|e l IH]; intros acc Hl; simpl; [done|].
  apply Forall_cons in Hl as [He Hl].
  rewrite IH by done. by apply collectInput_skipped.
Qed.

Lemma omap_length_le {A B} (f : A → option B) (l : list A) :
  length (omap f l) ≤ length l.
Proof.
  induction l as [|x l IH]; [done|].
  change (omap f (x :: l))
    with (match f x with Some y => y :: omap f l | None => omap f l end).
  destruct (f x); simpl; lia.
Qed.

Lemma omap_length_all {A B} (f : A → option B) (l : list A) :
  Forall (λ x, is_Some (f x)) l → length (omap f l) = length l.
Proof.
  induction 1 as [|x l [y Hy] _ IH]; [done|].
  change (omap f (x :: l))
    with (match f x with Some y => y :: omap f l | None => omap f l end).
  rewrite Hy. simpl. by rewrite IH.
Qed.

(** C4, as the code has it. The resolver returns, in edge-array order, the
    images offered by the incoming edges that target the plain image handle
    (["image"], or no handle): one for each such edge whose source exists,
    is an image input, an annotation or a generate node, and holds an
    image. With [N] such edges the list therefore has at most [N] elements,
    and exactly [N] when every one of these edges offers an image. *)
Theorem getConnectedInputs_images s nodeId :
  fst (getConnectedInputs s nodeId) =
    omap (offeredImage (nodes s)) (imageEdges (edges s) nodeId) ∧
  length (fst (getConnectedInputs s nodeId)) ≤
    length (imageEdges (edges s) nodeId) ∧
  (Forall (λ e, is_Some (offeredImage (nodes s) e))
     (imageEdges (edges s) nodeId) →
   length (fst (getConnectedInputs s nodeId)) =
     length (imageEdges (edges s) nodeId)).
Proof.
  assert (fst (getConnectedInputs s nodeId) =
            omap (offeredImage (nodes s)) (imageEdges (edges s) nodeId)) as Heq.
  { unfold getConnectedInputs, imageEdges.
    by rewrite foldl_collectInput_images. }
  split_and!; [done | |].
  - rewrite Heq. apply omap_length_le.
  - intros Hall. rewrite Heq. by apply omap_length_all.
Qed.

(** C5. The resolved text of a node is the text output of the source of
    the last incoming edge that supplies one: an edge that targets the
    text handle and whose source is a prompt node (its [prompt] field) or
    a text-generate node (its [outputText] field) of the graph. Whatever
    the edges before it supplied is discarded. An incoming text-handle
    edge whose source is missing, or is a node of another kind, is
    skipped: after the supplying edge it changes nothing, and when every
    incoming edge is skipped, or targets another handle, the resolved text
    is [null]. *)
Theorem getConnectedInputs_last_text_wins s nodeId :
  let skipped (e : Edge) :=
    edge_targetHandle e = Some "text" →
    ∀ src, findNode (nodes s) (edge_source e) = Some src →
           node_type src ≠ prompt ∧ node_type src ≠ llmGenerate in
  (∀ pre e post src,
     incoming (edges s) nodeId = pre ++ e :: post →
     edge_targetHandle e = Some "text" →
     findNode (nodes s) (edge_source e) = Some src →
     node_type src = prompt ∨ node_type src = llmGenerate →
     Forall skipped post →
     snd (getConnectedInputs s nodeId) = textOutputOf src ∧
     (node_type src = prompt →
      snd (getConnectedInputs s nodeId) = strField (node_data src) "prompt") ∧
     (node_type src = llmGenerate →
      snd (getConnectedInputs s nodeId) =
        strField (node_data src) "outputText")) ∧
  (Forall skipped (incoming (edges s) nodeId) →
   snd (getConnectedInputs s nodeId) = None).
Proof.
  cbv zeta. split.
  - intros pre e post src Hin Hh Hsrc Hty Hpost.
    assert (snd (getConnectedInputs s nodeId) = textOutputOf src) as Heq.
    { unfold getConnectedInputs. rewrite Hin, foldl_app. simpl.
      rewrite foldl_collectInput_skipped by done.
      unfold collectInput, isTextHandle. rewrite Hsrc, Hh.
      rewrite bool_decide_eq_true_2 by done. simpl.
      unfold sourceTextOf, textOutputOf. by destruct Hty as [-> | ->]. }
    rewrite Heq. unfold textOutputOf.
    split_and!; [done| |]; by intros ->.
  - intros Hall. unfold getConnectedInputs.
    by rewrite foldl_collectInput_skipped.
Qed.

End inputs.

(** ** Single iterations of the loop *)

Section iterations.

Implicit Types (w : World (number:=number)) (s : Store (number:=number))
  (node : Node) (rest : list Node).

Variable env : Env (number:=number).
Variable snapEdges : list Edge.
Variable snapGroups : gmap string NodeGroup.
Variable isResuming : bool.
Variable startFromNodeId : option string.

#[local] Abbreviation loop :=
  (execLoop env snapEdges snapGroups isResuming startFromNodeId).

#[local] Abbreviation pauses node :=
  (pausesAt snapEdges isResuming startFromNodeId node).

Lemma eventsSince_app w w' evs :
  console w' = console w ++ evs → eventsSince w w' = evs.
Proof. unfold eventsSince. intros ->. by rewrite drop_app_length. Qed.

Lemma callsSince_app w w' cs :
  calls w' = calls w ++ cs → callsSince w w' = cs.
Proof. unfold callsSince. intros ->. by rewrite drop_app_length. Qed.

Lemma getConnectedInputs_ext s s' nodeId :
  nodes s' = nodes s → edges s' = edges s →
  getConnectedInputs s' nodeId = getConnectedInputs s nodeId.
Proof. unfold getConnectedInputs. by intros -> ->. Qed.

Lemma execLoop_executes node rest w :
  isRunning (store w) = true → pauses node = false →
  inLockedGroup snapGroups node = false →
  loop (node :: rest) w =
  match executeNode env node (enterNode node w) with
  | NodeDone w2 => loop rest w2
  | NodeFailed w2 => Returned ExitNodeError w2
  end.
Proof. intros Hrun Hp Hl. simpl. by rewrite Hrun, Hp, Hl. Qed.

Lemma merged_lookup (l : list Node) nodeId patch n k v :
  n ∈ map (mergeData nodeId patch) l → node_id n = nodeId →
  patch !! k = Some v → node_data n !! k = Some v.
Proof.
  intros (n0 & -> & Hn0)%list_elem_of_fmap Hid Hk.
  rewrite mergeData_id in Hid. unfold mergeData.
  rewrite decide_True by done. simpl. by apply lookup_union_Some_l.
Qed.

Lemma executeNanoBanana_missing node w images text :
  getConnectedInputs (store w) (node_id node) = (images, text) →
  images = [] ∨ text = None →
  executeNanoBanana env node w =
  NodeFailed (failNode (node_id node) "Missing image or text input"
                (logEvent (LogNodeError (node_id node)) w)).
Proof.
  intros Hin Hmiss. unfold executeNanoBanana. rewrite Hin.
  destruct Hmiss as [-> | ->]; [done|]. by destruct images.
Qed.

(** C3. When the loop executes an image-generate node whose resolved
    inputs have an empty image list or a null text, the node gets status
    ["error"] with the message ["Missing image or text input"], the run
    returns at once (no later node of the order is executed, the running
    flag is cleared), and no request is sent. *)
Theorem nanoBanana_missing_input_halts node rest w images text :
  node_type node = nanoBanana →
  isRunning (store w) = true → pauses node = false →
  inLockedGroup snapGroups node = false →
  getConnectedInputs (store w) (node_id node) = (images, text) →
  images = [] ∨ text = None →
  ∃ w', loop (node :: rest) w = Returned ExitNodeError w' ∧
    nodes (store w') =
      map (mergeData (node_id node)
             {[ "status" := VStr "error";
                "error" := VStr "Missing image or text input" ]})
        (nodes (store w)) ∧
    (∀ n, n ∈ nodes (store w') → node_id n = node_id node →
       node_data n !! "status" = Some (VStr "error") ∧
       node_data n !! "error" = Some (VStr "Missing image or text input")) ∧
    executedIds (eventsSince w w') = [node_id node] ∧
    calls w' = calls w ∧
    isRunning (store w') = false.
Proof.
  intros Hty Hrun Hp Hl Hin Hmiss.
  rewrite execLoop_executes by done.
  unfold executeNode. rewrite Hty.
  rewrite (executeNanoBanana_missing _ _ images text);
    [|by rewrite (getConnectedInputs_ext (store w))|done].
  eexists. split; [done|].
  split_and!; try done.
  - intros n Hn Hid.
    pose proof (merged_lookup (nodes (store w)) (node_id node)
                  {[ "status" := VStr "error";
                     "error" := VStr "Missing image or text input" ]} n) as Hm.
    split; (apply Hm; [exact Hn | exact Hid |]).
    + apply lookup_insert_eq.
    + rewrite lookup_insert_ne by done. apply lookup_singleton_eq.
  - erewrite eventsSince_app; [|simpl; by rewrite <- app_assoc]. done.
Qed.

(** C9. Once [stopWorkflow] has run between two nodes (after the loop went
    through [pre], before it reaches [post]), no node of [post] is executed
    and no node changes: the loop ends at its next check of the running
    flag and the run completes with the nodes as they were, having
    executed exactly what it had executed before the stop. The flag is only
    read at the top of an iteration: a node whose execution ends with the
    flag cleared (a stop that arrived while its request was in flight)
    keeps its whole result, and only the nodes after it are dropped. *)
Theorem stop_between_nodes pre post w w1 :
  loop pre w = Finished w1 →
  let ws := onStore stopWorkflow w1 in
  let w' := finishRun LogCompleted ws in
  loop post ws = Finished ws ∧
  nodes (store w') = nodes (store w1) ∧
  executedIds (eventsSince w1 w') = [] ∧
  executedIds (eventsSince w w') = executedIds (eventsSince w w1) ∧
  callsSince w1 w' = [CallLogs] ∧
  (∀ node rest w0,
     isRunning (store w0) = true → pauses node = false →
     inLockedGroup snapGroups node = false →
     isRunning (store (resultWorld (executeNode env node (enterNode node w0))))
       = false →
     loop (node :: rest) w0 =
     match executeNode env node (enterNode node w0) with
     | NodeDone w2 => Finished w2
     | NodeFailed w2 => Returned ExitNodeError w2
     end).
Proof.
  intros Hpre ws w'. split_and!.
  - by apply execLoop_stopped.
  - done.
  - by rewrite (eventsSince_app _ _ [LogCompleted]).
  - destruct (execLoop_console env snapEdges snapGroups isResuming
                startFromNodeId pre w) as (evs & Hevs & _).
    rewrite Hpre in Hevs. simpl in Hevs.
    rewrite (eventsSince_app w w1 evs) by done.
    rewrite (eventsSince_app w w' (evs ++ [LogCompleted])).
    + rewrite executedIds_app. simpl. by rewrite app_nil_r.
    + subst w' ws. simpl. by rewrite Hevs, <- app_assoc.
  - by rewrite (callsSince_app _ _ [CallLogs]).
  - intros node rest w0 Hrun Hp Hl Hstop.
    rewrite execLoop_executes by done.
    destruct (executeNode env node _) as [w2|w2]; [|done].
    by apply execLoop_stopped.
Qed.

Lemma execLoop_pauses node rest w :
  isRunning (store w) = true → pauses node = true →
  loop (node :: rest) w = Returned ExitPaused (pauseAt (node_id node) w).
Proof. intros Hrun Hp. simpl. by rewrite Hrun, Hp. Qed.

Lemma execLoop_skips_locked node rest w :
  isRunning (store w) = true → pauses node = false →
  inLockedGroup snapGroups node = true →
  loop (node :: rest) w = loop rest (logEvent (LogSkipLocked (node_id node)) w).
Proof. intros Hrun Hp Hl. simpl. by rewrite Hrun, Hp, Hl. Qed.

End iterations.

(** ** Generation: history and cost *)

Section generation.

Implicit Types (w : World (number:=number)) (s : Store (number:=number))
  (env : Env (number:=number)) (node : Node).

Lemma findNode_merge (l : list Node) i patch nodeId :
  findNode (map (mergeData i patch) l) nodeId =
  mergeData i patch <$> findNode l nodeId.
Proof.
  unfold findNode.
  induction l as [|n l IH]; [done|]. simpl.
  rewrite mergeData_id.
  destruct (decide (node_id n = nodeId)); [done|].
  rewrite <- !option_fmap_compose in *.
  destruct (list_find _ (map _ l)) as [[k x]|],
           (list_find _ l) as [[k' x']|]; simplify_eq/=; done.
Qed.

Lemma mergeData_eq i patch (n : Node) :
  node_id n = i →
  mergeData i patch n =
  mkNode (node_id n) (node_type n) (patch ∪ node_data n) (node_groupId n).
Proof. intros Hid. unfold mergeData. by rewrite decide_True. Qed.

Lemma getNodeById_update s i patch nodeId :
  getNodeById (updateNodeData i patch s) nodeId =
  mergeData i patch <$> getNodeById s nodeId.
Proof. apply findNode_merge. Qed.

(** A generate node only completes through the success branch. *)
Lemma executeNanoBanana_Done env node w w' :
  executeNanoBanana env node w = NodeDone w' →
  ∃ text image wr patch,
    w' = generateSuccess env node text image wr ∧
    store wr = (if env_stop env (tick w) then stopWorkflow else λ s, s)
                 (updateNodeData (node_id node) patch (store w)) ∧
    patch !! "imageHistory" = None ∧ patch !! "model" = None ∧
    patch !! "resolution" = None.
Proof.
  unfold executeNanoBanana. intros Hrun.
  destruct (getConnectedInputs _ _) as [images text].
  destruct images as [|img images]; [by destruct (truthy text)|].
  destruct (truthy text) as [text'|]; [|done].
  cbv zeta in Hrun.
  destruct (env_generate _ _ _) as [|?|success image err]; try done.
  destruct success; [|done].
  destruct (truthy image) as [image'|]; [|done]. simplify_eq.
  eexists text', image', _, _. split; [done|].
  split_and!; [ unfold awaitReply; simpl; by destruct (env_stop env (tick w)) | done..].
Qed.

Lemma generation_step env node w w' :
  getNodeById (store w) (node_id node) = Some node →
  executeNanoBanana env node w = NodeDone w' →
  ∃ item node',
    getNodeById (store w') (node_id node) = Some node' ∧
    imageHistoryOf node' = item :: imageHistoryOf node ∧
    node_data node' !! "selectedHistoryIndex" = Some (VNum num_zero) ∧
    priceOf node' = priceOf node ∧
    incurredCost (store w') = num_add (incurredCost (store w)) (priceOf node).
Proof.
  intros Hlive Hrun.
  destruct (executeNanoBanana_Done _ _ _ _ Hrun)
    as (text & image & wr & patch & -> & Hwr & Hp1 & Hp2 & Hp3).
  rewrite store_generateSuccess.
  eexists _, _. split_and!.
  - unfold addCost, getNodeById. simpl. rewrite findNode_merge. simpl.
    rewrite Hwr.
    assert (∀ s, nodes ((if env_stop env (tick w) then stopWorkflow
                         else λ s, s) s) = nodes s) as ->
      by (intros ?; by destruct (env_stop env (tick w))).
    unfold updateNodeData. simpl. rewrite findNode_merge.
    unfold getNodeById in Hlive. by rewrite Hlive.
  - rewrite (mergeData_eq _ patch node), mergeData_eq by done. unfold imageHistoryOf, arrField. simpl.
    rewrite (lookup_union_Some_l _ _ _
               (VArr (carouselItem (node_data node)
                        (env_now env (tick wr)) text
                      :: arrField (node_data node) "imageHistory"))); [done|].
    by simplify_map_eq.
  - rewrite (mergeData_eq _ patch node), mergeData_eq by done. simpl.
    apply lookup_union_Some_l. by simplify_map_eq.
  - rewrite (mergeData_eq _ patch node), mergeData_eq by done. unfold priceOf, field. simpl.
    rewrite !lookup_union_r by (by simplify_map_eq). done.
  - simpl. rewrite Hwr. by destruct (env_stop env (tick w)).
Qed.

(** C8. Each successful generation of a generate node (read by the run as
    the store holds it) prepends exactly one item to the node's carousel
    history, resets [selectedHistoryIndex] to [0] and adds one
    pricing-table lookup for the node's (model, resolution) to the
    incurred cost. After two successful generations on
    the same node, its history is the two new items, newest first, in
    front of what it was; the selected index is [0]; and the cost has
    grown by the two lookups. *)
Theorem generation_history_and_cost :
  (∀ env node w w',
     getNodeById (store w) (node_id node) = Some node →
     executeNanoBanana env node w = NodeDone w' →
     ∃ item node',
       getNodeById (store w') (node_id node) = Some node' ∧
       imageHistoryOf node' = item :: imageHistoryOf node ∧
       node_data node' !! "selectedHistoryIndex" = Some (VNum num_zero) ∧
       incurredCost (store w') =
         num_add (incurredCost (store w)) (priceOf node)) ∧
  (∀ env1 env2 node w w1 w2 w3 node1,
     getNodeById (store w) (node_id node) = Some node →
     executeNanoBanana env1 node w = NodeDone w1 →
     getNodeById (store w2) (node_id node) = getNodeById (store w1) (node_id node) →
     incurredCost (store w2) = incurredCost (store w1) →
     getNodeById (store w2) (node_id node) = Some node1 →
     executeNanoBanana env2 node1 w2 = NodeDone w3 →
     ∃ older newer node3,
       getNodeById (store w3) (node_id node) = Some node3 ∧
       imageHistoryOf node3 = newer :: older :: imageHistoryOf node ∧
       node_data node3 !! "selectedHistoryIndex" = Some (VNum num_zero) ∧
       incurredCost (store w3) =
         num_add (num_add (incurredCost (store w)) (priceOf node))
           (priceOf node)).
Proof.
  split.
  - intros env node w w' Hlive Hrun.
    destruct (generation_step _ _ _ _ Hlive Hrun)
      as (item & node' & H1 & H2 & H3 & _ & H5).
    by exists item, node'.
  - intros env1 env2 node w w1 w2 w3 node1 Hlive Hrun1 Hsame Hcost Hlive2 Hrun2.
    destruct (generation_step _ _ _ _ Hlive Hrun1)
      as (older & node' & H1 & H2 & _ & H4 & H5).
    assert (node1 = node') as -> by congruence.
    assert (node_id node' = node_id node) as Hid.
    { unfold getNodeById in H1. by destruct (findNode_Some _ _ _ H1). }
    rewrite <- Hid in Hlive2.
    destruct (generation_step _ _ _ _ Hlive2 Hrun2)
      as (newer & node3 & G1 & G2 & G3 & _ & G5).
    exists older, newer, node3. rewrite Hid in G1.
    split_and!; [done | by rewrite G2, H2 | done |].
    by rewrite G5, Hcost, H5, H4.
Qed.

End generation.

(** ** Whole runs *)

Section runs.

Implicit Types (w : World (number:=number)) (s : Store (number:=number))
  (env : Env (number:=number)) (node : Node).

Lemma elem_of_drop {A} (l : list A) k x : x ∈ drop k l → x ∈ l.
Proof.
  intros [i Hi]%list_elem_of_lookup. rewrite lookup_drop in Hi.
  by eapply list_elem_of_lookup_2.
Qed.

Lemma findNode_unique (l : list Node) n :
  NoDup (map node_id l) → n ∈ l → findNode l (node_id n) = Some n.
Proof.
  intros Hnd [i Hi]%list_elem_of_lookup.
  pose proof (findIndex_unique l i n Hnd Hi) as Hidx.
  unfold findIndex in Hidx. unfold findNode.
  destruct (list_find _ l) as [[k x]|] eqn:E; simplify_eq/=.
  apply list_find_Some in E as (Hx & _). congruence.
Qed.

Lemma findNode_keeps m (l l' : list Node) n :
  keepsNode m l l' → findNode l m = Some n → findNode l' m = Some n.
Proof.
  intros [Hids Hkeep] Hf. unfold findNode in *.
  destruct (list_find _ l) as [[i x]|] eqn:E; [|done].
  simpl in Hf. injection Hf as ->.
  apply list_find_Some in E as (Hi & Hx & Hmin).
  assert (list_find (λ n0, node_id n0 = m) l' = Some (i, n)) as ->; [|done].
  apply list_find_Some. split_and!; [by apply Hkeep | done |].
  intros j y Hj Hlt Hy.
  assert (map node_id l' !! j = Some (node_id y)) as Hjid
    by (by rewrite list_lookup_fmap, Hj).
  rewrite Hids, list_lookup_fmap in Hjid.
  destruct (l !! j) as [y0|] eqn:Ej; simplify_eq/=.
  apply (Hmin j y0 Ej Hlt). congruence.
Qed.

(** C10. On every exit path of a run that was started (normal completion,
    pause at a pause edge, node-level failure, exception caught at the top
    level: all but the ignored request made while a run is in progress),
    the store ends with [isRunning = false] and [currentNodeId = null]. *)
Theorem executeWorkflow_clears_run_state env startFromNodeId w path w' :
  isRunning (store w) = false →
  executeWorkflow env startFromNodeId w = (path, w') →
  path ∈ [ExitCompleted; ExitPaused; ExitNodeError; ExitCaught] ∧
  isRunning (store w') = false ∧ currentNodeId (store w') = None.
Proof.
  unfold executeWorkflow. intros -> Hrun.
  destruct (topoSort _ _) as [|c|order] eqn:Esort.
  - by destruct (topoSort_total (nodes (store w)) (edges (store w))).
  - simplify_eq. split; [|done]. set_solver.
  - destruct (execLoop _ _ _ _ _ _ _) as [w2|p w2] eqn:Eloop; simplify_eq.
    + split; [|done]. set_solver.
    + destruct (execLoop_Returned _ _ _ _ _ _ _ _ _ Eloop) as (? & ? & [-> | ->]);
        (split; [set_solver | done]).
Qed.

(** C2. When the graph (whose edges connect its nodes) contains a cycle, a
    run that starts ends in the catch branch: the sort throws, no node is
    executed, no request other than the posting of the log is made, and the
    nodes -- so every status field -- are as they were before the run. *)
Theorem cycle_aborts_run env startFromNodeId w :
  isRunning (store w) = false →
  edgesClosed (nodes (store w)) (edges (store w)) →
  (∃ x, tc (edgeRel (edges (store w))) x x) →
  ∃ c w',
    topoSort (nodes (store w)) (edges (store w)) = Thrown c ∧
    executeWorkflow env startFromNodeId w = (ExitCaught, w') ∧
    nodes (store w') = nodes (store w) ∧
    executedIds (eventsSince w w') = [] ∧
    callsSince w w' = [CallLogs] ∧
    isRunning (store w') = false ∧ currentNodeId (store w') = None.
Proof.
  intros Hidle Hclosed Hcycle.
  destruct (topoSort_cycle_throws _ _ Hclosed Hcycle) as [c Hc].
  exists c. unfold executeWorkflow. rewrite Hidle, Hc.
  eexists. split_and!; try done.
  - erewrite eventsSince_app; [|simpl; by rewrite <- !app_assoc]. done.
  - by erewrite callsSince_app.
Qed.

(** *** Pause edges *)

(** Every node a run reports as executed belongs to the computed order,
    passed the pause check and is outside the locked groups. *)
Lemma run_executed env startFromNodeId w path w' i :
  executeWorkflow env startFromNodeId w = (path, w') →
  i ∈ executedIds (eventsSince w w') →
  ∃ order node,
    topoSort (nodes (store w)) (edges (store w)) = Done order ∧
    node ∈ order ∧ node_id node = i ∧
    pausesAt (edges (store w))
      (isResumingRun startFromNodeId (pausedAtNodeId (store w)))
      startFromNodeId node = false ∧
    inLockedGroup (groups (store w)) node = false.
Proof.
  unfold executeWorkflow. intros Hrun Hin.
  destruct (isRunning (store w)).
  { simplify_eq. erewrite eventsSince_app in Hin; [|done].
    by apply elem_of_nil in Hin. }
  destruct (topoSort _ _) as [|c|order] eqn:Esort.
  - by destruct (topoSort_total (nodes (store w)) (edges (store w))).
  - simplify_eq.
    erewrite eventsSince_app in Hin; [|simpl; by rewrite <- !app_assoc].
    by apply elem_of_nil in Hin.
  - destruct (execLoop_console env (edges (store w)) (groups (store w))
                (isResumingRun startFromNodeId (pausedAtNodeId (store w)))
                startFromNodeId
                (drop (startIndex order startFromNodeId) order)
                (beginRun startFromNodeId w)) as (evs & Hevs & Hex).
    assert (i ∈ executedIds evs) as Hi.
    { destruct (execLoop _ _ _ _ _ _ _) as [w2|p w2]; simplify_eq;
        simpl in Hevs.
      - erewrite eventsSince_app in Hin;
          [|simpl; rewrite Hevs; simpl; by rewrite <- !app_assoc].
        simpl in Hin. rewrite executedIds_app in Hin. simpl in Hin.
        by rewrite app_nil_r in Hin.
      - erewrite eventsSince_app in Hin;
          [|rewrite Hevs; simpl; by rewrite <- !app_assoc].
        done. }
    destruct (Hex _ Hi) as (node & Hnode & Hid & Hp & Hl).
    exists order, node. split_and!; try done.
    by eapply elem_of_drop.
Qed.

(** What no unlocked node of the order touches is kept by the run. *)
Lemma run_keeps env startFromNodeId w path w' m :
  executeWorkflow env startFromNodeId w = (path, w') →
  (∀ order node,
     topoSort (nodes (store w)) (edges (store w)) = Done order →
     node ∈ order → inLockedGroup (groups (store w)) node = false →
     m ∉ touches node) →
  keepsNode m (nodes (store w)) (nodes (store w')).
Proof.
  unfold executeWorkflow. intros Hrun Hall.
  destruct (isRunning (store w)).
  { simplify_eq. apply keepsNode_refl. }
  destruct (topoSort _ _) as [|c|order] eqn:Esort; simplify_eq;
    try apply keepsNode_refl.
  pose proof (execLoop_keeps env (edges (store w)) (groups (store w))
                (isResumingRun startFromNodeId (pausedAtNodeId (store w)))
                startFromNodeId m
                (drop (startIndex order startFromNodeId) order)
                (beginRun startFromNodeId w)) as Hk.
  assert (keepsNode m (nodes (store w))
            (nodes (store (worldOf
               (execLoop env (edges (store w)) (groups (store w))
                  (isResumingRun startFromNodeId (pausedAtNodeId (store w)))
                  startFromNodeId
                  (drop (startIndex order startFromNodeId) order)
                  (beginRun startFromNodeId w)))))) as Hk'.
  { apply Hk. intros node Hnode Hl. apply (Hall order); [done| |done].
    by eapply elem_of_drop. }
  by destruct (execLoop _ _ _ _ _ _ _) as [w2|p w2]; simplify_eq.
Qed.

Lemma paused_node_not_executed env startFromNodeId w path w' m :
  executeWorkflow env startFromNodeId w = (path, w') →
  hasPauseEdge (edges (store w)) m = true →
  ¬ (startFromNodeId = Some m ∧ pausedAtNodeId (store w) = Some m) →
  m ∉ executedIds (eventsSince w w').
Proof.
  intros Hrun Hpause Hnot Hin.
  destruct (run_executed _ _ _ _ _ _ Hrun Hin)
    as (order & node & _ & _ & Hid & Hp & _).
  unfold pausesAt in Hp. rewrite Hid, Hpause, andb_true_r in Hp.
  apply negb_false_iff in Hp. unfold isResumingThisNode in Hp.
  apply andb_true_iff in Hp as [Hres Heq].
  apply bool_decide_eq_true in Heq. rewrite Hid in Heq.
  apply Hnot. split; [done|].
  unfold isResumingRun in Hres. rewrite <- Heq in Hres.
  destruct (pausedAtNodeId (store w)) as [p|]; [|done].
  apply bool_decide_eq_true in Hres. by subst.
Qed.

Lemma resume_executes_entry env w m node order i :
  isRunning (store w) = false →
  pausedAtNodeId (store w) = Some m → m ≠ "" →
  topoSort (nodes (store w)) (edges (store w)) = Done order →
  order !! i = Some node → node_id node = m →
  inLockedGroup (groups (store w)) node = false →
  ∃ started evs,
    eventsSince w (executeWorkflow env (Some m) w).2 =
      started :: LogExecuting m (node_type node) :: evs ∧
    executedIds [started] = [].
Proof.
  intros Hidle Hpaused Hne Hsort Hi Hid Hlock.
  unfold executeWorkflow. rewrite Hidle, Hsort.
  destruct (topoSort_Done _ _ _ Hsort) as (_ & Hnd & _).
  assert (startIndex order (Some m) = i) as ->.
  { unfold startIndex, truthy. rewrite decide_False by done.
    rewrite <- Hid. by rewrite (findIndex_unique order i node). }
  rewrite (drop_S _ _ _ Hi).
  set (w1 := beginRun (Some m) w).
  assert (isResumingRun (Some m) (pausedAtNodeId (store w)) = true) as Hres.
  { rewrite Hpaused. simpl. by apply bool_decide_eq_true. }
  rewrite Hres.
  rewrite execLoop_executes; [|done| |done].
  2:{ unfold pausesAt, isResumingThisNode. rewrite Hid. simpl.
      by rewrite bool_decide_true. }
  set (w2 := enterNode node w1).
  destruct (executeNode_console env node w2) as (evs1 & Hevs1 & _).
  assert (console w2 =
            console w ++ [LogStarted (length (nodes (store w)))
                            (length (edges (store w))) (Some m)
                            (isResumingRun (Some m) (pausedAtNodeId (store w)));
                          LogExecuting m (node_type node)]) as Hw2.
  { subst w2 w1. unfold enterNode. simpl. rewrite Hid. by rewrite <- app_assoc. }
  exists (LogStarted (length (nodes (store w))) (length (edges (store w)))
            (Some m) (isResumingRun (Some m) (pausedAtNodeId (store w)))).
  destruct (executeNode env node w2) as [w3|w3]; simpl in Hevs1.
  - destruct (execLoop_console env (edges (store w)) (groups (store w)) true
                (Some m) (drop (S i) order) w3) as (evs2 & Hevs2 & _).
    destruct (execLoop _ _ _ _ _ _ w3) as [w4|p w4]; simpl in *.
    + eexists. split; [|reflexivity].
      erewrite eventsSince_app; [done|].
      simpl. rewrite Hevs2, Hevs1, ?Hw2, ?Hid. by rewrite <- !app_assoc.
    + eexists. split; [|reflexivity].
      erewrite eventsSince_app; [done|].
      rewrite Hevs2, Hevs1, ?Hw2, ?Hid. by rewrite <- !app_assoc.
  - simpl. eexists. split; [|reflexivity].
    erewrite eventsSince_app; [done|].
    rewrite Hevs1, ?Hw2, ?Hid. by rewrite <- !app_assoc.
Qed.

(** C6, as the code has it. A node with an incoming pause edge is not
    executed by a run, unless the run was started with that node as entry
    while it was the recorded pause point. When the loop reaches such a
    node it returns, recording the node as [pausedAtNodeId] and clearing
    [isRunning] (and [currentNodeId]), without touching any node. A start
    that names the recorded pause point as entry executes that node first,
    whatever its pause edges, provided the node is outside the locked
    groups; the exemption is for that node only (every other node with a
    pause edge falls under the first part). In general the iteration of
    the entry node of a resumed run makes no pause check: it skips the
    node when its group is locked and executes it otherwise. *)
Theorem pause_edge_semantics :
  (∀ env startFromNodeId w path w' m,
     executeWorkflow env startFromNodeId w = (path, w') →
     hasPauseEdge (edges (store w)) m = true →
     ¬ (startFromNodeId = Some m ∧ pausedAtNodeId (store w) = Some m) →
     m ∉ executedIds (eventsSince w w')) ∧
  (∀ env snapEdges snapGroups isResuming startFromNodeId node rest w,
     isRunning (store w) = true →
     isResumingThisNode isResuming startFromNodeId node = false →
     hasPauseEdge snapEdges (node_id node) = true →
     ∃ w',
       execLoop env snapEdges snapGroups isResuming startFromNodeId
         (node :: rest) w = Returned ExitPaused w' ∧
       pausedAtNodeId (store w') = Some (node_id node) ∧
       isRunning (store w') = false ∧ currentNodeId (store w') = None ∧
       nodes (store w') = nodes (store w) ∧
       executedIds (eventsSince w w') = []) ∧
  (∀ env w m node order i,
     isRunning (store w) = false →
     pausedAtNodeId (store w) = Some m → m ≠ "" →
     topoSort (nodes (store w)) (edges (store w)) = Done order →
     order !! i = Some node → node_id node = m →
     inLockedGroup (groups (store w)) node = false →
     ∃ started evs,
       eventsSince w (executeWorkflow env (Some m) w).2 =
         started :: LogExecuting m (node_type node) :: evs ∧
       executedIds [started] = []) ∧
  (∀ env snapEdges snapGroups isResuming startFromNodeId node rest w,
     isRunning (store w) = true →
     isResumingThisNode isResuming startFromNodeId node = true →
     execLoop env snapEdges snapGroups isResuming startFromNodeId
       (node :: rest) w =
     if inLockedGroup snapGroups node
     then execLoop env snapEdges snapGroups isResuming startFromNodeId rest
            (logEvent (LogSkipLocked (node_id node)) w)
     else
       match executeNode env node (enterNode node w) with
       | NodeDone w2 =>
           execLoop env snapEdges snapGroups isResuming startFromNodeId rest w2
       | NodeFailed w2 => Returned ExitNodeError w2
       end).
Proof.
  split_and!;
    [| | |by intros ???????? Hrun Hres; simpl; unfold pausesAt;
             rewrite Hrun, Hres].
  - apply paused_node_not_executed.
  - intros env snapEdges snapGroups isResuming startFromNodeId node rest w
      Hrun Hres Hpause.
    rewrite execLoop_pauses; [|done|by unfold pausesAt; rewrite Hres, Hpause].
    eexists. split; [done|]. split_and!; try done.
    by rewrite (eventsSince_app _ _ [LogPaused (node_id node)]).
  - apply resume_executes_entry.
Qed.

(** *** Locked groups *)

Lemma locked_node_untouched w n order node :
  uniqueIds (nodes (store w)) → n ∈ nodes (store w) →
  inLockedGroup (groups (store w)) n = true →
  (∀ g, g ∈ nodes (store w) → node_type g = splitGrid →
     inLockedGroup (groups (store w)) g = false →
     node_id n ∉ splitChildren g) →
  topoSort (nodes (store w)) (edges (store w)) = Done order →
  node ∈ order → inLockedGroup (groups (store w)) node = false →
  node_id n ∉ touches node.
Proof.
  intros Huniq Hn Hlocked Hsplit Hsort Hnode Hl.
  destruct (topoSort_Done _ _ _ Hsort) as (_ & _ & Hfound & _).
  destruct (findNode_Some _ _ _ (Hfound _ Hnode)) as [Hin _].
  unfold touches. intros [Heq|Hchild]%elem_of_cons.
  - assert (n = node) as -> by (by eapply unique_id_elem). congruence.
  - destruct (node_type node) eqn:Ety; try by apply elem_of_nil in Hchild.
    by eapply Hsplit.
Qed.

(** C7, as the code has it. A node of a locked group is not executed by a
    run, and its entire data is left unchanged provided no grid-split node
    outside the locked groups lists it among its child image inputs (a
    grid split writes its cells into its children, locked or not); when the
    loop reaches it (and its pause edges do not stop the run) the loop
    goes on with the next node; and whenever the loop has finished a
    prefix of the order, the store still holds the node as it was before
    the run, so that the nodes downstream resolve its pre-run output. *)
Theorem locked_group_node_kept env startFromNodeId w path w' n :
  uniqueIds (nodes (store w)) →
  n ∈ nodes (store w) →
  inLockedGroup (groups (store w)) n = true →
  (∀ g, g ∈ nodes (store w) → node_type g = splitGrid →
     inLockedGroup (groups (store w)) g = false →
     node_id n ∉ splitChildren g) →
  executeWorkflow env startFromNodeId w = (path, w') →
  let isResuming := isResumingRun startFromNodeId (pausedAtNodeId (store w)) in
  let loop := execLoop env (edges (store w)) (groups (store w)) isResuming
                startFromNodeId in
  (node_id n ∉ executedIds (eventsSince w w')) ∧
  keepsNode (node_id n) (nodes (store w)) (nodes (store w')) ∧
  getNodeById (store w') (node_id n) = Some n ∧
  (∀ rest w0,
     isRunning (store w0) = true →
     pausesAt (edges (store w)) isResuming startFromNodeId n = false →
     loop (n :: rest) w0 =
     loop rest (logEvent (LogSkipLocked (node_id n)) w0)) ∧
  (∀ order pre post wmid,
     topoSort (nodes (store w)) (edges (store w)) = Done order →
     drop (startIndex order startFromNodeId) order = pre ++ post →
     loop pre (beginRun startFromNodeId w) = Finished wmid →
     getNodeById (store wmid) (node_id n) = Some n ∧
     ∀ e acc, edge_source e = node_id n →
       collectInput (nodes (store wmid)) acc e =
       collectInput (nodes (store w)) acc e).
Proof.
  intros Huniq Hn Hlocked Hsplit Hrun isResuming loop.
  assert (getNodeById (store w) (node_id n) = Some n) as Hlive
    by (by apply findNode_unique).
  assert (keepsNode (node_id n) (nodes (store w)) (nodes (store w'))) as Hkeep.
  { eapply run_keeps; [done|]. intros order node Hsort Hnode Hl.
    by eapply locked_node_untouched. }
  split_and!.
  - intros Hin.
    destruct (run_executed _ _ _ _ _ _ Hrun Hin)
      as (order & node & Hsort & Hnode & Hid & _ & Hl).
    destruct (topoSort_Done _ _ _ Hsort) as (_ & _ & Hfound & _).
    destruct (findNode_Some _ _ _ (Hfound _ Hnode)) as [Hin' _].
    assert (node = n) as -> by (by eapply unique_id_elem). congruence.
  - done.
  - by eapply findNode_keeps.
  - intros rest w0 Hrunning Hp. by apply execLoop_skips_locked.
  - intros order pre post wmid Hsort Hsplit' Hloop.
    pose proof (execLoop_keeps env (edges (store w)) (groups (store w))
                  isResuming startFromNodeId (node_id n) pre
                  (beginRun startFromNodeId w)) as Hk.
    fold loop in Hk. rewrite Hloop in Hk. simpl in Hk.
    assert (getNodeById (store wmid) (node_id n) = Some n) as Hmid.
    { eapply findNode_keeps; [|exact Hlive]. apply Hk.
      intros node Hnode Hl. eapply locked_node_untouched; try done.
      assert (node ∈ drop (startIndex order startFromNodeId) order) as Hd.
      { rewrite Hsplit'. apply elem_of_app. by left. }
      by eapply elem_of_drop. }
    split; [done|]. intros e acc He. unfold collectInput.
    unfold getNodeById in Hmid, Hlive. by rewrite He, Hmid, Hlive.
Qed.

End runs.

End properties.

(** * The properties on the concrete workflows *)

Import Examples.

(** ** Runs of the example workflows *)

Example exNodes_order :
  topoSort exNodes exEdges = Done [exImage; exPrompt; exGen; exOutput].
Proof. by vm_compute. Qed.

Example exWorld0_completes :
  let r := executeWorkflow exEnv None exWorld0 in
  r.1 = ExitCompleted ∧
  executedIds (eventsSince exWorld0 r.2) =
    ["imageInput-1"; "prompt-2"; "nanoBanana-3"; "output-4"] ∧
  incurredCost (store r.2) = 134%Z ∧
  (getNodeById (store r.2) "output-4" ≫= λ n, node_data n !! "image") =
    Some (VStr "data:generated").
Proof. split_and!; by vm_compute. Qed.

Example exPauseWorld_pauses :
  let r := executeWorkflow exEnv None exPauseWorld in
  r.1 = ExitPaused ∧
  pausedAtNodeId (store r.2) = Some "nanoBanana-3" ∧
  executedIds (eventsSince exPauseWorld r.2) = ["imageInput-1"; "prompt-2"].
Proof. split_and!; by vm_compute. Qed.

(** A stop that arrives while the generation request is in flight: the
    result is still written on the node, the output node is not reached. *)
Example exWorld0_stopped_in_flight :
  let r := executeWorkflow exEnvStop None exWorld0 in
  r.1 = ExitCompleted ∧
  executedIds (eventsSince exWorld0 r.2) =
    ["imageInput-1"; "prompt-2"; "nanoBanana-3"] ∧
  (getNodeById (store r.2) "nanoBanana-3" ≫= λ n, node_data n !! "status") =
    Some (VStr "complete") ∧
  (getNodeById (store r.2) "output-4" ≫= λ n, node_data n !! "image") = None.
Proof. split_and!; by vm_compute. Qed.

(** The prompt-only scenario: the generate node fails, nothing is sent. *)
Example exNoImage_fails :
  let r := executeWorkflow exEnv None exNoImageIdle in
  r.1 = ExitNodeError ∧
  calls r.2 = [] ∧
  executedIds (eventsSince exNoImageIdle r.2) =
    ["prompt-2"; "nanoBanana-3"] ∧
  (getNodeById (store r.2) "nanoBanana-3" ≫= λ n, node_data n !! "error") =
    Some (VStr "Missing image or text input").
Proof. split_and!; by vm_compute. Qed.

(** Two runs in a row: two history items, newest first, and twice the
    price. *)
Example exWorld0_two_runs :
  let r := executeWorkflow exEnv None (executeWorkflow exEnv None exWorld0).2 in
  r.1 = ExitCompleted ∧
  incurredCost (store r.2) = 268%Z ∧
  (getNodeById (store r.2) "nanoBanana-3" ≫= λ n,
     node_data n !! "selectedHistoryIndex") = Some (VNum 0%Z) ∧
  (historyIds <$> getNodeById (store r.2) "nanoBanana-3") =
    Some ["1700000000002"; "1700000000001"].
Proof. split_and!; by vm_compute. Qed.

(** ** The theorems at concrete inputs *)

Lemma topoSort_acyclic_order_witness :
  ∃ order, topoSort exNodes exEdges = Done order ∧
    NoDup order ∧ order ≡ₚ exNodes ∧
    ∀ e, e ∈ exEdges →
      edge_source e ∈ map node_id exNodes → edge_target e ∈ map node_id exNodes →
      ∃ i j, findIndex order (edge_source e) = Some i ∧
             findIndex order (edge_target e) = Some j ∧ i < j.
Proof.
  apply (topoSort_acyclic_order exNodes exEdges).
  - apply (acyclic_by_rank exEdges exRank). by compute_done.
  - unfold uniqueIds. by compute_done.
Defined.

Lemma cycle_aborts_run_witness :
  ∃ c w',
    topoSort (nodes (store exCycleWorld)) (edges (store exCycleWorld)) = Thrown c ∧
    executeWorkflow exEnv None exCycleWorld = (ExitCaught, w') ∧
    nodes (store w') = nodes (store exCycleWorld) ∧
    executedIds (eventsSince exCycleWorld w') = [] ∧
    callsSince exCycleWorld w' = [CallLogs] ∧
    isRunning (store w') = false ∧ currentNodeId (store w') = None.
Proof.
  apply (cycle_aborts_run exEnv None exCycleWorld).
  - reflexivity.
  - apply edgesClosed_Forall. by compute_done.
  - exists "annotation-1".
    apply (tc_l _ _ "annotation-2").
    + exists (exEdge "annotation-1" "annotation-2" "image" false).
      split; [by compute_done | by split].
    + apply tc_once.
      exists (exEdge "annotation-2" "annotation-1" "image" false).
      split; [by compute_done | by split].
Defined.

Lemma nanoBanana_missing_input_halts_witness :
  ∃ w', execLoop exEnv exNoImageEdges ∅ false None [exGen; exOutput]
          exNoImageWorld = Returned ExitNodeError w' ∧
    nodes (store w') =
      map (mergeData "nanoBanana-3"
             {[ "status" := VStr "error";
                "error" := VStr "Missing image or text input" ]})
        (nodes (store exNoImageWorld)) ∧
    (∀ n, n ∈ nodes (store w') → node_id n = "nanoBanana-3" →
       node_data n !! "status" = Some (VStr "error") ∧
       node_data n !! "error" = Some (VStr "Missing image or text input")) ∧
    executedIds (eventsSince exNoImageWorld w') = ["nanoBanana-3"] ∧
    calls w' = calls exNoImageWorld ∧
    isRunning (store w') = false.
Proof.
  apply (nanoBanana_missing_input_halts exEnv exNoImageEdges ∅ false None
           exGen [exOutput] exNoImageWorld [] (Some "draw a cat")).
  - reflexivity.
  - reflexivity.
  - by vm_compute.
  - by vm_compute.
  - by vm_compute.
  - by left.
Defined.

Lemma getConnectedInputs_images_witness :
  length (fst (getConnectedInputs (store exWorld0) "nanoBanana-3")) =
  length (imageEdges (edges (store exWorld0)) "nanoBanana-3").
Proof.
  apply (getConnectedInputs_images (store exWorld0) "nanoBanana-3").
  apply Forall_forall. intros e He.
  assert (e = exEdge "imageInput-1" "nanoBanana-3" "image" false) as ->.
  { vm_compute in He. by apply list_elem_of_singleton in He. }
  by exists "data:cat".
Defined.

(** What C4 claims fails: an image input that holds no image contributes
    nothing although its edge targets the image handle, and an edge into a
    [content] handle (an image handle for [isValidConnection]) contributes
    nothing even when its source holds an image. *)
Lemma image_class_edges_counterexample :
  length (imageClassEdges (edges exEmptyStore) "nanoBanana-3") = 1 ∧
  length (fst (getConnectedInputs exEmptyStore "nanoBanana-3")) = 0 ∧
  length (imageClassEdges (edges exContentStore) "styleTransfer-10") = 1 ∧
  offeredImage (nodes exContentStore)
    (exEdge "imageInput-1" "styleTransfer-10" "content" false) = Some "data:cat" ∧
  length (fst (getConnectedInputs exContentStore "styleTransfer-10")) = 0.
Proof. split_and!; by vm_compute. Qed.

Lemma getConnectedInputs_last_text_wins_witness :
  incoming (edges exTwoTextStore) "nanoBanana-3" =
    [ exEdge "prompt-2" "nanoBanana-3" "text" false;
      exEdge "prompt-5" "nanoBanana-3" "text" false ] ∧
  findNode (nodes exTwoTextStore) "prompt-5" = Some exPromptB ∧
  snd (getConnectedInputs exTwoTextStore "nanoBanana-3") = Some "draw a dog".
Proof.
  split; [by vm_compute|]. split; [by vm_compute|].
  destruct (getConnectedInputs_last_text_wins exTwoTextStore "nanoBanana-3")
    as [Hlast _].
  destruct (Hlast [exEdge "prompt-2" "nanoBanana-3" "text" false]
              (exEdge "prompt-5" "nanoBanana-3" "text" false) [] exPromptB)
    as (_ & Hprompt & _).
  - by vm_compute.
  - reflexivity.
  - by vm_compute.
  - by left.
  - constructor.
  - exact (Hprompt eq_refl).
Defined.

(** What C5 claims fails when the last edge into the text handle comes
    from a node that has no text output. The [reference] output of a grid
    split may be connected to a text handle ([isValidConnection] accepts
    the edge); the resolver skips it, so the text of the earlier edge is
    kept, not discarded, and the resolved text is not what the source of
    the last text edge offers. *)
Lemma last_text_edge_counterexample :
  incoming (edges exReferenceTextStore) "nanoBanana-3" =
    [ exEdge "prompt-2" "nanoBanana-3" "text" false; exReferenceEdge ] ∧
  edge_targetHandle exReferenceEdge = Some "text" ∧
  isValidConnection (edge_sourceHandle exReferenceEdge)
    (edge_targetHandle exReferenceEdge) = true ∧
  findNode (nodes exReferenceTextStore) (edge_source exReferenceEdge) =
    Some exSplit ∧
  node_type exSplit = splitGrid ∧
  textOutputOf exSplit = None ∧
  snd (getConnectedInputs exReferenceTextStore "nanoBanana-3") =
    Some "draw a cat" ∧
  snd (getConnectedInputs exReferenceTextStore "nanoBanana-3") ≠
    textOutputOf exSplit.
Proof. split_and!; by vm_compute. Qed.

Lemma pause_edge_semantics_witness :
  ("nanoBanana-3" ∉
     executedIds (eventsSince exPauseWorld
                    (executeWorkflow exEnv None exPauseWorld).2)) ∧
  ∃ started evs,
    eventsSince exPausedWorld
      (executeWorkflow exEnv (Some "nanoBanana-3") exPausedWorld).2 =
    started :: LogExecuting "nanoBanana-3" nanoBanana :: evs ∧
    executedIds [started] = [].
Proof.
  destruct pause_edge_semantics as (Hnever & _ & Hresume & _). split.
  - apply (Hnever exEnv None exPauseWorld
             (executeWorkflow exEnv None exPauseWorld).1).
    + by destruct (executeWorkflow exEnv None exPauseWorld).
    + by vm_compute.
    + by intros [? _].
  - apply (Hresume exEnv exPausedWorld "nanoBanana-3" exGen
             [exImage; exPrompt; exGen; exOutput] 2).
    + reflexivity.
    + reflexivity.
    + done.
    + by vm_compute.
    + reflexivity.
    + reflexivity.
    + by vm_compute.
Defined.

(** What C6 claims fails when the recorded pause point sits in a locked
    group: the resumed run skips it instead of executing it. *)
Lemma resume_locked_counterexample :
  isRunning (store exPausedLockedWorld) = false ∧
  pausedAtNodeId (store exPausedLockedWorld) = Some "nanoBanana-3" ∧
  hasPauseEdge (edges (store exPausedLockedWorld)) "nanoBanana-3" = true ∧
  executedIds (eventsSince exPausedLockedWorld
                 (executeWorkflow exEnv (Some "nanoBanana-3")
                    exPausedLockedWorld).2) = ["output-4"].
Proof. split_and!; by vm_compute. Qed.

Lemma locked_group_node_kept_witness :
  getNodeById (store (executeWorkflow exEnv None exLockedWorld).2)
    "nanoBanana-3" = Some exLockedGen ∧
  "nanoBanana-3" ∉
    executedIds (eventsSince exLockedWorld
                   (executeWorkflow exEnv None exLockedWorld).2).
Proof.
  pose proof (locked_group_node_kept exEnv None exLockedWorld
                (executeWorkflow exEnv None exLockedWorld).1
                (executeWorkflow exEnv None exLockedWorld).2 exLockedGen) as H.
  cbv zeta in H.
  destruct H as (Hexec & _ & Hkept & _).
  - unfold uniqueIds. by compute_done.
  - right. by left.
  - by vm_compute.
  - intros g Hg Hty. exfalso.
    repeat (apply elem_of_cons in Hg as [->|Hg]; [discriminate Hty|]).
    by apply elem_of_nil in Hg.
  - by destruct (executeWorkflow exEnv None exLockedWorld).
  - by split.
Defined.

(** What C7 claims fails when a grid split writes a cell into a child image
    input that sits in a locked group: the locked node is not executed,
    yet its data is replaced. *)
Lemma locked_child_counterexample :
  inLockedGroup (groups (store exSplitWorld)) exLockedChild = true ∧
  getNodeById (store exSplitWorld) "imageInput-7" = Some exLockedChild ∧
  (node_data exLockedChild !! "image" = Some (VStr "data:old")) ∧
  (getNodeById (store (executeWorkflow exEnv None exSplitWorld).2)
     "imageInput-7" ≫= λ n, node_data n !! "image")
  = Some (VStr "data:cell-1").
Proof. split_and!; by vm_compute. Qed.

Lemma generation_history_and_cost_witness :
  let w1 := resultWorld (executeNanoBanana exEnv exGen exWorld0) in
  ∃ node1,
    getNodeById (store w1) "nanoBanana-3" = Some node1 ∧
    length (imageHistoryOf node1) = 1 ∧
    incurredCost (store w1) = 134%Z ∧
    ∃ older newer node3,
      getNodeById (store (resultWorld (executeNanoBanana exEnv node1 w1)))
        "nanoBanana-3" = Some node3 ∧
      imageHistoryOf node3 = newer :: older :: imageHistoryOf exGen ∧
      node_data node3 !! "selectedHistoryIndex" = Some (VNum 0%Z) ∧
      incurredCost (store (resultWorld (executeNanoBanana exEnv node1 w1))) =
        (0 + 134 + 134)%Z.
Proof.
  intros w1.
  destruct (generation_history_and_cost (number:=Z)) as [Hone Htwo].
  destruct (Hone exEnv exGen exWorld0 w1) as (item & node1 & H1 & H2 & H3 & H4).
  { by vm_compute. }
  { by vm_compute. }
  exists node1. split_and!; [exact H1 | by rewrite H2 | by rewrite H4 |].
  apply (Htwo exEnv exEnv exGen exWorld0 w1 w1
           (resultWorld (executeNanoBanana exEnv node1 w1)) node1).
  - by vm_compute.
  - by vm_compute.
  - reflexivity.
  - reflexivity.
  - exact H1.
  - assert (Some node1 = getNodeById (store w1) "nanoBanana-3") as Heq
      by (by rewrite <- H1).
    vm_compute in Heq. injection Heq as ->. by vm_compute.
Defined.

Lemma stop_between_nodes_witness :
  let w1 := worldOf (execLoop exEnv exEdges ∅ false None [exImage; exPrompt]
                       exRunningWorld) in
  let ws := onStore stopWorkflow w1 in
  execLoop exEnv exEdges ∅ false None [exGen; exOutput] ws = Finished ws ∧
  nodes (store (finishRun LogCompleted ws)) = nodes (store w1) ∧
  executedIds (eventsSince w1 (finishRun LogCompleted ws)) = [].
Proof.
  intros w1 ws.
  destruct (stop_between_nodes exEnv exEdges ∅ false None
              [exImage; exPrompt] [exGen; exOutput] exRunningWorld w1)
    as (H1 & H2 & H3 & _).
  - by vm_compute.
  - by split_and!.
Defined.

Lemma executeWorkflow_clears_run_state_witness :
  (executeWorkflow exEnv None exWorld0).1 ∈
    [ExitCompleted; ExitPaused; ExitNodeError; ExitCaught] ∧
  isRunning (store (executeWorkflow exEnv None exWorld0).2) = false ∧
  currentNodeId (store (executeWorkflow exEnv None exWorld0).2) = None.
Proof.
  apply (executeWorkflow_clears_run_state exEnv None exWorld0).
  - reflexivity.
  - by destruct (executeWorkflow exEnv None exWorld0).
Defined.

(** * Further properties

    Properties of the parts of the store, and of its callers, that the
    preceding sections do not reach. *)

Section more_properties.

Context {number : Type} `{!JsRuntime number}.

#[local] Abbreviation JsVal := (Val number).
#[local] Abbreviation Node := (WorkflowNode (number:=number)).
#[local] Abbreviation Edge := WorkflowEdge.
#[local] Abbreviation SState := (SortState (number:=number)).
#[local] Abbreviation Store := (Store (number:=number)).
#[local] Abbreviation World := (World (number:=number)).
#[local] Abbreviation Env := (Env (number:=number)).

Implicit Types (st : SState) (n node : Node) (e : Edge) (nodeId : string)
  (s : Store) (w : World) (env : Env) (patch : gmap string JsVal).

Ltac unfold_executors :=
  unfold executeNode, executeAnnotation, executeNanoBanana,
    executeLlmGenerate, executeSplitGrid, executeOutput in *.

(** ** The sort on arbitrary graphs *)

Lemma visitAll_thrown {A} (nodes : list Node) (edges : list Edge)
    (g : A → string) fuel (Q : string → Prop)
    (pre : string → gset string → Prop) :
  (∀ nodeId st c, sortInv nodes edges st → pre nodeId (visiting st) →
     visit fuel nodes edges nodeId st = Thrown c → Q c) →
  ∀ (l : list A) st c, sortInv nodes edges st →
    (∀ x, x ∈ l → pre (g x) (visiting st)) →
    forEachM (λ x, visit fuel nodes edges (g x)) l st = Thrown c → Q c.
Proof.
  intros Hone l. induction l as [|x l IHl]; intros st c Hinv Hpre Hrun;
    simpl in Hrun; [done|].
  assert (pre (g x) (visiting st)) as Hx by (apply Hpre; left).
  destruct (visit fuel nodes edges (g x) st) as [|c'|st1] eqn:E; [done| |].
  - simplify_eq. by eapply Hone.
  - destruct (visit_Done _ _ _ _ _ _ E Hinv) as (Hinv1 & [Hg1 _] & _).
    eapply IHl; [done| |done]. intros y Hy. rewrite Hg1. apply Hpre. by right.
Qed.

Lemma visit_thrown_on_cycle (nodes : list Node) (edges : list Edge) fuel :
  ∀ nodeId st c, sortInv nodes edges st →
  (∀ v, v ∈ visiting st → tc (edgeRel edges) nodeId v) →
  visit fuel nodes edges nodeId st = Thrown c → tc (edgeRel edges) c c.
Proof.
  induction fuel as [|fuel IH]; intros nodeId st c Hinv Hpath Hc; [done|].
  simpl in Hc.
  destruct (decide (nodeId ∈ visited st)) as [Hv|Hv]; [done|].
  destruct (decide (nodeId ∈ visiting st)) as [Hg|Hg].
  { simplify_eq. by apply Hpath. }
  set (st1 := mkSort (sorted st) (visited st) ({[nodeId]} ∪ visiting st)) in *.
  assert (sortInv nodes edges st1) as Hinv1.
  { destruct Hinv as (H1 & H2 & H3 & H4 & H5 & H6).
    unfold sortInv. split_and!; simpl; try done. clear -H1 Hv. set_solver. }
  destruct (forEachM _ (incoming edges nodeId) st1) as [|c'|st2] eqn:E;
    try done.
  simplify_eq.
  eapply (visitAll_thrown nodes edges edge_source fuel
            (λ c, tc (edgeRel edges) c c)
            (λ i V, ∀ v, v ∈ V → tc (edgeRel edges) i v) IH
            (incoming edges nodeId) st1 c Hinv1); [|done].
  intros e He v Hv'. subst st1. simpl in Hv'.
  unfold incoming in He. apply list_elem_of_filter in He as [Ht He].
  assert (edgeRel edges (edge_source e) nodeId) as Hedge by (by exists e).
  apply elem_of_union in Hv' as [Hv'|Hv'].
  - apply elem_of_singleton in Hv' as ->. by apply tc_once.
  - eapply tc_l; [done|]. by apply Hpath.
Qed.

(** X1. On every graph, whatever its ids and edges, the sort ends: it
    returns an order, or it throws at a node that lies on a cycle of the
    edges. *)
Theorem topoSort_order_or_cycle (nodes : list Node) (edges : list Edge) :
  (∃ order, topoSort nodes edges = Done order) ∨
  (∃ c, topoSort nodes edges = Thrown c ∧ tc (edgeRel edges) c c).
Proof.
  pose proof (topoSort_total nodes edges) as Htot.
  destruct (topoSort nodes edges) as [|c|order] eqn:Hrun;
    [done| |by left; eexists].
  right. exists c. split; [done|].
  unfold topoSort in Hrun.
  destruct (forEachM _ nodes _) as [|c'|st] eqn:E; try done.
  simplify_eq.
  eapply (visitAll_thrown nodes edges (node_id (number:=number))
            (topoFuel nodes edges) (λ c, tc (edgeRel edges) c c)
            (λ i V, ∀ v, v ∈ V → tc (edgeRel edges) i v)
            (visit_thrown_on_cycle nodes edges _) nodes _ c
            (sortInv_init nodes edges)); [|done].
  intros n _ v Hv. by apply not_elem_of_empty in Hv.
Qed.

(** X2. When the sort succeeds, on any graph, the order lists every node id
    exactly once and places sources before targets; of several nodes with
    one id only the first is kept, so the order is no longer than the node
    list. *)
Theorem topoSort_order_general (nodes : list Node) (edges : list Edge) order :
  topoSort nodes edges = Done order →
  NoDup (map node_id order) ∧
  (∀ n, n ∈ nodes → node_id n ∈ map node_id order) ∧
  (∀ n, n ∈ order → findNode nodes (node_id n) = Some n) ∧
  respectsEdges edges order ∧
  length order ≤ length nodes.
Proof.
  intros Hrun.
  destruct (topoSort_Done nodes edges order Hrun) as (Hresp & Hnd & Hfind & Hall).
  split_and!; try done.
  assert (order ⊆+ nodes) as Hsub.
  { apply NoDup_submseteq.
    - eapply NoDup_fmap_1, Hnd.
    - intros n Hn. by apply (findNode_Some nodes (node_id n)), Hfind. }
  by apply submseteq_length.
Qed.

(** ** Validation failures of the executors *)

Section executors.

Variable env : Env.
Variable snapEdges : list Edge.
Variable snapGroups : gmap string NodeGroup.
Variable isResuming : bool.
Variable startFromNodeId : option string.

#[local] Abbreviation loop :=
  (execLoop env snapEdges snapGroups isResuming startFromNodeId).

#[local] Abbreviation pauses node :=
  (pausesAt snapEdges isResuming startFromNodeId node).

Lemma getConnectedInputs_enterNode node w nodeId :
  getConnectedInputs (store (enterNode node w)) nodeId =
  getConnectedInputs (store w) nodeId.
Proof. by apply getConnectedInputs_ext. Qed.

Lemma executedIds_entered node w w' evs :
  console w' = console (enterNode node w) ++ evs → executedIds evs = [] →
  executedIds (eventsSince w w') = [node_id node].
Proof.
  intros Hc Hevs.
  erewrite eventsSince_app; [|rewrite Hc; simpl; by rewrite <- app_assoc].
  simpl. by rewrite Hevs.
Qed.

(** X3. A generate or LLM node whose resolved text is null or the empty
    string is reported as missing its input: the node gets status
    ["error"] with the message of its kind, no request is sent, and the run
    returns at once with the running flag cleared. *)
Theorem empty_text_halts node rest w :
  node_type node = nanoBanana ∨ node_type node = llmGenerate →
  isRunning (store w) = true → pauses node = false →
  inLockedGroup snapGroups node = false →
  truthy (snd (getConnectedInputs (store w) (node_id node))) = None →
  ∃ w', loop (node :: rest) w = Returned ExitNodeError w' ∧
    nodes (store w') =
      map (mergeData (node_id node)
             {[ "status" := VStr "error";
                "error" :=
                  VStr (if decide (node_type node = nanoBanana)
                        then "Missing image or text input"
                        else "Missing text input") ]})
        (nodes (store w)) ∧
    executedIds (eventsSince w w') = [node_id node] ∧
    calls w' = calls w ∧ tick w' = tick w ∧
    isRunning (store w') = false ∧ currentNodeId (store w') = None.
Proof.
  intros Hty Hrun Hp Hl Htext.
  rewrite execLoop_executes by done.
  rewrite <- (getConnectedInputs_enterNode node) in Htext.
  unfold executeNode, executeNanoBanana, executeLlmGenerate.
  destruct Hty as [Hty|Hty]; rewrite Hty;
    destruct (getConnectedInputs _ _) as [images text]; simpl in Htext;
    rewrite Htext.
  - rewrite decide_True by done.
    eexists. split; [by destruct images|].
    split_and!; try done.
    by eapply (executedIds_entered node w _ [_]).
  - rewrite decide_False by done.
    eexists. split; [done|].
    split_and!; try done.
    by eapply (executedIds_entered node w _ [_]).
Qed.

(** X4. A grid-split node with no truthy first image, or one that is not
    configured, fails before the splitter is consulted: it gets status
    ["error"] with the matching message (the image is checked first), its
    children keep their data, and the run returns at once. *)
Theorem splitGrid_unready_halts node rest w :
  node_type node = splitGrid →
  isRunning (store w) = true → pauses node = false →
  inLockedGroup snapGroups node = false →
  let noImage :=
    truthy (head (fst (getConnectedInputs (store w) (node_id node)))) in
  noImage = None ∨ boolField (node_data node) "isConfigured" = false →
  ∃ w', loop (node :: rest) w = Returned ExitNodeError w' ∧
    nodes (store w') =
      map (mergeData (node_id node)
             {[ "status" := VStr "error";
                "error" :=
                  VStr (match noImage with
                        | None => "No input image connected"
                        | Some _ => "Node not configured - open settings first"
                        end) ]})
        (nodes (store w)) ∧
    executedIds (eventsSince w w') = [node_id node] ∧
    calls w' = calls w ∧ tick w' = tick w ∧
    isRunning (store w') = false ∧ currentNodeId (store w') = None.
Proof.
  intros Hty Hrun Hp Hl noImage Hbad. subst noImage.
  rewrite execLoop_executes by done.
  rewrite <- (getConnectedInputs_enterNode node) in Hbad |- *.
  unfold executeNode, executeSplitGrid. rewrite Hty.
  destruct (truthy (head (fst (getConnectedInputs _ _)))) as [img|] eqn:Himg.
  - destruct Hbad as [?|Hconf]; [done|]. rewrite Hconf. simpl.
    eexists. split; [done|]. split_and!; try done.
    by eapply (executedIds_entered node w _ []); [rewrite app_nil_r|].
  - eexists. split; [done|]. split_and!; try done.
    by eapply (executedIds_entered node w _ []); [rewrite app_nil_r|].
Qed.

End executors.

(** ** What the executors write *)

Section writes.

Lemma findNode_absent (l : list Node) m :
  findNode l m = None ↔ m ∉ map node_id l.
Proof.
  unfold findNode. split.
  - intros Hf (n & Hid & Hn)%list_elem_of_fmap.
    destruct (list_find _ l) as [[i x]|] eqn:E; simplify_eq/=.
    rewrite list_find_None, Forall_forall in E. by apply (E n).
  - intros Hm. destruct (list_find _ l) as [[i x]|] eqn:E; [|done].
    apply list_find_Some in E as (Hi & Hx & _). exfalso. apply Hm.
    apply list_elem_of_fmap. exists x. split; [done|].
    by eapply list_elem_of_lookup_2.
Qed.

Lemma findNode_keeps_eq m (l l' : list Node) :
  keepsNode m l l' → findNode l' m = findNode l m.
Proof.
  intros Hk. destruct (findNode l m) as [n|] eqn:E.
  - by eapply findNode_keeps.
  - apply findNode_absent. destruct Hk as [-> _]. by apply findNode_absent.
Qed.

Lemma mergeData_data nodeId patch n k :
  patch !! k = None →
  node_data (mergeData nodeId patch n) !! k = node_data n !! k.
Proof.
  intros Hk. unfold mergeData. destruct (decide _); [|done]. simpl.
  rewrite lookup_union_r; done.
Qed.

Lemma mergeData_patch nodeId patch n k v :
  node_id n = nodeId → patch !! k = Some v →
  node_data (mergeData nodeId patch n) !! k = Some v.
Proof.
  intros Hid Hk. unfold mergeData. rewrite decide_True by done. simpl.
  by apply lookup_union_Some_l.
Qed.

Lemma mergeData_type nodeId patch n :
  node_type (mergeData nodeId patch n) = node_type n.
Proof. unfold mergeData. by destruct (decide _). Qed.

Lemma mergeData_groupId nodeId patch n :
  node_groupId (mergeData nodeId patch n) = node_groupId n.
Proof. unfold mergeData. by destruct (decide _). Qed.

Lemma getNodeById_awaitReply env w nodeId :
  getNodeById (store (awaitReply env w)) nodeId = getNodeById (store w) nodeId.
Proof. unfold getNodeById. by rewrite nodes_awaitReply. Qed.

Lemma populateChild_congr env gridCols cells index childSet s s' child :
  getNodeById s' child = getNodeById s child →
  getNodeById (populateChild env gridCols cells index childSet s') child =
  getNodeById (populateChild env gridCols cells index childSet s) child.
Proof.
  intros Heq. unfold populateChild.
  repeat case_match; try done.
  rewrite !getNodeById_update. by rewrite Heq.
Qed.

Lemma store_onStore (f : Store → Store) w : store (onStore f w) = f (store w).
Proof. done. Qed.

Lemma populateChildren_cons env gridCols cells index childSet children s :
  populateChildren env gridCols cells index (childSet :: children) s =
  populateChildren env gridCols cells (S index) children
    (populateChild env gridCols cells index childSet s).
Proof. done. Qed.

(** The child named at position [i] only is written by round [i] only. *)
Lemma populateChildren_unique env gridCols cells child childSet :
  ∀ children index s i,
  children !! i = Some childSet → childImageInput childSet = Some child →
  (∀ j cs, children !! j = Some cs → childImageInput cs = Some child → j = i) →
  getNodeById (populateChildren env gridCols cells index children s) child =
  getNodeById (populateChild env gridCols cells (index + i) childSet s) child.
Proof.
  induction children as [|cs0 children IH]; intros index s i Hi Hc Huniq;
    [done|].
  rewrite populateChildren_cons. destruct i as [|i]; simpl in Hi.
  - simplify_eq. rewrite Nat.add_0_r.
    apply findNode_keeps_eq, keepsNode_populateChildren.
    intros (cs & [j Hj]%list_elem_of_lookup & Hcs)%list_elem_of_omap.
    by specialize (Huniq (S j) cs Hj Hcs).
  - rewrite (IH (S index) _ i Hi Hc).
    + replace (S index + i) with (index + S i) by lia.
      apply populateChild_congr, findNode_keeps_eq, keepsNode_populateChild.
      simpl. destruct (childImageInput cs0) as [c0|] eqn:E0;
        [|by intros ?%elem_of_nil].
      intros ->%list_elem_of_singleton.
      by specialize (Huniq 0 cs0 eq_refl E0).
    + intros j cs Hj Hcs. specialize (Huniq (S j) cs Hj Hcs). lia.
Qed.

(** X5. When the splitter has replied with its cells, what a grid split does
    depends on the [childNodeIds] field of the node. Where the field is
    there (and not [null]) and none of its elements is [null] or
    [undefined], the split completes and cell [i] is written into the child
    named at position [i] (image, file name and decoded dimensions),
    provided the cell is non-empty and decodes; a child whose cell is
    missing, empty or undecodable is left as it was. The child is one
    named at that position only, and other than the split node. Where the
    field is absent or [null], reading its length throws: the node ends in
    error with the message of that [TypeError], the run flags are cleared,
    and no other node is written. *)
Theorem splitGrid_fills_children env node w sourceImage cells :
  node_type node = splitGrid →
  truthy (head (fst (getConnectedInputs (store w) (node_id node))))
    = Some sourceImage →
  boolField (node_data node) "isConfigured" = true →
  env_split env (tick w) sourceImage (field (node_data node) "gridRows")
    (field (node_data node) "gridCols") = SplitImages cells →
  match arrayField (node_data node) "childNodeIds" with
  | Some children =>
      Forall (λ c, c ≠ VNull ∧ c ≠ VUndef) children →
      ∃ w', executeNode env node w = NodeDone w' ∧
        ∀ i childSet child n,
          children !! i = Some childSet →
          childImageInput childSet = Some child →
          (∀ j cs, children !! j = Some cs →
             childImageInput cs = Some child → j = i) →
          child ≠ node_id node →
          getNodeById (store w) child = Some n →
          match truthy (cells !! i)
                  ≫= (λ cell, pair cell <$> env_decode env cell) with
          | Some (cell, (width, height)) =>
              ∃ n', getNodeById (store w') child = Some n' ∧
                node_data n' !! "image" = Some (VStr cell) ∧
                node_data n' !! "filename" =
                  Some (VStr (splitFilename i
                                (field (node_data node) "gridCols"))) ∧
                node_data n' !! "dimensions" =
                  Some (VObj [("width", VNum width);
                              ("height", VNum height)]) ∧
                node_type n' = node_type n ∧ node_groupId n' = node_groupId n
          | None => getNodeById (store w') child = Some n
          end
  | None =>
      ∃ w', executeNode env node w = NodeFailed w' ∧
        isRunning (store w') = false ∧ currentNodeId (store w') = None ∧
        (∀ n, getNodeById (store w) (node_id node) = Some n →
           ∃ n', getNodeById (store w') (node_id node) = Some n' ∧
             node_data n' !! "status" = Some status_error ∧
             node_data n' !! "error" =
               Some (VStr (lengthErrorMessage
                             (field (node_data node) "childNodeIds")))) ∧
        ∀ m, m ≠ node_id node →
          getNodeById (store w') m = getNodeById (store w) m
  end.
Proof.
  intros Hty Himg Hconf Hsplit.
  unfold executeNode, executeSplitGrid. rewrite Hty, Himg, Hconf. simpl.
  rewrite Hsplit.
  set (w2 := awaitReply env _).
  assert (∀ m, getNodeById (store w2) m =
               mergeData (node_id node)
                 {[ "sourceImage" := VStr sourceImage;
                    "status" := status_loading;
                    "error" := VNull ]} <$> getNodeById (store w) m) as Hw2.
  { intros m. subst w2. rewrite getNodeById_awaitReply. simpl.
    by rewrite getNodeById_update. }
  clearbody w2.
  destruct (arrayField (node_data node) "childNodeIds") as [children|].
  - intros _. eexists. split; [done|].
    intros i childSet child n Hi Hc Huniq Hne Hn.
    assert (node_id n = child) as Hid.
    { unfold getNodeById in Hn. by apply findNode_Some in Hn as [_ ?]. }
    assert (∀ p, mergeData (node_id node) p n = n) as Hother.
    { intros p. unfold mergeData. rewrite decide_False; [done|congruence]. }
    assert (getNodeById (store w2) child = Some n) as Hn2.
    { rewrite Hw2, Hn. simpl. by rewrite Hother. }
    rewrite !store_onStore, getNodeById_update.
    rewrite (populateChildren_unique _ _ _ child childSet _ _ _ i Hi Hc Huniq).
    unfold populateChild. rewrite Nat.add_0_l.
    destruct (truthy (cells !! i)) as [cell|] eqn:Hcell; simpl;
      [|by rewrite Hn2; simpl; rewrite Hother].
    destruct (env_decode env cell) as [[width height]|] eqn:Hdec; simpl;
      [|by rewrite Hn2; simpl; rewrite Hother].
    rewrite Hc, getNodeById_update, Hn2. simpl.
    eexists. split; [done|].
    rewrite !mergeData_type, !mergeData_groupId.
    split_and!; try done;
      (rewrite mergeData_data by done; by apply mergeData_patch).
  - eexists. split; [done|].
    unfold failNode, logEvent. rewrite !store_onStore.
    split_and!; [done|done| |].
    + intros n Hn.
      assert (node_id n = node_id node) as Hid.
      { unfold getNodeById in Hn. by apply findNode_Some in Hn as [_ ?]. }
      change (getNodeById (stopWorkflow ?s) ?m) with (getNodeById s m).
      rewrite getNodeById_update, Hw2, Hn. simpl.
      eexists. split; [done|].
      split; apply mergeData_patch; try done.
      all: unfold mergeData; by destruct (decide _).
    + intros m Hm.
      change (getNodeById (stopWorkflow ?s) ?m) with (getNodeById s m).
      rewrite getNodeById_update, Hw2.
      destruct (getNodeById (store w) m) as [n|] eqn:Hn; [|done]. simpl.
      assert (node_id n = m) as Hid.
      { unfold getNodeById in Hn. by apply findNode_Some in Hn as [_ ?]. }
      unfold mergeData. rewrite !decide_False; [done|congruence|].
      rewrite decide_False; congruence.
Qed.

Lemma getNodeById_id s nodeId n :
  getNodeById s nodeId = Some n → node_id n = nodeId.
Proof. unfold getNodeById. by intros [_ ?]%findNode_Some. Qed.

(** X6. An annotation node passes its first connected image through, but
    never over a drawing it already holds: after its execution the node
    offers downstream its previous output image if it had one, else the
    incoming image. With no connected image nothing is written. *)
Theorem annotation_passes_image env node w :
  node_type node = annotation →
  getNodeById (store w) (node_id node) = Some node →
  ∃ w', executeNode env node w = NodeDone w' ∧
    match truthy (head (fst (getConnectedInputs (store w) (node_id node)))) with
    | Some image =>
        ∃ n', getNodeById (store w') (node_id node) = Some n' ∧
          node_data n' !! "sourceImage" = Some (VStr image) ∧
          sourceImageOf n' =
            Some (default image
                    (truthy (strField (node_data node) "outputImage")))
    | None => w' = w
    end.
Proof.
  intros Hty Hn. unfold executeNode, executeAnnotation. rewrite Hty.
  destruct (truthy (head _)) as [image|] eqn:Himg; [|by eexists].
  assert (image ≠ "") as Hne.
  { destruct (head _) as [i|]; simpl in Himg; [|done].
    destruct (decide (i = "")); by simplify_eq. }
  unfold sourceImageOf.
  destruct (truthy (strField (node_data node) "outputImage")) as [old|] eqn:Hold;
    eexists; (split; [done|]); simpl;
    rewrite ?getNodeById_update, Hn; simpl;
    eexists; (split; [done|]);
    rewrite ?mergeData_type, Hty.
  - split; [by apply mergeData_patch|].
    unfold strField in *. rewrite mergeData_data by done.
    destruct (node_data node !! "outputImage") as [[]|]; simpl in *; done.
  - split; [rewrite mergeData_data by done; by apply mergeData_patch|].
    unfold strField.
    erewrite mergeData_patch; [|by rewrite mergeData_id|done].
    simpl. by rewrite decide_False.
Qed.

(** X7. An output node never fails and sends nothing: it shows the first
    connected image when there is a non-empty one, keeping its other
    fields, and is left alone otherwise. *)
Theorem output_shows_first_image env node w :
  node_type node = output →
  getNodeById (store w) (node_id node) = Some node →
  ∃ w', executeNode env node w = NodeDone w' ∧
    console w' = console w ∧ calls w' = calls w ∧
    match truthy (head (fst (getConnectedInputs (store w) (node_id node)))) with
    | Some image =>
        ∃ n', getNodeById (store w') (node_id node) = Some n' ∧
          node_data n' !! "image" = Some (VStr image) ∧
          ∀ k, k ≠ "image" → node_data n' !! k = node_data node !! k
    | None => w' = w
    end.
Proof.
  intros Hty Hn. unfold executeNode, executeOutput. rewrite Hty.
  destruct (truthy (head _)) as [image|] eqn:Himg; [|by eexists].
  eexists. split; [done|]. split; [done|]. split; [done|].
  rewrite store_onStore, getNodeById_update, Hn. simpl.
  eexists. split; [done|]. split.
  - by apply mergeData_patch.
  - intros k Hk. apply mergeData_data. by rewrite lookup_singleton_ne.
Qed.

Lemma awaitReply_store env w :
  store (awaitReply env w) =
  (if env_stop env (tick w) then stopWorkflow (store w) else store w).
Proof. unfold awaitReply. by destruct (env_stop env (tick w)). Qed.

Lemma awaitReply_localCosts env w : localCosts (awaitReply env w) = localCosts w.
Proof. unfold awaitReply. by destruct (env_stop env (tick w)). Qed.

Lemma awaitReply_tick env w : tick (awaitReply env w) = S (tick w).
Proof. unfold awaitReply. by destruct (env_stop env (tick w)). Qed.

Lemma history_awaitReply env w :
  globalImageHistory (store (awaitReply env w)) = globalImageHistory (store w).
Proof. rewrite awaitReply_store. by destruct (env_stop env (tick w)). Qed.

Lemma populateChild_others env gridCols cells index childSet s :
  sameButNodes s (populateChild env gridCols cells index childSet s).
Proof.
  unfold populateChild, sameButNodes. by repeat case_match.
Qed.

Lemma populateChildren_others env gridCols cells children : ∀ index s,
  sameButNodes s (populateChildren env gridCols cells index children s).
Proof.
  induction children as [|cs children IH]; intros index s; [done|].
  rewrite populateChildren_cons.
  pose proof (populateChild_others env gridCols cells index cs s) as H1.
  pose proof (IH (S index) (populateChild env gridCols cells index cs s)) as H2.
  unfold sameButNodes in *. destruct_and!. split_and!; congruence.
Qed.

(** X8. Only a generation that succeeds is charged: the execution of a
    node of any other kind, and a generation that fails on any path, leave
    the cost total, the persisted totals and the global image history as
    they were. *)
Theorem no_charge_without_generation env node w :
  node_type node ≠ nanoBanana ∨ isDone (executeNode env node w) = false →
  let w' := resultWorld (executeNode env node w) in
  incurredCost (store w') = incurredCost (store w) ∧
  localCosts w' = localCosts w ∧
  globalImageHistory (store w') = globalImageHistory (store w).
Proof.
  intros Hcase. cbv zeta. revert Hcase. unfold_executors.
  destruct (node_type node); intros [Hty|Hfail]; try done;
    repeat (case_match; simpl in * ); try done;
    rewrite ?cost_awaitReply, ?awaitReply_localCosts, ?history_awaitReply;
    try done;
    rewrite ?awaitReply_store; repeat (case_match; simpl); try done;
    match goal with
    | |- context [populateChildren ?e ?g ?c ?i ?l ?s] =>
        pose proof (populateChildren_others e g c l i s) as Hs;
        unfold sameButNodes in Hs; destruct_and!
    end;
    split_and!; try done; congruence.
Qed.

Lemma populateChild_flags env env' gridCols cells index childSet s s' :
  env_decode env = env_decode env' → sameButFlags s s' →
  sameButFlags (populateChild env gridCols cells index childSet s)
    (populateChild env' gridCols cells index childSet s').
Proof.
  intros Hdec Hs. unfold populateChild. rewrite Hdec.
  repeat case_match; try done;
    unfold sameButFlags, updateNodeData, withNodes in *; simpl;
    destruct_and!; split_and!; congruence.
Qed.

Lemma populateChildren_flags env env' gridCols cells children :
  env_decode env = env_decode env' → ∀ index s s', sameButFlags s s' →
  sameButFlags (populateChildren env gridCols cells index children s)
    (populateChildren env' gridCols cells index children s').
Proof.
  intros Hdec. induction children as [|cs children IH]; intros index s s' Hs;
    [done|].
  rewrite !populateChildren_cons. by apply IH, populateChild_flags.
Qed.

Lemma updateNodeData_flags nodeId patch s s' :
  sameButFlags s s' →
  sameButFlags (updateNodeData nodeId patch s) (updateNodeData nodeId patch s').
Proof.
  unfold sameButFlags, updateNodeData, withNodes. simpl.
  intros. destruct_and!. split_and!; congruence.
Qed.

Lemma awaitReply_flags env env' w :
  agreeButFlags (awaitReply env w) (awaitReply env' w).
Proof.
  unfold agreeButFlags, sameButFlags, awaitReply.
  by destruct (env_stop env (tick w)), (env_stop env' (tick w)).
Qed.

Lemma generateSuccess_flags env env' node text image w w' :
  env_now env = env_now env' → env_globalId env = env_globalId env' →
  agreeButFlags w w' →
  agreeButFlags (generateSuccess env node text image w)
    (generateSuccess env' node text image w').
Proof.
  intros Hnow Hid (Hs & Hc & Hcalls & Hl & Ht).
  unfold sameButFlags in Hs. destruct_and!.
  unfold generateSuccess, addIncurredCost, persistCost, agreeButFlags,
    sameButFlags, globalItem.
  cbv zeta. simpl. rewrite Hnow, Hid, Ht.
  repeat (case_match; simpl in * ); simplify_eq; split_and!; congruence.
Qed.

Lemma failNode_flags nodeId msg w w' :
  agreeButFlags w w' → agreeButFlags (failNode nodeId msg w) (failNode nodeId msg w').
Proof.
  intros (Hs & Hc & Hcalls & Hl & Ht).
  unfold sameButFlags in Hs. destruct_and!.
  unfold agreeButFlags, sameButFlags, failNode. simpl.
  split_and!; congruence.
Qed.

Lemma logEvent_flags ev w w' :
  agreeButFlags w w' → agreeButFlags (logEvent ev w) (logEvent ev w').
Proof.
  intros (Hs & Hc & Hcalls & Hl & Ht).
  unfold agreeButFlags. simpl. split_and!; congruence.
Qed.

Lemma onStore_flags (f g : Store → Store) w w' :
  (∀ s s', sameButFlags s s' → sameButFlags (f s) (g s')) →
  agreeButFlags w w' → agreeButFlags (onStore f w) (onStore g w').
Proof.
  intros Hf (Hs & Hc & Hcalls & Hl & Ht).
  unfold agreeButFlags. simpl. split_and!; try done. by apply Hf.
Qed.

Lemma agreeButFlags_refl w : agreeButFlags w w.
Proof. by unfold agreeButFlags, sameButFlags. Qed.

(** X9. A stop that arrives while a request is in flight does not cancel
    the node: against two environments that answer alike and differ only
    in when stop is pressed, the execution of a node ends the same way and
    leaves the same nodes, cost, history, log and requests; only the two
    run flags can differ. *)
Theorem in_flight_stop_keeps_result env env' node w :
  sameReplies env env' →
  isDone (executeNode env node w) = isDone (executeNode env' node w) ∧
  agreeButFlags (resultWorld (executeNode env node w))
    (resultWorld (executeNode env' node w)).
Proof.
  intros (Hgen & Hllm & Hsplit & Hdec & Hnow & Hid).
  unfold_executors. rewrite <- Hgen, <- Hllm, <- Hsplit. cbv zeta.
  destruct (node_type node); try (split; [done|apply agreeButFlags_refl]);
    repeat (case_match; cbv beta iota);
    cbv beta iota delta [isDone resultWorld];
    (split; [reflexivity|]);
    repeat match goal with
      | |- agreeButFlags ?a ?b => constr_eq a b; apply agreeButFlags_refl
      | |- agreeButFlags (failNode _ _ _) (failNode _ _ _) =>
          apply failNode_flags
      | |- agreeButFlags (logEvent _ _) (logEvent _ _) => apply logEvent_flags
      | |- agreeButFlags (generateSuccess _ _ _ _ _) _ =>
          apply generateSuccess_flags; [exact Hnow|exact Hid|]
      | |- agreeButFlags (onStore (updateNodeData _ _) _) _ =>
          apply onStore_flags; [intros ???; by apply updateNodeData_flags|]
      | |- agreeButFlags (onStore (populateChildren _ _ _ _ _) _) _ =>
          apply onStore_flags; [intros ???; by apply populateChildren_flags|]
      | |- agreeButFlags (awaitReply _ _) (awaitReply _ _) =>
          apply awaitReply_flags
      end.
Qed.

Lemma truthy_Some (o : option string) x : truthy o = Some x → o = Some x ∧ x ≠ "".
Proof.
  destruct o as [y|]; simpl; [|done].
  destruct (decide (y = "")); [done|]. by intros [= ->].
Qed.

Lemma offered_in_inputs s e image :
  e ∈ edges s → isImageHandle (edge_targetHandle e) = true →
  offeredImage (nodes s) e = Some image →
  image ∈ fst (getConnectedInputs s (edge_target e)).
Proof.
  intros He Hh Himg. unfold getConnectedInputs.
  rewrite foldl_collectInput_images. simpl.
  apply list_elem_of_omap. exists e. split; [|done].
  apply list_elem_of_filter. split; [done|].
  unfold incoming. by apply list_elem_of_filter.
Qed.

Lemma executeNanoBanana_success env node w w' :
  executeNanoBanana env node w = NodeDone w' →
  ∃ text image wr patch,
    w' = generateSuccess env node text image wr ∧ image ≠ "" ∧
    nodes (store wr) = map (mergeData (node_id node) patch) (nodes (store w)) ∧
    edges (store wr) = edges (store w).
Proof.
  unfold executeNanoBanana. intros Hrun.
  destruct (getConnectedInputs _ _) as [images text].
  destruct images as [|img images]; [by destruct (truthy text)|].
  destruct (truthy text) as [text'|]; [|done].
  cbv zeta in Hrun.
  destruct (env_generate _ _ _) as [|?|success image err]; try done.
  destruct success; [|done].
  destruct (truthy image) as [image'|] eqn:Himg; [|done]. simplify_eq.
  apply truthy_Some in Himg as [_ Hne].
  eexists text', image', _, _. split; [done|]. split; [done|].
  rewrite awaitReply_store. by destruct (env_stop env _).
Qed.

(** X10. A generation that succeeds makes its image available downstream:
    the node ends with status ["complete"] and a null error, it offers the
    generated image on every edge that leaves it, and every node reached
    by such an edge on an image handle resolves that image among its
    inputs. *)
Theorem generated_image_feeds_downstream env node w w' :
  node_type node = nanoBanana →
  getNodeById (store w) (node_id node) = Some node →
  executeNode env node w = NodeDone w' →
  ∃ image n',
    image ≠ "" ∧
    getNodeById (store w') (node_id node) = Some n' ∧
    node_data n' !! "status" = Some (VStr "complete") ∧
    node_data n' !! "error" = Some VNull ∧
    sourceImageOf n' = Some image ∧
    (∀ e, edge_source e = node_id node →
       offeredImage (nodes (store w')) e = Some image) ∧
    (∀ e, e ∈ edges (store w') → edge_source e = node_id node →
       isImageHandle (edge_targetHandle e) = true →
       image ∈ fst (getConnectedInputs (store w') (edge_target e))).
Proof.
  intros Hty Hn Hrun. unfold executeNode in Hrun. rewrite Hty in Hrun.
  destruct (executeNanoBanana_success _ _ _ _ Hrun)
    as (text & image & wr & patch & -> & Hne & Hwr & _).
  set (w' := generateSuccess env node text image wr).
  assert (∃ n', getNodeById (store w') (node_id node) = Some n' ∧
            node_data n' !! "status" = Some (VStr "complete") ∧
            node_data n' !! "error" = Some VNull ∧
            node_data n' !! "outputImage" = Some (VStr image) ∧
            node_type n' = nanoBanana) as (n' & Hn' & Hst & Herr & Hout & Hty').
  { subst w'. rewrite store_generateSuccess.
    unfold addCost, getNodeById. simpl. rewrite findNode_merge. simpl.
    rewrite Hwr, findNode_merge.
    unfold getNodeById in Hn. rewrite Hn. simpl.
    eexists. split; [done|].
    rewrite !mergeData_type.
    split_and!; [| | |done];
      (apply mergeData_patch; [by rewrite mergeData_id|by simplify_map_eq]). }
  assert (sourceImageOf n' = Some image) as Hsrc.
  { unfold sourceImageOf, strField. rewrite Hty', Hout. simpl.
    by rewrite decide_False. }
  assert (∀ e, edge_source e = node_id node →
            offeredImage (nodes (store w')) e = Some image) as Hoff.
  { intros e He. unfold offeredImage. rewrite He.
    unfold getNodeById in Hn'. by rewrite Hn'. }
  exists image, n'. split_and!; try done.
  intros e He Hsrc' Hh. apply offered_in_inputs; [done..|]. by apply Hoff.
Qed.

(** X11. An LLM node with a non-empty resolved text sends one request
    carrying that text (and the images only when there are some); when the
    service answers with a non-empty text, the node stores it as
    [outputText] with status ["complete"], and offers it to the text
    inputs downstream. *)
Theorem llm_success_writes_text env node w images text out err :
  node_type node = llmGenerate →
  getNodeById (store w) (node_id node) = Some node →
  getConnectedInputs (store w) (node_id node) = (images, Some text) →
  text ≠ "" → out ≠ "" →
  env_llm env (tick w) (llmRequest (node_data node) images text)
    = ReplyJson true (Some out) err →
  ∃ w' n',
    executeNode env node w = NodeDone w' ∧
    callsSince w w' = [CallLlm (llmRequest (node_data node) images text)] ∧
    llm_prompt (llmRequest (node_data node) images text) = text ∧
    (llm_images (llmRequest (node_data node) images text) = None ↔ images = []) ∧
    getNodeById (store w') (node_id node) = Some n' ∧
    node_data n' !! "outputText" = Some (VStr out) ∧
    node_data n' !! "status" = Some (VStr "complete") ∧
    node_data n' !! "inputPrompt" = Some (VStr text) ∧
    ∀ earlier, sourceTextOf n' earlier = Some out.
Proof.
  intros Hty Hn Hin Htext Hout Hreply.
  unfold executeNode, executeLlmGenerate. rewrite Hty, Hin. simpl.
  rewrite decide_False by done. rewrite Hreply. simpl.
  rewrite decide_False by done.
  set (w3 := awaitReply env _).
  eexists _, _. split; [done|].
  assert (calls w3 = calls w ++ [CallLlm (llmRequest (node_data node) images text)])
    as Hcalls by (subst w3; by rewrite calls_awaitReply).
  assert (getNodeById (store w3) (node_id node) =
          Some (mergeData (node_id node)
                  {[ "inputPrompt" := VStr text;
                     "inputImages" := VArr (VStr <$> images);
                     "status" := status_loading;
                     "error" := VNull ]} node)) as Hn3.
  { subst w3. rewrite getNodeById_awaitReply. simpl.
    by rewrite getNodeById_update, Hn. }
  clearbody w3. simpl.
  rewrite getNodeById_update, Hn3. simpl.
  split_and!; try done.
  - by apply callsSince_app.
  - by destruct images.
  - apply mergeData_patch; [by rewrite mergeData_id|by simplify_map_eq].
  - apply mergeData_patch; [by rewrite mergeData_id|by simplify_map_eq].
  - rewrite mergeData_data by done.
    apply mergeData_patch; [done|by simplify_map_eq].
  - intros earlier. unfold sourceTextOf, strField.
    rewrite !mergeData_type, Hty.
    rewrite (mergeData_patch _ _ _ "outputText" (VStr out));
      [done|by rewrite mergeData_id|by simplify_map_eq].
Qed.

End writes.

(** ** Whole runs *)

Section more_runs.

Lemma map_mergeData_id nodeId patch (l : list Node) :
  map node_id (map (mergeData nodeId patch) l) = map node_id l.
Proof. rewrite map_map. apply map_ext. intros n. apply mergeData_id. Qed.

Lemma map_mergeData_type nodeId patch (l : list Node) :
  map node_type (map (mergeData nodeId patch) l) = map node_type l.
Proof. rewrite map_map. apply map_ext. intros n. apply mergeData_type. Qed.

Lemma map_mergeData_groupId nodeId patch (l : list Node) :
  map node_groupId (map (mergeData nodeId patch) l) = map node_groupId l.
Proof. rewrite map_map. apply map_ext. intros n. apply mergeData_groupId. Qed.

Lemma sameGraph_refl s : sameGraph s s.
Proof. by unfold sameGraph. Qed.

Lemma sameGraph_trans s1 s2 s3 :
  sameGraph s1 s2 → sameGraph s2 s3 → sameGraph s1 s3.
Proof.
  unfold sameGraph. intros ??. destruct_and!. split_and!; congruence.
Qed.

(** What a run keeps: the graph, and where the previous run paused. *)
#[local] Abbreviation keepsGraph s s' :=
  (sameGraph s s' ∧ pausedAtNodeId s' = pausedAtNodeId s).

Lemma keepsGraph_refl s : keepsGraph s s.
Proof. by unfold sameGraph. Qed.

Lemma keepsGraph_trans s1 s2 s3 :
  keepsGraph s1 s2 → keepsGraph s2 s3 → keepsGraph s1 s3.
Proof.
  unfold sameGraph. intros ??. destruct_and!. split_and!; congruence.
Qed.

Lemma keepsGraph_update s nodeId patch s' :
  keepsGraph s s' → keepsGraph s (updateNodeData nodeId patch s').
Proof.
  intros Hk. eapply keepsGraph_trans; [done|].
  unfold sameGraph, updateNodeData, withNodes. simpl.
  by rewrite map_mergeData_id, map_mergeData_type, map_mergeData_groupId.
Qed.

Lemma keepsGraph_populateChild env gridCols cells index childSet s :
  keepsGraph s (populateChild env gridCols cells index childSet s).
Proof.
  unfold populateChild. repeat case_match; try apply keepsGraph_refl.
  - apply keepsGraph_update, keepsGraph_refl.
  - by unfold sameGraph.
Qed.

Lemma keepsGraph_populateChildren env gridCols cells children : ∀ index s,
  keepsGraph s (populateChildren env gridCols cells index children s).
Proof.
  induction children as [|cs children IH]; intros index s.
  - apply keepsGraph_refl.
  - rewrite populateChildren_cons.
    eapply keepsGraph_trans; [apply keepsGraph_populateChild|apply IH].
Qed.

Lemma keepsGraph_flags s running current s' :
  keepsGraph s s' →
  keepsGraph s (withRun running current (pausedAtNodeId s') s').
Proof. intros Hk. eapply keepsGraph_trans; [done|]. by unfold sameGraph. Qed.

Lemma keepsGraph_awaitReply env s w :
  keepsGraph s (store w) → keepsGraph s (store (awaitReply env w)).
Proof.
  intros Hk. rewrite awaitReply_store. destruct (env_stop env (tick w)); [|done].
  by apply keepsGraph_flags.
Qed.

Lemma keepsGraph_failNode s nodeId msg w :
  keepsGraph s (store w) → keepsGraph s (store (failNode nodeId msg w)).
Proof.
  intros Hk. unfold failNode. rewrite store_onStore.
  by apply (keepsGraph_flags _ false None), keepsGraph_update.
Qed.

Lemma keepsGraph_generateSuccess s env node text image w :
  keepsGraph s (store w) →
  keepsGraph s (store (generateSuccess env node text image w)).
Proof.
  intros Hk. rewrite store_generateSuccess.
  eapply keepsGraph_trans; [apply keepsGraph_update|by unfold sameGraph].
  eapply keepsGraph_trans; [done|by unfold sameGraph].
Qed.

Lemma executeNode_keepsGraph env node w :
  keepsGraph (store w) (store (resultWorld (executeNode env node w))).
Proof.
  unfold_executors. cbv zeta.
  destruct (node_type node); try apply keepsGraph_refl;
    repeat (case_match; cbv beta iota);
    cbv beta iota delta [resultWorld];
    repeat match goal with
      | |- keepsGraph ?a (store ?b) => constr_eq a (store b); apply keepsGraph_refl
      | |- keepsGraph _ (store (failNode _ _ _)) => apply keepsGraph_failNode
      | |- keepsGraph _ (store (logEvent _ ?w)) =>
          change (store (logEvent _ w)) with (store w)
      | |- keepsGraph _ (store (fetchCall _ ?w)) =>
          change (store (fetchCall _ w)) with (store w)
      | |- keepsGraph _ (store (generateSuccess _ _ _ _ _)) =>
          apply keepsGraph_generateSuccess
      | |- keepsGraph _ (store (onStore (updateNodeData _ _) _)) =>
          rewrite store_onStore; apply keepsGraph_update
      | |- keepsGraph _ (store (onStore (populateChildren _ _ _ _ _) _)) =>
          rewrite store_onStore;
          eapply keepsGraph_trans; [|apply keepsGraph_populateChildren]
      | |- keepsGraph _ (store (awaitReply _ _)) => apply keepsGraph_awaitReply
      end.
Qed.

Section loop_facts.

Variable env : Env.
Variable snapEdges : list Edge.
Variable snapGroups : gmap string NodeGroup.
Variable isResuming : bool.
Variable startFromNodeId : option string.

#[local] Abbreviation loop :=
  (execLoop env snapEdges snapGroups isResuming startFromNodeId).

#[local] Abbreviation pauses node :=
  (pausesAt snapEdges isResuming startFromNodeId node).

(** The loop executes the nodes it is given in their order, each at most
    once. *)
Lemma execLoop_sublist rest : ∀ w,
  ∃ evs, console (worldOf (loop rest w)) = console w ++ evs ∧
    executedIds evs `sublist_of` map node_id rest.
Proof.
  induction rest as [|node rest IH]; intros w; simpl.
  { exists []. by rewrite app_nil_r. }
  destruct (isRunning (store w)); simpl.
  2:{ exists []. rewrite app_nil_r. split; [done|]. apply sublist_nil_l. }
  destruct (pauses node) eqn:Hp.
  { exists [LogPaused (node_id node)]. split; [done|]. apply sublist_nil_l. }
  destruct (inLockedGroup snapGroups node) eqn:Hl.
  { destruct (IH (logEvent (LogSkipLocked (node_id node)) w))
      as (evs & Hevs & Hex).
    exists (LogSkipLocked (node_id node) :: evs). split.
    - rewrite Hevs. simpl. by rewrite <- app_assoc.
    - simpl. by apply sublist_cons. }
  set (w1 := enterNode node w).
  destruct (executeNode_console env node w1) as (evs1 & Hevs1 & Hq1).
  assert (∃ evs, console (worldOf
            match executeNode env node w1 with
            | NodeDone w2 => loop rest w2
            | NodeFailed w2 => Returned ExitNodeError w2
            end) = console w1 ++ evs ∧
            executedIds evs `sublist_of` map node_id rest) as (evs & Hevs & Hex).
  { destruct (executeNode env node w1) as [w2|w2]; simpl in *.
    - destruct (IH w2) as (evs2 & Hevs2 & Hex2).
      exists (evs1 ++ evs2). split.
      + by rewrite Hevs2, Hevs1, <- app_assoc.
      + by rewrite executedIds_app, Hq1.
    - exists evs1. split; [done|]. rewrite Hq1. apply sublist_nil_l. }
  exists (LogExecuting (node_id node) (node_type node) :: evs). split.
  - rewrite Hevs. subst w1. unfold enterNode. simpl. by rewrite <- app_assoc.
  - simpl. by apply sublist_skip.
Qed.

Lemma execLoop_keepsGraph rest : ∀ w,
  sameGraph (store w) (store (worldOf (loop rest w))) ∧
  match loop rest w with
  | Returned ExitPaused w2 =>
      ∃ node, node ∈ rest ∧ pauses node = true ∧
        pausedAtNodeId (store w2) = Some (node_id node)
  | Finished w2 | Returned _ w2 =>
      pausedAtNodeId (store w2) = pausedAtNodeId (store w)
  end.
Proof.
  induction rest as [|node rest IH]; intros w; simpl.
  { by unfold sameGraph. }
  destruct (isRunning (store w)); simpl; [|by unfold sameGraph].
  destruct (pauses node) eqn:Hp.
  { split; [by unfold sameGraph|]. exists node. split; [by left|done]. }
  assert (∀ w0, sameGraph (store w) (store w0) →
            pausedAtNodeId (store w0) = pausedAtNodeId (store w) →
            sameGraph (store w) (store (worldOf (loop rest w0))) ∧
            match loop rest w0 with
            | Returned ExitPaused w2 =>
                ∃ n, n ∈ node :: rest ∧ pauses n = true ∧
                  pausedAtNodeId (store w2) = Some (node_id n)
            | Finished w2 | Returned _ w2 =>
                pausedAtNodeId (store w2) = pausedAtNodeId (store w)
            end) as Hnext.
  { intros w0 Hg Hpa. destruct (IH w0) as [Hg0 Hp0]. split.
    - by eapply sameGraph_trans.
    - destruct (loop rest w0) as [w2|[] w2]; try congruence.
      destruct Hp0 as (n & Hn & ?). exists n. split; [by right|done]. }
  destruct (inLockedGroup snapGroups node) eqn:Hl.
  { apply Hnext; by unfold sameGraph. }
  set (w1 := enterNode node w).
  pose proof (executeNode_keepsGraph env node w1) as [Hg1 Hp1].
  destruct (executeNode env node w1) as [w2|w2]; simpl in *.
  - apply Hnext; [|done]. by unfold sameGraph in *.
  - split; [|done]. by unfold sameGraph in *.
Qed.

End loop_facts.

(** X12. A run executes nodes in the computed order, starting at the
    start index and never twice: the ids of its [Executing] log lines form
    a sublist of the ids of the order from the start index on. *)
Theorem run_executes_in_order env startFromNodeId w order :
  topoSort (nodes (store w)) (edges (store w)) = Done order →
  let w' := snd (executeWorkflow env startFromNodeId w) in
  executedIds (eventsSince w w') `sublist_of`
    map node_id (drop (startIndex order startFromNodeId) order) ∧
  NoDup (executedIds (eventsSince w w')).
Proof.
  intros Hsort. cbv zeta.
  assert (executedIds
            (eventsSince w (snd (executeWorkflow env startFromNodeId w)))
          `sublist_of`
          map node_id (drop (startIndex order startFromNodeId) order)) as Hsub.
  { unfold executeWorkflow. rewrite Hsort.
    destruct (isRunning (store w)).
    { simpl. erewrite eventsSince_app; [|done]. apply sublist_nil_l. }
    destruct (execLoop_sublist env (edges (store w)) (groups (store w))
                (isResumingRun startFromNodeId (pausedAtNodeId (store w)))
                startFromNodeId
                (drop (startIndex order startFromNodeId) order)
                (beginRun startFromNodeId w)) as (evs & Hevs & Hex).
    destruct (execLoop _ _ _ _ _ _ _) as [w2|p w2]; simpl in *.
    - erewrite eventsSince_app;
        [|simpl; rewrite Hevs; simpl; by rewrite <- !app_assoc].
      simpl. rewrite executedIds_app. simpl. by rewrite app_nil_r.
    - erewrite eventsSince_app;
        [|rewrite Hevs; simpl; by rewrite <- !app_assoc].
      done. }
  split; [done|].
  eapply sublist_NoDup; [|exact Hsub].
  destruct (topoSort_Done _ _ _ Hsort) as (_ & Hnd & _).
  eapply sublist_NoDup; [exact Hnd|].
  apply (fmap_sublist node_id), sublist_drop.
Qed.

(** X13. A run never edits the graph: whatever happens, the edges, the
    groups, the workflow id, the generations path, and the id, kind and
    group of the node at each position are after the run what they were
    before it. Only node data, flags, history and cost can change. *)
Theorem run_keeps_graph env startFromNodeId w :
  sameGraph (store w) (store (snd (executeWorkflow env startFromNodeId w))).
Proof.
  unfold executeWorkflow.
  destruct (isRunning (store w)); [apply sameGraph_refl|].
  destruct (topoSort _ _) as [|c|order]; [by unfold sameGraph..|].
  destruct (execLoop_keepsGraph env (edges (store w)) (groups (store w))
              (isResumingRun startFromNodeId (pausedAtNodeId (store w)))
              startFromNodeId
              (drop (startIndex order startFromNodeId) order)
              (beginRun startFromNodeId w)) as [Hg _].
  destruct (execLoop _ _ _ _ _ _ _) as [w2|p w2]; simpl in *;
    by unfold sameGraph in *.
Qed.

(** X14. After a run that started, the store remembers a paused node
    exactly when the run ended at a pause edge: then [pausedAtNodeId] names
    a node of the graph that has an incoming pause edge and that the run
    did not execute; on every other exit [pausedAtNodeId] is null. *)
Theorem run_pause_bookkeeping env startFromNodeId w path w' :
  isRunning (store w) = false →
  executeWorkflow env startFromNodeId w = (path, w') →
  match path with
  | ExitPaused =>
      ∃ m, pausedAtNodeId (store w') = Some m ∧
        hasPauseEdge (edges (store w)) m = true ∧
        m ∈ map node_id (nodes (store w)) ∧
        m ∉ executedIds (eventsSince w w')
  | _ => pausedAtNodeId (store w') = None
  end.
Proof.
  intros Hidle Hrun. pose proof Hrun as Hrun0.
  unfold executeWorkflow in Hrun. rewrite Hidle in Hrun.
  destruct (topoSort _ _) as [|c|order] eqn:Hsort; [by simplify_eq..|].
  destruct (execLoop_keepsGraph env (edges (store w)) (groups (store w))
              (isResumingRun startFromNodeId (pausedAtNodeId (store w)))
              startFromNodeId
              (drop (startIndex order startFromNodeId) order)
              (beginRun startFromNodeId w)) as [_ Hp].
  destruct (execLoop _ _ _ _ _ _ _) as [w2|p w2] eqn:Hloop; simplify_eq;
    [done|].
  destruct (execLoop_Returned _ _ _ _ _ _ _ _ _ Hloop) as (_ & _ & [-> | ->]);
    [|done].
  destruct Hp as (node & Hnode & Hpauses & Hpaused).
  exists (node_id node).
  unfold pausesAt in Hpauses.
  apply andb_true_iff in Hpauses as [Hres Hedge].
  split_and!; [done..| |].
  - apply elem_of_drop in Hnode.
    destruct (topoSort_Done _ _ _ Hsort) as (_ & _ & Hfind & _).
    apply Hfind, findNode_Some in Hnode as [Hin _].
    apply list_elem_of_fmap. by exists node.
  - eapply paused_node_not_executed; [done..|].
    intros [-> Hpa]. unfold isResumingThisNode, isResumingRun in Hres.
    rewrite Hpa in Hres. by rewrite !bool_decide_eq_true_2 in Hres.
Qed.

(** X15. The Run button stops a running workflow without touching a
    node, and otherwise starts a run from the top that treats no node as
    resumed: no node with an incoming pause edge is executed by it, so
    after a pause it cannot get past the pause. *)
Theorem handleRunClick_respects_pauses env w :
  let w' := handleRunClick env w in
  (∀ m, hasPauseEdge (edges (store w)) m = true →
     m ∉ executedIds (eventsSince w w')) ∧
  (isRunning (store w) = true →
     isRunning (store w') = false ∧ currentNodeId (store w') = None ∧
     nodes (store w') = nodes (store w) ∧
     pausedAtNodeId (store w') = pausedAtNodeId (store w) ∧
     console w' = console w ∧ calls w' = calls w).
Proof.
  cbv zeta. unfold handleRunClick. split.
  - intros m Hm. destruct (isRunning (store w)).
    + unfold eventsSince. simpl. rewrite drop_all. by intros ?%elem_of_nil.
    + destruct (executeWorkflow env None w) as [path w'] eqn:Hrun.
      eapply paused_node_not_executed; [done..|]. by intros [? _].
  - by intros ->.
Qed.

End more_runs.

(** ** Editing the graph *)

Section editing.

Lemma filter_ids_sublist (P : Node → Prop) `{∀ n, Decision (P n)}
    (l : list Node) :
  map node_id (filter P l) `sublist_of` map node_id l.
Proof.
  induction l as [|n l IH]; [done|]. rewrite filter_cons.
  destruct (decide (P n)); simpl; [by apply sublist_skip|by apply sublist_cons].
Qed.

(** X16. Removing a node removes every edge that touches it, keeps every
    other node, and cannot break the graph: edges that connected nodes of
    the graph still do, ids that were unique still are, and no cycle
    appears. *)
Theorem removeNode_keeps_graph_sound nodeId s :
  let s' := removeNode nodeId s in
  (nodeId ∉ map node_id (nodes s')) ∧
  (∀ e, e ∈ edges s' ↔
     e ∈ edges s ∧ edge_source e ≠ nodeId ∧ edge_target e ≠ nodeId) ∧
  (∀ n, n ∈ nodes s' ↔ n ∈ nodes s ∧ node_id n ≠ nodeId) ∧
  (edgesClosed (nodes s) (edges s) → edgesClosed (nodes s') (edges s')) ∧
  (uniqueIds (nodes s) → uniqueIds (nodes s')) ∧
  (acyclic (edges s) → acyclic (edges s')).
Proof.
  cbv zeta. unfold removeNode. simpl.
  assert (∀ n, n ∈ filter (λ n : Node, node_id n ≠ nodeId) (nodes s) ↔
               n ∈ nodes s ∧ node_id n ≠ nodeId) as Hnodes.
  { intros n. rewrite list_elem_of_filter. tauto. }
  assert (∀ e, e ∈ filter (λ e, edge_source e ≠ nodeId ∧ edge_target e ≠ nodeId)
                     (edges s) ↔
               e ∈ edges s ∧ edge_source e ≠ nodeId ∧ edge_target e ≠ nodeId)
    as Hedges.
  { intros e. rewrite list_elem_of_filter. tauto. }
  split_and!; try done.
  - intros (n & Hid & [_ Hne]%Hnodes)%list_elem_of_fmap. by apply Hne.
  - intros Hclosed e (He & Hs & Ht)%Hedges.
    destruct (Hclosed e He) as [Hsrc Htgt].
    apply list_elem_of_fmap in Hsrc as (a & Ha & Hain).
    apply list_elem_of_fmap in Htgt as (b & Hb & Hbin).
    split; apply list_elem_of_fmap; [exists a|exists b];
      (split; [done|]); apply Hnodes; (split; [done|congruence]).
  - unfold uniqueIds. intros Hnd.
    eapply sublist_NoDup; [exact Hnd|]. apply filter_ids_sublist.
  - intros Hacyc x Hx. apply (Hacyc x).
    apply (tc_congruence (λ i, i) (edgeRel (edges s)) x x) in Hx; [done|].
    intros a b (e & He%Hedges & <- & <-). exists e. tauto.
Qed.

Lemma incoming_map (f : Edge → Edge) (l : list Edge) nodeId :
  (∀ e, edge_target (f e) = edge_target e) →
  incoming (map f l) nodeId = map f (incoming l nodeId).
Proof.
  intros Hf. unfold incoming. induction l as [|e l IH]; [done|].
  simpl. rewrite !filter_cons, Hf.
  destruct (decide (edge_target e = nodeId)); simpl; by rewrite IH.
Qed.

Lemma forEachM_map {A B S} (g : B → S → Outcome S) (f : A → B) (l : list A) :
  ∀ sv, forEachM g (map f l) sv = forEachM (λ x, g (f x)) l sv.
Proof.
  induction l as [|x l IH]; intros sv; [done|]. simpl.
  destruct (g (f x) sv); [done..|]. apply IH.
Qed.

Lemma forEachM_ext {A S} (g g' : A → S → Outcome S) (l : list A) :
  (∀ x sv, g x sv = g' x sv) → ∀ sv, forEachM g l sv = forEachM g' l sv.
Proof.
  intros Hg. induction l as [|x l IH]; intros sv; [done|]. simpl.
  rewrite Hg. destruct (g' x sv); [done..|]. apply IH.
Qed.

(** The sort reads the source and the target of the edges, nothing else. *)
Lemma visit_map (f : Edge → Edge) (nodes : list Node) (edges : list Edge) fuel :
  (∀ e, edge_target (f e) = edge_target e) →
  (∀ e, edge_source (f e) = edge_source e) →
  ∀ nodeId st,
    visit fuel nodes (map f edges) nodeId st = visit fuel nodes edges nodeId st.
Proof.
  intros Ht Hs. induction fuel as [|fuel IH]; intros nodeId st; [done|].
  simpl. destruct (decide _); [done|]. destruct (decide _); [done|].
  rewrite incoming_map, forEachM_map by done.
  erewrite forEachM_ext; [done|]. intros e st'. by rewrite Hs, IH.
Qed.

Lemma topoSort_map (f : Edge → Edge) (nodes : list Node) (edges : list Edge) :
  (∀ e, edge_target (f e) = edge_target e) →
  (∀ e, edge_source (f e) = edge_source e) →
  topoSort nodes (map f edges) = topoSort nodes edges.
Proof.
  intros Ht Hs. unfold topoSort, topoFuel, idUniverse.
  rewrite map_map. rewrite (map_ext (λ e, edge_source (f e)) edge_source Hs).
  erewrite forEachM_ext; [done|]. intros n st. by apply visit_map.
Qed.

Lemma foldl_map {A B C} (g : C → B → C) (f : A → B) (l : list A) : ∀ acc,
  foldl g acc (map f l) = foldl (λ c x, g c (f x)) acc l.
Proof. induction l as [|x l IH]; intros acc; [done|]. apply IH. Qed.

Lemma foldl_ext' {A C} (g g' : C → A → C) (l : list A) :
  (∀ c x, g c x = g' c x) → ∀ acc, foldl g acc l = foldl g' acc l.
Proof.
  intros Hg. induction l as [|x l IH]; intros acc; [done|].
  simpl. by rewrite Hg, IH.
Qed.

Lemma togglePause_twice edgeId e :
  togglePause edgeId (togglePause edgeId e) = e.
Proof.
  unfold togglePause. destruct (decide (edge_id e = edgeId)); simpl.
  - rewrite decide_True by done. simpl. rewrite negb_involutive.
    by destruct e.
  - by rewrite decide_False.
Qed.

(** X17. Toggling the pause flag of an edge changes nothing a run computes
    but where it pauses: the nodes, the execution order and the inputs
    every node resolves are unchanged; a node none of whose incoming edges
    bears the id keeps its pause status, a node whose one incoming edge
    bears it sees the status flipped; toggling twice restores the edges. *)
Theorem toggleEdgePause_only_moves_pauses edgeId s :
  let s' := toggleEdgePause edgeId s in
  nodes s' = nodes s ∧
  topoSort (nodes s') (edges s') = topoSort (nodes s) (edges s) ∧
  (∀ nodeId, getConnectedInputs s' nodeId = getConnectedInputs s nodeId) ∧
  (∀ nodeId, Forall (λ e, edge_id e ≠ edgeId) (incoming (edges s) nodeId) →
     hasPauseEdge (edges s') nodeId = hasPauseEdge (edges s) nodeId) ∧
  (∀ nodeId e, incoming (edges s) nodeId = [e] → edge_id e = edgeId →
     hasPauseEdge (edges s') nodeId = negb (hasPauseEdge (edges s) nodeId)) ∧
  edges (toggleEdgePause edgeId s') = edges s.
Proof.
  cbv zeta. unfold toggleEdgePause, withEdges. simpl.
  assert (∀ e, edge_target (togglePause edgeId e) = edge_target e) as Ht
    by (intros e; unfold togglePause; by destruct (decide _)).
  assert (∀ e, edge_source (togglePause edgeId e) = edge_source e) as Hs
    by (intros e; unfold togglePause; by destruct (decide _)).
  assert (∀ e, edge_targetHandle (togglePause edgeId e) = edge_targetHandle e)
    as Hh by (intros e; unfold togglePause; by destruct (decide _)).
  split_and!; [done| | | | |].
  - by apply topoSort_map.
  - intros nodeId. unfold getConnectedInputs. simpl.
    rewrite incoming_map, foldl_map by done.
    apply foldl_ext'. intros acc e. unfold collectInput. by rewrite Hs, Hh.
  - intros nodeId Hall. unfold hasPauseEdge. rewrite incoming_map by done.
    induction Hall as [|e l He Hall IH]; [done|]. simpl. rewrite IH.
    unfold togglePause at 1. by rewrite decide_False.
  - intros nodeId e He Hid. unfold hasPauseEdge. rewrite incoming_map by done.
    rewrite He. simpl. unfold togglePause. rewrite decide_True by done. simpl.
    by rewrite !orb_false_r.
  - rewrite map_map. rewrite <- (map_id (edges s)) at 2.
    apply map_ext. intros e. apply togglePause_twice.
Qed.

(** X18. [groups] is a plain object, so [groups[groupId]] also finds the
    members inherited from [Object.prototype]. Toggling the lock throws,
    and leaves the store alone, exactly on an id that is neither the key of
    a stored group nor the name of an inherited member. Otherwise the
    store is set: under a stored group the entry keeps its name and its
    lock is negated; under an inherited name a new entry is written that
    has no name and is locked. Either way the lock status of the nodes of
    that id is negated, no other group and no other node's lock status
    changes, and nodes and edges are untouched. *)
Theorem toggleGroupLock_flips groupId s :
  match toggleGroupLock groupId s with
  | None => groups s !! groupId = None ∧ groupId ∉ objectPrototypeKeys
  | Some s' =>
      match groups s !! groupId with
      | Some grp =>
          groups s' !! groupId =
            Some (mkGroup (group_name grp)
                    (Some (negb (bool_decide (group_locked grp = Some true)))))
      | None =>
          groupId ∈ objectPrototypeKeys ∧
          groups s' !! groupId = Some (mkGroup None (Some true))
      end ∧
      (∀ g, g ≠ groupId → groups s' !! g = groups s !! g) ∧
      nodes s' = nodes s ∧ edges s' = edges s ∧
      (∀ n, truthy (node_groupId n) = Some groupId →
         inLockedGroup (groups s') n = negb (inLockedGroup (groups s) n)) ∧
      (∀ n, truthy (node_groupId n) ≠ Some groupId →
         inLockedGroup (groups s') n = inLockedGroup (groups s) n)
  end.
Proof.
  unfold toggleGroupLock, groupAt.
  destruct (groups s !! groupId) as [grp|] eqn:Hg.
  - simpl. rewrite lookup_insert_eq. split_and!; try done.
    + intros g Hne. by apply lookup_insert_ne.
    + intros n Hn. unfold inLockedGroup. rewrite Hn, Hg, lookup_insert_eq.
      simpl. by destruct (bool_decide (group_locked grp = Some true)).
    + intros n Hn. unfold inLockedGroup.
      destruct (truthy (node_groupId n)) as [g|]; [|done].
      rewrite lookup_insert_ne; [done|congruence].
  - destruct (bool_decide (groupId ∈ objectPrototypeKeys)) eqn:Hk.
    + apply bool_decide_eq_true in Hk.
      simpl. rewrite lookup_insert_eq. split_and!; try done.
      * intros g Hne. by apply lookup_insert_ne.
      * intros n Hn. unfold inLockedGroup.
        by rewrite Hn, Hg, lookup_insert_eq.
      * intros n Hn. unfold inLockedGroup.
        destruct (truthy (node_groupId n)) as [g|]; [|done].
        rewrite lookup_insert_ne; [done|congruence].
    + by apply bool_decide_eq_false in Hk.
Qed.

(** X19. Deleting a group removes it and releases its nodes: no node
    refers to it afterwards, every other node keeps its group, no node
    changes id, kind or data, and no node becomes locked by the
    deletion. *)
Theorem deleteGroup_releases_nodes groupId s :
  let s' := deleteGroup groupId s in
  groups s' !! groupId = None ∧
  (∀ g, g ≠ groupId → groups s' !! g = groups s !! g) ∧
  map node_id (nodes s') = map node_id (nodes s) ∧
  map node_type (nodes s') = map node_type (nodes s) ∧
  map node_data (nodes s') = map node_data (nodes s) ∧
  edges s' = edges s ∧
  (∀ i n n', nodes s !! i = Some n → nodes s' !! i = Some n' →
     node_groupId n' ≠ Some groupId ∧
     (node_groupId n ≠ Some groupId → n' = n) ∧
     (inLockedGroup (groups s') n' = true →
      inLockedGroup (groups s) n = true)).
Proof.
  cbv zeta. unfold deleteGroup, withGroups, withNodes. simpl.
  split_and!; try done.
  - apply lookup_delete_eq.
  - intros g Hg. by apply lookup_delete_ne.
  - rewrite map_map. apply map_ext. intros n. by destruct (decide _).
  - rewrite map_map. apply map_ext. intros n. by destruct (decide _).
  - rewrite map_map. apply map_ext. intros n. by destruct (decide _).
  - intros i n n' Hn Hn'.
    rewrite (list_lookup_fmap _ (nodes s)), Hn in Hn'. simpl in Hn'.
    injection Hn' as <-.
    destruct (decide (node_groupId n = Some groupId)) as [Hin|Hout].
    + by split_and!.
    + split_and!; try done. unfold inLockedGroup.
      destruct (truthy (node_groupId n)) as [g|] eqn:Hg; [|done].
      assert (g ≠ groupId) as Hne.
      { intros ->. apply Hout. by apply truthy_Some in Hg as [? _]. }
      by rewrite lookup_delete_ne.
Qed.

(** X20. Group membership: the nodes named in a call of [addNodesToGroup]
    end up in the group, the nodes named in a call of
    [removeNodesFromGroup] end up in none and can no longer be locked, and
    [setNodeGroupId] is either of the two on a single id. *)
Theorem group_membership nodeIds nodeId groupId s :
  (∀ n', n' ∈ nodes (addNodesToGroup nodeIds groupId s) →
     node_id n' ∈ nodeIds → node_groupId n' = Some groupId) ∧
  (∀ n', n' ∈ nodes (removeNodesFromGroup nodeIds s) →
     node_id n' ∈ nodeIds →
     node_groupId n' = None ∧ ∀ gs, inLockedGroup gs n' = false) ∧
  (∀ n, n ∈ nodes s → node_id n ∉ nodeIds →
     n ∈ nodes (addNodesToGroup nodeIds groupId s) ∧
     n ∈ nodes (removeNodesFromGroup nodeIds s)) ∧
  setNodeGroupId nodeId (Some groupId) s = addNodesToGroup [nodeId] groupId s ∧
  setNodeGroupId nodeId None s = removeNodesFromGroup [nodeId] s.
Proof.
  unfold addNodesToGroup, removeNodesFromGroup, setNodeGroupId, withNodes.
  simpl. split_and!.
  - intros n' (n & -> & Hn)%list_elem_of_fmap Hid.
    by destruct (decide (node_id n ∈ nodeIds)).
  - intros n' (n & -> & Hn)%list_elem_of_fmap Hid.
    by destruct (decide (node_id n ∈ nodeIds)).
  - intros n Hn Hid. split; apply list_elem_of_fmap; exists n;
      by rewrite decide_False.
  - f_equal. apply map_ext. intros n.
    destruct (decide (node_id n = nodeId)) as [->|Hne].
    + rewrite decide_True; [done|by left].
    + destruct (decide (node_id n ∈ [nodeId])) as [Hin|]; [|done].
      by apply list_elem_of_singleton in Hin.
  - f_equal. apply map_ext. intros n.
    destruct (decide (node_id n = nodeId)) as [->|Hne].
    + rewrite decide_True; [done|by left].
    + destruct (decide (node_id n ∈ [nodeId])) as [Hin|]; [|done].
      by apply list_elem_of_singleton in Hin.
Qed.

(** X21. A graph whose edges connect its nodes and that the sort accepts
    stays sortable when an edge or a node is removed. *)
Theorem removal_keeps_sortable nodeId edgeId s :
  edgesClosed (nodes s) (edges s) →
  (∃ order, topoSort (nodes s) (edges s) = Done order) →
  (∃ order, topoSort (nodes (removeEdge edgeId s)) (edges (removeEdge edgeId s))
            = Done order) ∧
  (∃ order, topoSort (nodes (removeNode nodeId s)) (edges (removeNode nodeId s))
            = Done order).
Proof.
  intros Hclosed [order Hsort].
  assert (acyclic (edges s)) as Hacyc.
  { intros x Hx.
    destruct (topoSort_cycle_throws _ _ Hclosed (ex_intro _ x Hx)) as [c Hc].
    congruence. }
  assert (∀ (ns : list Node) (es : list Edge),
            (∀ e, e ∈ es → e ∈ edges s) → ∃ o, topoSort ns es = Done o) as Hsub.
  { intros ns es Hes.
    assert (acyclic es) as Hacyc'.
    { intros x Hx. apply (Hacyc x).
      apply (tc_congruence (λ i, i) (edgeRel (edges s)) x x) in Hx; [done|].
      intros a b (e & He & <- & <-). exists e. split; [by apply Hes|done]. }
    pose proof (topoSort_total ns es) as Htot.
    pose proof (topoSort_acyclic_no_throw ns es Hacyc') as Hno.
    destruct (topoSort ns es) as [|c|o]; [done| |by eexists].
    destruct Hno. by eexists. }
  split; apply Hsub; simpl; intros e He;
    by apply list_elem_of_filter in He as [_ ?].
Qed.

End editing.

(** ** Validation, connection rules, node data *)

Section checks.

Lemma bind_nil {A B} (f : A → list B) (l : list A) :
  l ≫= f = [] ↔ ∀ x, x ∈ l → f x = [].
Proof.
  induction l as [|x l IH]; simpl.
  - split; [|done]. by intros _ y ?%elem_of_nil.
  - rewrite app_nil, IH. split.
    + intros [Hx Hl] y [->|Hy]%elem_of_cons; [done|by apply Hl].
    + intros Hall. split; [apply Hall; by left|].
      intros y Hy. apply Hall. by right.
Qed.

Lemma handleConnected_spec (allEdges : list Edge) nodeId handle :
  handleConnected allEdges nodeId handle = true ↔
  ∃ e, e ∈ allEdges ∧ edge_target e = nodeId ∧
       edge_targetHandle e = Some handle.
Proof.
  unfold handleConnected. rewrite existsb_exists. split.
  - intros (e & He%list_elem_of_In & Hb). apply andb_true_iff in Hb as [H1 H2].
    apply bool_decide_eq_true in H1, H2. by exists e.
  - intros (e & He & H1 & H2). exists e. split; [by apply list_elem_of_In|].
    by rewrite !bool_decide_eq_true_2.
Qed.

Lemma anyConnected_spec (allEdges : list Edge) nodeId :
  anyConnected allEdges nodeId = true ↔
  ∃ e, e ∈ allEdges ∧ edge_target e = nodeId.
Proof.
  unfold anyConnected. rewrite existsb_exists. split.
  - intros (e & He%list_elem_of_In & Hb).
    apply bool_decide_eq_true in Hb. by exists e.
  - intros (e & He & H1). exists e. split; [by apply list_elem_of_In|].
    by rewrite bool_decide_eq_true_2.
Qed.

(** X22. [validateWorkflow] accepts exactly the non-empty workflows in
    which every generate node has an incoming edge on its ["image"] handle
    and one on its ["text"] handle, every annotation node has an incoming
    edge or a [sourceImage] other than null, and every output node has an
    incoming edge; it reports no error exactly when it accepts. Nodes of
    the other kinds are not looked at. *)
Theorem validateWorkflow_accepts s :
  (fst (validateWorkflow s) = true ↔ snd (validateWorkflow s) = []) ∧
  (fst (validateWorkflow s) = true ↔
   nodes s ≠ [] ∧
   ∀ n, n ∈ nodes s →
     (node_type n = nanoBanana →
        (∃ e, e ∈ edges s ∧ edge_target e = node_id n ∧
              edge_targetHandle e = Some "image") ∧
        (∃ e, e ∈ edges s ∧ edge_target e = node_id n ∧
              edge_targetHandle e = Some "text")) ∧
     (node_type n = annotation →
        (∃ e, e ∈ edges s ∧ edge_target e = node_id n) ∨
        node_data n !! "sourceImage" ≠ Some VNull) ∧
     (node_type n = output →
        ∃ e, e ∈ edges s ∧ edge_target e = node_id n)).
Proof.
  unfold validateWorkflow.
  destruct (nodes s) as [|n0 l] eqn:Hnodes.
  { simpl. split; split; try done. by intros [? _]. }
  cbv beta iota zeta. cbn [fst snd].
  assert (n0 :: l ≠ []) as Hne by done.
  rewrite <- Hnodes in *. clear Hnodes.
  set (errors := _ ++ _).
  assert (bool_decide (length errors = 0) = true ↔ errors = []) as Hlen.
  { rewrite bool_decide_eq_true. by destruct errors. }
  split; [done|]. rewrite Hlen. subst errors.
  rewrite !app_nil, !bind_nil. unfold ofType.
  split.
  - intros (Hgen & Hann & Hout). split; [done|]. intros n Hn. split_and!.
    + intros Hty. specialize (Hgen n). unfold generateErrors in Hgen.
      rewrite list_elem_of_filter in Hgen. specialize (Hgen (conj Hty Hn)).
      apply app_nil in Hgen as [H1 H2].
      split; apply handleConnected_spec.
      * by destruct (handleConnected (edges s) (node_id n) "image").
      * by destruct (handleConnected (edges s) (node_id n) "text").
    + intros Hty. specialize (Hann n). unfold annotationErrors in Hann.
      rewrite list_elem_of_filter in Hann. specialize (Hann (conj Hty Hn)).
      destruct (anyConnected (edges s) (node_id n)) eqn:Hany.
      { left. by apply anyConnected_spec. }
      right. unfold hasManualImage in Hann. simpl in Hann.
      intros Heq. by rewrite Heq in Hann.
    + intros Hty. specialize (Hout n). unfold outputErrors in Hout.
      rewrite list_elem_of_filter in Hout. specialize (Hout (conj Hty Hn)).
      apply anyConnected_spec.
      by destruct (anyConnected (edges s) (node_id n)).
  - intros [_ Hall]. split_and!; intros n [Hty Hn]%list_elem_of_filter;
      destruct (Hall n Hn) as (Hgen & Hann & Hout).
    + destruct (Hgen Hty) as [H1%handleConnected_spec H2%handleConnected_spec].
      unfold generateErrors. by rewrite H1, H2.
    + unfold annotationErrors.
      destruct (Hann Hty) as [H1%anyConnected_spec|H1]; [by rewrite H1|].
      unfold hasManualImage.
      destruct (node_data n !! "sourceImage") as [[]|]; try done;
        by rewrite andb_false_r.
    + apply Hout, anyConnected_spec in Hty. unfold outputErrors.
      by rewrite Hty.
Qed.

(** X23. The connection rule lets an image output reach image inputs only
    and a text output reach text inputs only, and it checks nothing else:
    a source handle that is neither (the ["reference"] output of a grid
    split, or none) may be connected to any input, text and image inputs
    included. *)
Theorem isValidConnection_rule sourceHandle targetHandle :
  (isValidConnection sourceHandle targetHandle = true →
     (default "" sourceHandle ∈ imageHandles →
        default "" targetHandle ∈ imageHandles) ∧
     (sourceHandle = Some "text" → targetHandle = Some "text")) ∧
  (default "" sourceHandle ∉ imageHandles → sourceHandle ≠ Some "text" →
     isValidConnection sourceHandle targetHandle = true) ∧
  (∀ t input, input ∈ fst (getNodeHandles t) →
     isValidConnection (Some "reference") (Some input) = true).
Proof.
  assert (∀ o : option string, default "" (truthy o) = default "" o) as Htr.
  { intros [x|]; simpl; [|done]. by destruct (decide (x = "")). }
  assert ("text" ∉ imageHandles) as Hti by (by compute_done).
  assert ("reference" ∉ imageHandles) as Hri by (by compute_done).
  assert ("reference" ∉ textHandles) as Hrt by (by compute_done).
  assert (∀ o : option string, default "" o ∈ textHandles ↔ o = Some "text")
    as Htext.
  { intros o. unfold textHandles. rewrite list_elem_of_singleton.
    destruct o as [x|]; simpl; [|done]. split; congruence. }
  unfold isValidConnection. rewrite !Htr.
  split_and!.
  - intros Hvalid. split.
    + intros Hsrc. rewrite (bool_decide_eq_true_2 _ Hsrc) in Hvalid.
      destruct (bool_decide (default "" targetHandle ∈ imageHandles)) eqn:Ht;
        [by apply bool_decide_eq_true in Ht|done].
    + intros ->. change (default "" (Some "text")) with "text" in Hvalid.
      rewrite (bool_decide_eq_false_2 _ Hti) in Hvalid.
      assert ("text" ∈ textHandles) as Htt by (by left).
      rewrite (bool_decide_eq_true_2 _ Htt) in Hvalid.
      cbn [andb] in Hvalid.
      destruct (bool_decide (default "" targetHandle ∈ textHandles)) eqn:Ht;
        [|done].
      by apply bool_decide_eq_true, Htext in Ht.
  - intros Hsrc Hnt. rewrite (bool_decide_eq_false_2 _ Hsrc). cbn [andb].
    rewrite bool_decide_eq_false_2; [done|]. by rewrite Htext.
  - intros t input _. change (default "" (Some "reference")) with "reference".
    by rewrite (bool_decide_eq_false_2 _ Hri), (bool_decide_eq_false_2 _ Hrt).
Qed.

(** X24. [updateNodeData] merges: on the nodes named by the id, a field of
    the patch takes the patch's value and every other field keeps its own;
    nodes with another id, and the id, kind and group of every node, are
    unchanged; two updates of one id amount to one update with the later
    patch laid over the earlier. *)
Theorem updateNodeData_merges nodeId patch patch' s :
  (∀ m, getNodeById (updateNodeData nodeId patch s) m =
        mergeData nodeId patch <$> getNodeById s m) ∧
  (∀ n k, node_id n = nodeId →
     node_data (mergeData nodeId patch n) !! k =
     match patch !! k with
     | Some v => Some v
     | None => node_data n !! k
     end) ∧
  (∀ n, node_id n ≠ nodeId → mergeData nodeId patch n = n) ∧
  sameGraph s (updateNodeData nodeId patch s) ∧
  updateNodeData nodeId patch' (updateNodeData nodeId patch s) =
    updateNodeData nodeId (patch' ∪ patch) s.
Proof.
  split_and!.
  - intros m. apply getNodeById_update.
  - intros n k Hid. destruct (patch !! k) as [v|] eqn:Hk.
    + by apply mergeData_patch.
    + by apply mergeData_data.
  - intros n Hne. unfold mergeData. by rewrite decide_False.
  - apply keepsGraph_update, keepsGraph_refl.
  - unfold updateNodeData, withNodes. simpl. f_equal.
    rewrite map_map. apply map_ext. intros n. unfold mergeData.
    destruct (decide (node_id n = nodeId)) as [Heq|Hne]; simpl.
    + destruct (decide (node_id n = nodeId)); [|done]. by rewrite (assoc_L (∪)).
    + by destruct (decide (node_id n = nodeId)).
Qed.

End checks.

(** ** Persistence of the cost total *)

Section costs.

Variable num_truthy : number → bool.

(** X25. How the cost total of a saved workflow (one with a workflow id)
    survives a reload. The totals are kept in a plain object that goes
    through JSON. A charge puts the new total in the store and never
    touches the totals stored for other ids. Under an id other than
    [__proto__], or one the stored object already has as its own key, the
    entry is rewritten with the JSON form of the total, and
    [loadIncurredCost] on that id restores it: a total that JSON writes as
    [null] (not finite), or a falsy one, is read back as zero; after a
    reset the JSON form of zero is read back the same way. Under the id
    [__proto__] with no such own key the assignment goes to the prototype
    and nothing is stored: the stored totals are as before, also after a
    reset, and a reload reads zero. *)
Theorem cost_survives_reload cost wid w :
  truthy (workflowId (store w)) = Some wid →
  let total := num_add (incurredCost (store w)) cost in
  let w1 := addIncurredCost cost w in
  let readBack (v : option number) :=
    match v with
    | Some c => if num_truthy c then c else num_zero
    | None => num_zero
    end in
  incurredCost (store w1) = total ∧
  (∀ other, other ≠ wid → localCosts w1 !! other = localCosts w !! other) ∧
  (wid ≠ "__proto__" ∨ is_Some (localCosts w !! wid) →
     localCosts w1 !! wid = Some (num_json total) ∧
     incurredCost (store (loadIncurredCost num_truthy wid w1)) =
       readBack (num_json total) ∧
     incurredCost
       (store (loadIncurredCost num_truthy wid (resetIncurredCost w1))) =
       readBack (num_json num_zero)) ∧
  (wid = "__proto__" → localCosts w !! wid = None →
     localCosts w1 = localCosts w ∧
     localCosts (resetIncurredCost w1) = localCosts w ∧
     incurredCost (store (loadIncurredCost num_truthy wid w1)) = num_zero).
Proof.
  intros Hwid. cbv zeta.
  unfold addIncurredCost, resetIncurredCost, loadIncurredCost, persistCost,
    storedCost.
  simpl. rewrite Hwid.
  split_and!.
  - by destruct (assignsOwnKey _ _).
  - intros other Hne. destruct (assignsOwnKey _ _); [|done]. simpl.
    by rewrite lookup_insert_ne.
  - intros Hown.
    assert (assignsOwnKey (localCosts w) wid = true) as ->.
    { unfold assignsOwnKey. apply orb_true_iff.
      destruct Hown as [Hne|Hsome].
      - left. by rewrite bool_decide_eq_false_2.
      - right. by apply bool_decide_eq_true. }
    simpl. rewrite Hwid.
    assert (assignsOwnKey
              (<[wid:=num_json (num_add (incurredCost (store w)) cost)]>
                 (localCosts w)) wid = true) as ->.
    { unfold assignsOwnKey. apply orb_true_iff. right.
      apply bool_decide_eq_true. rewrite lookup_insert_eq. by eexists. }
    simpl. rewrite !lookup_insert_eq. done.
  - intros -> Hnone.
    assert (assignsOwnKey (localCosts w) "__proto__" = false) as ->.
    { unfold assignsOwnKey. rewrite Hnone. by vm_compute. }
    simpl. rewrite Hwid.
    assert (assignsOwnKey (localCosts w) "__proto__" = false) as ->.
    { unfold assignsOwnKey. rewrite Hnone. by vm_compute. }
    simpl. by rewrite Hnone.
Qed.

(** X26. A workflow that was never saved (no workflow id) persists no
    cost: charging it changes the total in the store only, and loading
    any id afterwards reads the stored totals as they were. *)
Theorem unsaved_cost_not_persisted cost w :
  truthy (workflowId (store w)) = None →
  localCosts (addIncurredCost cost w) = localCosts w ∧
  localCosts (resetIncurredCost w) = localCosts w ∧
  ∀ wid, incurredCost (store (loadIncurredCost num_truthy wid
                                (addIncurredCost cost w))) =
         storedCost num_truthy (localCosts w) wid.
Proof.
  intros Hwid.
  unfold addIncurredCost, resetIncurredCost, loadIncurredCost, persistCost.
  simpl. by rewrite Hwid.
Qed.

End costs.

(** ** [regenerateNode] *)

Section regeneration.

#[local] Abbreviation keepsGraph s s' :=
  (sameGraph s s' ∧ pausedAtNodeId s' = pausedAtNodeId s).

Ltac unfold_regenerate :=
  unfold regenerateBody, regenerateNanoBanana, regenerateLlmGenerate,
    regenerateSplitGrid in *.









Lemma keepsNode_failNode m nodeId msg w (l : list Node) :
  nodeId ≠ m → keepsNode m l (nodes (store w)) →
  keepsNode m l (nodes (store (failNode nodeId msg w))).
Proof. intros Hne Hk. by apply (keepsNode_update m nodeId). Qed.

Lemma keepsNode_generateSuccess m env node text image w (l : list Node) :
  node_id node ≠ m → keepsNode m l (nodes (store w)) →
  keepsNode m l (nodes (store (generateSuccess env node text image w))).
Proof.
  intros Hne Hk. rewrite store_generateSuccess.
  by apply (keepsNode_update m (node_id node)).
Qed.

Ltac step_nodes Hne Hm :=
  repeat match goal with
    | |- keepsNode _ ?a (nodes (store ?b)) =>
        constr_eq a (nodes (store b)); apply keepsNode_refl
    | |- keepsNode _ _ (nodes (store (failNode _ _ _))) =>
        apply keepsNode_failNode; [exact Hne|]
    | |- keepsNode _ _ (nodes (store (logEvent _ ?w))) =>
        change (store (logEvent _ w)) with (store w)
    | |- keepsNode _ _ (nodes (store (logRegen _ ?w))) =>
        change (store (logRegen _ w)) with (store w)
    | |- keepsNode _ _ (nodes (store (fetchCall _ ?w))) =>
        change (store (fetchCall _ w)) with (store w)
    | |- keepsNode _ _ (nodes (store (generateSuccess _ _ _ _ _))) =>
        apply keepsNode_generateSuccess; [exact Hne|]
    | |- keepsNode _ _ (nodes (store (onStore (updateNodeData _ _) _))) =>
        rewrite store_onStore; apply keepsNode_update; [exact Hne|]
    | |- keepsNode _ _ (nodes (store (onStore (populateChildren _ _ _ _ _) _))) =>
        rewrite store_onStore;
        eapply keepsNode_trans;
          [|apply keepsNode_populateChildren; intros ?; apply Hm; right;
            by erewrite splitChildren_array by eassumption]
    | |- keepsNode _ _ (nodes (store (awaitReply _ _))) =>
        rewrite nodes_awaitReply
    end.

Lemma regenerateBody_keeps m env node w :
  m ∉ touches node →
  keepsNode m (nodes (store w))
    (nodes (store (stepWorld (regenerateBody env node w)))).
Proof.
  unfold touches. intros Hm.
  assert (node_id node ≠ m) as Hne by (intros <-; apply Hm; by left).
  unfold_regenerate. cbv zeta.
  destruct (node_type node); try apply keepsNode_refl;
    repeat (case_match; cbv beta iota);
    cbv beta iota delta [stepWorld]; step_nodes Hne Hm.
Qed.


(** X28. [regenerateNode] writes the data of the node it is given, and of
    the children of a grid split, and of no other node. *)
Theorem regenerateNode_touches_only_its_node env nodeId w m :
  (∀ node, getNodeById (store w) nodeId = Some node → m ∉ touches node) →
  keepsNode m (nodes (store w))
    (nodes (store (regen_world (regenerateNode env nodeId w)))).
Proof.
  intros Hm. unfold regenerateNode.
  destruct (isRunning (store w)); [apply keepsNode_refl|].
  destruct (findNode (nodes (store w)) nodeId) as [node|] eqn:Hfind;
    [|apply keepsNode_refl].
  cbv zeta.
  set (w1 := onStore (withRun true (Some nodeId) (pausedAtNodeId (store w)))
               (logRegen (RegenStarted nodeId (node_type node)) w)).
  pose proof (regenerateBody_keeps m env node w1 (Hm node Hfind)) as Hk.
  assert (nodeId ≠ m) as Hne.
  { destruct (findNode_Some _ _ _ Hfind) as [_ Hid]. intros Heq.
    apply (Hm node Hfind). unfold touches. rewrite <- Heq, <- Hid. by left. }
  destruct (regenerateBody env node w1) as [w2|w2|err w2];
    simpl in *; try done.
  by apply keepsNode_map.
Qed.

Lemma getConnectedInputs_onRun running current paused w nodeId :
  getConnectedInputs (store (onStore (withRun running current paused) w)) nodeId
  = getConnectedInputs (store w) nodeId.
Proof. by apply getConnectedInputs_ext. Qed.

Lemma getNodeById_withRun running current paused s nodeId :
  getNodeById (withRun running current paused s) nodeId = getNodeById s nodeId.
Proof. done. Qed.

Lemma getNodeById_stopWorkflow s nodeId :
  getNodeById (stopWorkflow s) nodeId = getNodeById s nodeId.
Proof. done. Qed.


Lemma regenerate_generate_start env node w :
  isRunning (store w) = false →
  getNodeById (store w) (node_id node) = Some node →
  node_type node = nanoBanana →
  regenerateNode env (node_id node) w =
  let w1 :=
    onStore (withRun true (Some (node_id node)) (pausedAtNodeId (store w)))
      (logRegen (RegenStarted (node_id node) nanoBanana) w) in
  match regenerateNanoBanana env node w1 with
  | RegenFalls w2 =>
      mkRegen ExitCompleted
        (fetchCall CallLogs
           (onStore stopWorkflow
              (logRegen (RegenCompleted (node_id node)) w2)))
  | RegenReturns w2 => mkRegen ExitNodeError w2
  | RegenThrows err w2 =>
      mkRegen ExitCaught
        (fetchCall CallLogs
           (failNode (node_id node) (errorMessageOr "Regeneration failed" err)
              (logRegen (RegenFailed (node_id node)) w2)))
  end.
Proof.
  intros Hidle Hn Hty. unfold regenerateNode, getNodeById in *.
  rewrite Hidle, Hn. cbv zeta. unfold regenerateBody. by rewrite Hty.
Qed.


Lemma tick_fetchCall (c : Call) w : tick (fetchCall c w) = tick w.
Proof. done. Qed.

Lemma tick_onStore (f : Store → Store) w : tick (onStore f w) = tick w.
Proof. done. Qed.

Lemma getNodeById_addCost cost s nodeId :
  getNodeById (addCost cost s) nodeId = getNodeById s nodeId.
Proof. done. Qed.

Lemma getNodeById_addToGlobalHistory item s nodeId :
  getNodeById (addToGlobalHistory item s) nodeId = getNodeById s nodeId.
Proof. done. Qed.

(** X30. When the service answers a regeneration with a JSON reply,
    [regenerateNode] returns through its completion path whatever the
    reply says. A reply that carries an image is stored and charged as in a
    run: status ["complete"], one more item in the global history, the
    price of the node added to the cost. A reply that declines leaves the
    node with status ["error"] and the reply's message, and charges
    nothing. *)
Theorem regenerate_reply_outcome env node w image images text
    success payload err :
  isRunning (store w) = false →
  getNodeById (store w) (node_id node) = Some node →
  node_type node = nanoBanana →
  regenImages (fst (getConnectedInputs (store w) (node_id node)))
    (node_data node) = image :: images →
  truthy (regenText (snd (getConnectedInputs (store w) (node_id node)))
            (node_data node)) = Some text →
  env_generate env (tick w)
    (generateRequest (node_data node) (image :: images) text)
    = ReplyJson success payload err →
  let r := regenerateNode env (node_id node) w in
  let s' := store (regen_world r) in
  regen_path r = ExitCompleted ∧
  isRunning s' = false ∧
  match (if success then truthy payload else None) with
  | Some out =>
      nodeStatus s' (node_id node) = Some (VStr "complete") ∧
      incurredCost s' = num_add (incurredCost (store w)) (priceOf node) ∧
      length (globalImageHistory s') = S (length (globalImageHistory (store w)))
  | None =>
      nodeStatus s' (node_id node) = Some (VStr "error") ∧
      nodeError s' (node_id node) =
        Some (VStr (default "Generation failed" (truthy err))) ∧
      incurredCost s' = incurredCost (store w) ∧
      globalImageHistory s' = globalImageHistory (store w)
  end.
Proof.
  intros Hidle Hn Hty Himgs Htext Hreply. cbv zeta.
  rewrite (regenerate_generate_start env node w Hidle Hn Hty). cbv zeta.
  unfold regenerateNanoBanana. cbv zeta.
  rewrite getConnectedInputs_onRun.
  change (store (logRegen ?ev w)) with (store w).
  rewrite Himgs, Htext.
  rewrite tick_fetchCall.
  change (tick (logRegen ?ev ?w0)) with (tick w0).
  rewrite !tick_onStore.
  change (tick (logRegen ?ev ?w0)) with (tick w0).
  rewrite Hreply.
  set (w3 := awaitReply env _).
  assert (getNodeById (store w3) (node_id node) =
          Some (mergeData (node_id node)
                  {[ "status" := status_loading; "error" := VNull ]} node))
    as Hn3.
  { subst w3. rewrite getNodeById_awaitReply.
    change (store (fetchCall ?c ?w0)) with (store w0).
    change (store (logRegen ?ev ?w0)) with (store w0).
    rewrite store_onStore, getNodeById_update, store_onStore,
      getNodeById_withRun.
    change (store (logRegen ?ev ?w0)) with (store w0).
    by rewrite Hn. }
  assert (incurredCost (store w3) = incurredCost (store w)) as Hcost
    by (subst w3; by rewrite cost_awaitReply).
  assert (globalImageHistory (store w3) = globalImageHistory (store w)) as Hhist
    by (subst w3; by rewrite history_awaitReply).
  clearbody w3.
  destruct (if success then truthy payload else None) as [out|];
    cbn [regen_path regen_world]; (split; [done|]); (split; [done|]).
  - change (store (fetchCall ?c ?w0)) with (store w0).
    rewrite store_onStore.
    change (store (logRegen ?ev ?w0)) with (store w0).
    rewrite store_generateSuccess.
    unfold nodeStatus.
    rewrite getNodeById_stopWorkflow, getNodeById_addCost, getNodeById_update,
      getNodeById_addToGlobalHistory, Hn3.
    split_and!.
    + simpl. apply mergeData_patch; [by rewrite mergeData_id|by simplify_map_eq].
    + simpl. by rewrite Hcost.
    + simpl. by rewrite Hhist.
  - change (store (fetchCall ?c ?w0)) with (store w0).
    rewrite store_onStore.
    change (store (logRegen ?ev ?w0)) with (store w0).
    rewrite !store_onStore. unfold nodeStatus, nodeError.
    rewrite getNodeById_stopWorkflow, getNodeById_update, Hn3.
    split_and!; try done.
    + simpl. apply mergeData_patch; [by rewrite mergeData_id|by simplify_map_eq].
    + simpl. apply mergeData_patch; [by rewrite mergeData_id|by simplify_map_eq].
Qed.

End regeneration.

End more_properties.

(** * The further properties on the concrete workflows *)

Import MoreExamples.

Lemma topoSort_order_general_witness :
  NoDup (map node_id exOrder) ∧
  (∀ n, n ∈ exNodes → node_id n ∈ map node_id exOrder) ∧
  (∀ n, n ∈ exOrder → findNode exNodes (node_id n) = Some n) ∧
  respectsEdges exEdges exOrder ∧
  length exOrder ≤ length exNodes.
Proof.
  apply (topoSort_order_general exNodes exEdges exOrder). by vm_compute.
Defined.

Lemma empty_text_halts_witness :
  ∃ w', execLoop exEnv (edges (store exBlankLlmWorld)) ∅ false None [exLlm]
          exBlankLlmWorld = Returned ExitNodeError w' ∧
    nodes (store w') =
      map (mergeData (node_id exLlm)
             {[ "status" := VStr "error";
                "error" :=
                  VStr (if decide (node_type exLlm = nanoBanana)
                        then "Missing image or text input"
                        else "Missing text input") ]})
        (nodes (store exBlankLlmWorld)) ∧
    executedIds (eventsSince exBlankLlmWorld w') = [node_id exLlm] ∧
    calls w' = calls exBlankLlmWorld ∧ tick w' = tick exBlankLlmWorld ∧
    isRunning (store w') = false ∧ currentNodeId (store w') = None.
Proof.
  apply (empty_text_halts exEnv (edges (store exBlankLlmWorld)) ∅ false None
           exLlm [] exBlankLlmWorld).
  - by right.
  - reflexivity.
  - by vm_compute.
  - by vm_compute.
  - by vm_compute.
Defined.

Lemma splitGrid_unready_halts_witness :
  ∃ w', execLoop exEnv [] ∅ false None [exSplit] exSplitAloneWorld
          = Returned ExitNodeError w' ∧
    nodes (store w') =
      map (mergeData (node_id exSplit)
             {[ "status" := VStr "error";
                "error" :=
                  VStr (match truthy (head (fst (getConnectedInputs
                                 (store exSplitAloneWorld) (node_id exSplit))))
                        with
                        | None => "No input image connected"
                        | Some _ => "Node not configured - open settings first"
                        end) ]})
        (nodes (store exSplitAloneWorld)) ∧
    executedIds (eventsSince exSplitAloneWorld w') = [node_id exSplit] ∧
    calls w' = calls exSplitAloneWorld ∧ tick w' = tick exSplitAloneWorld ∧
    isRunning (store w') = false ∧ currentNodeId (store w') = None.
Proof.
  apply (splitGrid_unready_halts exEnv [] ∅ false None exSplit []
           exSplitAloneWorld).
  - reflexivity.
  - reflexivity.
  - by vm_compute.
  - by vm_compute.
  - left. by vm_compute.
Defined.

Lemma splitGrid_fills_children_witness :
  arrayField (node_data exSplit) "childNodeIds" =
    Some [ VObj [ ("imageInput", VStr "imageInput-7");
                  ("prompt", VStr "prompt-8");
                  ("nanoBanana", VStr "nanoBanana-9") ] ] ∧
  ∃ w', executeNode exEnv exSplit exSplitWorld = NodeDone w' ∧
    ∃ n', getNodeById (store w') "imageInput-7" = Some n' ∧
      node_data n' !! "image" = Some (VStr "data:cell-1") ∧
      node_data n' !! "filename" = Some (VStr "split-1-1.png") ∧
      node_type n' = imageInput ∧ node_groupId n' = Some "group-1".
Proof.
  split; [by vm_compute|].
  pose proof (splitGrid_fills_children exEnv exSplit exSplitWorld "data:cat"
                ["data:cell-1"; "data:cell-2"] eq_refl eq_refl eq_refl eq_refl)
    as H.
  change (arrayField (node_data exSplit) "childNodeIds")
    with (Some [ VObj [ ("imageInput", VStr "imageInput-7");
                        ("prompt", VStr "prompt-8");
                        ("nanoBanana", VStr "nanoBanana-9") ] ]
          : option (list (Val Z))) in H.
  cbv beta iota in H.
  destruct H as (w' & Hrun & Hchildren).
  { repeat constructor; done. }
  exists w'. split; [exact Hrun|].
  specialize (Hchildren 0 _ "imageInput-7" exLockedChild eq_refl eq_refl).
  destruct (env_decode exEnv "data:cell-1") as [[width height]|] eqn:Hdec;
    [|by vm_compute in Hdec].
  cbn [lookup list_lookup truthy] in Hchildren.
  destruct Hchildren as (n' & Hn' & Himage & Hname & _ & Hty & Hgroup).
  - intros [|j] cs Hj _; [done|]. by destruct j.
  - done.
  - by vm_compute.
  - exists n'. split_and!; try done.
Defined.

Lemma annotation_passes_image_witness :
  ∃ w', executeNode exEnv exAnnotation exAnnotationWorld = NodeDone w' ∧
    match truthy (head (fst (getConnectedInputs (store exAnnotationWorld)
                               (node_id exAnnotation)))) with
    | Some image =>
        ∃ n', getNodeById (store w') (node_id exAnnotation) = Some n' ∧
          node_data n' !! "sourceImage" = Some (VStr image) ∧
          sourceImageOf n' =
            Some (default image
                    (truthy (strField (node_data exAnnotation) "outputImage")))
    | None => w' = exAnnotationWorld
    end.
Proof.
  apply (annotation_passes_image exEnv exAnnotation exAnnotationWorld);
    by vm_compute.
Defined.

Lemma output_shows_first_image_witness :
  ∃ w', executeNode exEnv exOutput exOutputWorld = NodeDone w' ∧
    console w' = console exOutputWorld ∧ calls w' = calls exOutputWorld ∧
    match truthy (head (fst (getConnectedInputs (store exOutputWorld)
                               (node_id exOutput)))) with
    | Some image =>
        ∃ n', getNodeById (store w') (node_id exOutput) = Some n' ∧
          node_data n' !! "image" = Some (VStr image) ∧
          ∀ k, k ≠ "image" → node_data n' !! k = node_data exOutput !! k
    | None => w' = exOutputWorld
    end.
Proof.
  apply (output_shows_first_image exEnv exOutput exOutputWorld); by vm_compute.
Defined.

Lemma no_charge_without_generation_witness :
  let w' := resultWorld (executeNode exEnv exGen exNoImageWorld) in
  incurredCost (store w') = incurredCost (store exNoImageWorld) ∧
  localCosts w' = localCosts exNoImageWorld ∧
  globalImageHistory (store w') = globalImageHistory (store exNoImageWorld).
Proof.
  apply (no_charge_without_generation exEnv exGen exNoImageWorld).
  right. by vm_compute.
Defined.

Lemma in_flight_stop_keeps_result_witness :
  isDone (executeNode exEnv exGen exWorld0) =
    isDone (executeNode exEnvStop exGen exWorld0) ∧
  agreeButFlags (resultWorld (executeNode exEnv exGen exWorld0))
    (resultWorld (executeNode exEnvStop exGen exWorld0)).
Proof.
  apply (in_flight_stop_keeps_result exEnv exEnvStop exGen exWorld0).
  by unfold sameReplies.
Defined.

Lemma generated_image_feeds_downstream_witness :
  let w' := resultWorld (executeNode exEnv exGen exWorld0) in
  ∃ image n',
    image ≠ "" ∧
    getNodeById (store w') (node_id exGen) = Some n' ∧
    node_data n' !! "status" = Some (VStr "complete") ∧
    node_data n' !! "error" = Some VNull ∧
    sourceImageOf n' = Some image ∧
    (∀ e, edge_source e = node_id exGen →
       offeredImage (nodes (store w')) e = Some image) ∧
    (∀ e, e ∈ edges (store w') → edge_source e = node_id exGen →
       isImageHandle (edge_targetHandle e) = true →
       image ∈ fst (getConnectedInputs (store w') (edge_target e))).
Proof.
  apply (generated_image_feeds_downstream exEnv exGen exWorld0
           (resultWorld (executeNode exEnv exGen exWorld0))); by vm_compute.
Defined.

Lemma llm_success_writes_text_witness :
  ∃ w' n',
    executeNode exEnv exLlm exLlmWorld = NodeDone w' ∧
    callsSince exLlmWorld w' =
      [CallLlm (llmRequest (node_data exLlm) [] "draw a cat")] ∧
    llm_prompt (llmRequest (node_data exLlm) [] "draw a cat") = "draw a cat" ∧
    (llm_images (llmRequest (node_data exLlm) [] "draw a cat") = None ↔
     @nil string = []) ∧
    getNodeById (store w') (node_id exLlm) = Some n' ∧
    node_data n' !! "outputText" = Some (VStr "a caption") ∧
    node_data n' !! "status" = Some (VStr "complete") ∧
    node_data n' !! "inputPrompt" = Some (VStr "draw a cat") ∧
    ∀ earlier, sourceTextOf n' earlier = Some "a caption".
Proof.
  apply (llm_success_writes_text exEnv exLlm exLlmWorld [] "draw a cat"
           "a caption" None); by vm_compute.
Defined.

Lemma run_executes_in_order_witness :
  let w' := snd (executeWorkflow exEnv None exWorld0) in
  executedIds (eventsSince exWorld0 w') `sublist_of`
    map node_id (drop (startIndex exOrder None) exOrder) ∧
  NoDup (executedIds (eventsSince exWorld0 w')).
Proof.
  apply (run_executes_in_order exEnv None exWorld0 exOrder). by vm_compute.
Defined.

Lemma run_pause_bookkeeping_witness :
  let w' := snd (executeWorkflow exEnv None exPauseWorld) in
  ∃ m, pausedAtNodeId (store w') = Some m ∧
    hasPauseEdge (edges (store exPauseWorld)) m = true ∧
    m ∈ map node_id (nodes (store exPauseWorld)) ∧
    m ∉ executedIds (eventsSince exPauseWorld w').
Proof.
  apply (run_pause_bookkeeping exEnv None exPauseWorld ExitPaused
           (snd (executeWorkflow exEnv None exPauseWorld))); by vm_compute.
Defined.

Lemma cost_survives_reload_witness :
  let w1 := addIncurredCost 134%Z exWorld0 in
  truthy (workflowId (store exWorld0)) = Some "wf_1" ∧
  incurredCost (store w1) = 134%Z ∧
  localCosts w1 !! "wf_1" = Some (Some 134%Z) ∧
  incurredCost (store (loadIncurredCost exTruthy "wf_1" w1)) = 134%Z ∧
  incurredCost
    (store (loadIncurredCost exTruthy "wf_1" (resetIncurredCost w1))) = 0%Z.
Proof.
  cbv zeta.
  assert (truthy (workflowId (store exWorld0)) = Some "wf_1") as Hwid
    by (by vm_compute).
  split; [exact Hwid|].
  destruct (cost_survives_reload exTruthy 134%Z "wf_1" exWorld0 Hwid)
    as (Htotal & _ & Hown & _).
  destruct Hown as (Hstored & Hload & Hreset); [by left|].
  split_and!.
  - exact Htotal.
  - exact Hstored.
  - exact Hload.
  - exact Hreset.
Defined.

Lemma unsaved_cost_not_persisted_witness :
  localCosts (addIncurredCost 134%Z exUnsavedWorld) = localCosts exUnsavedWorld ∧
  localCosts (resetIncurredCost exUnsavedWorld) = localCosts exUnsavedWorld ∧
  ∀ wid, incurredCost (store (loadIncurredCost exTruthy wid
                                (addIncurredCost 134%Z exUnsavedWorld))) =
         storedCost exTruthy (localCosts exUnsavedWorld) wid.
Proof.
  apply (unsaved_cost_not_persisted exTruthy 134%Z exUnsavedWorld).
  by vm_compute.
Defined.

Lemma regenerateNode_touches_only_its_node_witness :
  keepsNode "output-4" (nodes (store exWorld0))
    (nodes (store (regen_world (regenerateNode exEnv "nanoBanana-3" exWorld0)))).
Proof.
  apply (regenerateNode_touches_only_its_node exEnv "nanoBanana-3" exWorld0
           "output-4").
  intros node Hnode. vm_compute in Hnode. injection Hnode as <-.
  by compute_done.
Defined.


Lemma regenerate_reply_outcome_witness :
  let r := regenerateNode exEnv (node_id exStoredGen) exStoredWorld in
  let s' := store (regen_world r) in
  regen_path r = ExitCompleted ∧
  isRunning s' = false ∧
  nodeStatus s' (node_id exStoredGen) = Some (VStr "complete") ∧
  incurredCost s' =
    num_add (incurredCost (store exStoredWorld)) (priceOf exStoredGen) ∧
  length (globalImageHistory s') =
    S (length (globalImageHistory (store exStoredWorld))).
Proof.
  apply (regenerate_reply_outcome exEnv exStoredGen exStoredWorld "data:kept"
           [] "kept prompt" true (Some "data:generated") None); by vm_compute.
Defined.

Lemma removal_keeps_sortable_witness :
  (∃ order, topoSort (nodes (removeEdge "edge-prompt-2-nanoBanana-3"
                               (store exWorld0)))
              (edges (removeEdge "edge-prompt-2-nanoBanana-3" (store exWorld0)))
            = Done order) ∧
  (∃ order, topoSort (nodes (removeNode "nanoBanana-3" (store exWorld0)))
              (edges (removeNode "nanoBanana-3" (store exWorld0)))
            = Done order).
Proof.
  apply (removal_keeps_sortable "nanoBanana-3" "edge-prompt-2-nanoBanana-3"
           (store exWorld0)).
  - apply edgesClosed_Forall. by compute_done.
  - exists exOrder. by vm_compute.
Defined.

(** ** The corner cases of the plain objects and of the absent fields *)

(** A grid split without [childNodeIds] ends in error once the splitter
    has replied, with the message of the [TypeError]. *)
Lemma splitGrid_without_children_fails :
  arrayField (node_data exBareSplit) "childNodeIds" = None ∧
  isDone (executeNode exEnv exBareSplit exBareSplitWorld) = false ∧
  nodeError (store (resultWorld (executeNode exEnv exBareSplit exBareSplitWorld)))
    "splitGrid-6" =
    Some (VStr "Cannot read properties of undefined (reading 'length')") ∧
  (executeWorkflow exEnv None exBareSplitWorld).1 = ExitNodeError.
Proof. split_and!; by vm_compute. Qed.

(** Its regeneration throws before the splitter is called, and ends in the
    outer [catch]. *)
Lemma regenerate_split_without_children_throws :
  let r := regenerateNode exEnv "splitGrid-6" exBareSplitWorld in
  regen_path r = ExitCaught ∧
  calls (regen_world r) = [CallLogs] ∧
  tick (regen_world r) = tick exBareSplitWorld ∧
  nodeError (store (regen_world r)) "splitGrid-6" =
    Some (VStr "Cannot read properties of undefined (reading 'length')").
Proof. split_and!; by vm_compute. Qed.

(** The regeneration of a text-generate node that stores no [inputImages]
    and has no image connected throws before any request is sent. *)
Lemma regenerate_llm_without_images_throws :
  let r := regenerateNode exEnv "llmGenerate-11" exLlmWorld in
  regen_path r = ExitCaught ∧
  calls (regen_world r) = [CallLogs] ∧
  nodeError (store (regen_world r)) "llmGenerate-11" =
    Some (VStr "Cannot read properties of undefined (reading 'length')") ∧
  console (regen_world r) =
    [ LogRegenerate (RegenStarted "llmGenerate-11" llmGenerate);
      LogRegenerate (RegenFailed "llmGenerate-11") ].
Proof. split_and!; by vm_compute. Qed.

(** A regeneration asked for during a run logs its warning and does
    nothing else. *)
Lemma regenerate_during_run_warns :
  let r := regenerateNode exEnv "nanoBanana-3" exRunningWorld in
  regen_path r = ExitIgnored ∧
  store (regen_world r) = store exRunningWorld ∧
  console (regen_world r) =
    [ LogRegenerate (RegenAlreadyRunning "nanoBanana-3") ].
Proof. split_and!; by vm_compute. Qed.

(** [toString] names no group, yet [groups["toString"]] is a function:
    toggling it writes a locked entry with no name. An id that is neither
    a group nor an inherited member throws. *)
Lemma toggleGroupLock_inherited_member :
  groups (store exWorld0) !! "toString" = None ∧
  (groups <$> toggleGroupLock "toString" (store exWorld0)) =
    Some {[ "toString" := mkGroup None (Some true) ]} ∧
  toggleGroupLock "group-9" (store exWorld0) = None.
Proof. split_and!; by vm_compute. Qed.

(** Under the id [__proto__] a charge is counted in the store and not
    persisted: a reload reads zero. *)
Lemma proto_cost_not_persisted :
  let w1 := addIncurredCost 134%Z exProtoWorld in
  incurredCost (store w1) = 134%Z ∧
  localCosts w1 = ∅ ∧
  incurredCost (store (loadIncurredCost exTruthy "__proto__" w1)) = 0%Z.
Proof. split_and!; by vm_compute. Qed.
